(** * Ultimate Sudoku: the puzzle engine and the battle session

    A shallow embedding of [js/sudoku.js] (module [SudokuEngine]) and
    [js/pvp.js] (module [PvP]), and the properties of both that the
    specification states.

    Conventions of the embedding.
    - A grid is a JavaScript array of arrays of numbers: [list (list Z)].
      Reading [g[r][c]] is [cell g r c : option Z], [None] standing for
      [undefined].  Writing [g[r][c] = v] is [set_cell g r c v].
    - Row and column indices and loop counters over them are [nat];
      every other number is a [Z], or a [Q] where the source computes
      with fractions.
    - The module-level variable [rng] and the platform source
      [Math.random] are threaded explicitly as a [World]; the module-level
      variable [battle], the timers, the clock and the calls of
      collaborators and callbacks are explicit as well.
    - The generator's arithmetic on doubles is exact on the values that
      occur with a seeded source.  The opponent's pacing is arithmetic on
      doubles that the embedding carries out on exact fractions. *)

From Stdlib Require Import ZArith QArith Qround Qminmax Lia Lqa.
From stdpp Require Import base option list strings pretty gmap.

Local Open Scope Z_scope.

(** * The puzzle engine ([js/sudoku.js]) *)

Module SudokuEngine.

(** ** 32-bit integer operations of JavaScript *)

Definition toInt32 (x : Z) : Z := (x + 2147483648) mod 4294967296 - 2147483648.
Definition toUint32 (x : Z) : Z := x mod 4294967296.

(** [Math.imul(a, b)] *)
Definition imul (a b : Z) : Z := toInt32 (a * b).

(** [a >>> n] *)
Definition ushr (a : Z) (n : Z) : Z := Z.shiftr (toUint32 a) n.

(** ** The random source *)

(** The value of the variable [rng]: either [Math.random] or the closure
    returned by [mulberry32], whose captured variable [s] is the state. *)
Inductive RngSource :=
| MathRandom
| Mulberry32 (s : Z).

(** [platform] is the sequence of numbers the platform's [Math.random]
    returns, [drawn] how many of them were consumed. *)
Record World := mkWorld {
  rng : RngSource;
  platform : nat → Q;
  drawn : nat;
}.

Definition set_rng (r : RngSource) (w : World) : World :=
  {| rng := r; platform := platform w; drawn := drawn w |}.

(** [mulberry32(seed)]: [let s = seed | 0] *)
Definition mulberry32 (seed : Z) : RngSource := Mulberry32 (toInt32 seed).

(** One call of the closure returned by [mulberry32]: the number returned
    and the new value of [s].  The quotient by 4294967296 is exact in
    double precision. *)
Definition mulberry32_next (s : Z) : Q * Z :=
  let s := toInt32 (s + 0x6D2B79F5) in
  let t := imul (Z.lxor s (ushr s 15)) (Z.lor 1 s) in
  let t := Z.lxor (toInt32 (t + imul (Z.lxor t (ushr t 7)) (Z.lor 61 t))) t in
  (toUint32 (Z.lxor t (ushr t 14)) # 4294967296, s).

(** [Math.random()] *)
Definition math_random (w : World) : Q * World :=
  (platform w (drawn w),
   {| rng := rng w; platform := platform w; drawn := S (drawn w) |}).

(** [rng()] *)
Definition rng_call (w : World) : Q * World :=
  match rng w with
  | MathRandom => math_random w
  | Mulberry32 s =>
      let '(x, s') := mulberry32_next s in (x, set_rng (Mulberry32 s') w)
  end.

(** [Math.floor(x * k)] for a draw [x] and an integer [k].  With a seeded
    source [x] is a multiple of 2^-32 and [k] is at most 81, so the
    double-precision product is exact. *)
Definition floor_mul (x : Q) (k : Z) : Z := Qfloor (x * inject_Z k).

(** ** Grids *)

Abbreviation Grid := (list (list Z)).

Definition cell (g : Grid) (r c : nat) : option Z := g !! r ≫= (.!! c).

Definition set_cell (g : Grid) (r c : nat) (v : Z) : Grid :=
  alter (<[c := v]>) r g.

(** [grid[r][c] === num] *)
Definition cell_is (g : Grid) (r c : nat) (num : Z) : bool :=
  bool_decide (cell g r c = Some num).

Definition createEmptyGrid : Grid := replicate 9 (replicate 9 0).

Definition cloneGrid (grid : Grid) : Grid := (λ row, row) <$> grid.

Definition isValid (grid : Grid) (row col : nat) (num : Z) : bool :=
  forallb (λ c, negb (cell_is grid row c num)) (seq 0 9)
  && forallb (λ r, negb (cell_is grid r col num)) (seq 0 9)
  && (let boxRow := (row / 3 * 3)%nat in
      let boxCol := (col / 3 * 3)%nat in
      forallb (λ r, forallb (λ c, negb (cell_is grid r c num)) (seq boxCol 3))
              (seq boxRow 3)).

(** [[arr[i], arr[j]] = [arr[j], arr[i]]]; both indices are inside the
    array whenever [shuffle] runs on draws from [0, 1). *)
Definition swap {A} (arr : list A) (i j : nat) : list A :=
  match arr !! i, arr !! j with
  | Some a, Some b => <[j := a]> (<[i := b]> arr)
  | _, _ => arr
  end.

(** The loop of [shuffle], [i] counting down to 1. *)
Fixpoint shuffle_from {A} (i : nat) (arr : list A) (w : World) : list A * World :=
  match i with
  | O => (arr, w)
  | S i' =>
      let '(x, w') := rng_call w in
      let j := Z.to_nat (floor_mul x (Z.of_nat i + 1)) in
      shuffle_from i' (swap arr i j) w'
  end.

Definition shuffle {A} (arr : list A) (w : World) : list A * World :=
  shuffle_from (length arr - 1) arr w.

(** The positions in the order of the two nested loops over rows and
    columns. *)
Definition positions_row_major : list (nat * nat) :=
  (λ i, (i / 9, i mod 9)%nat) <$> seq 0 81.

(** The first cell, in row-major order, with [grid[row][col] === 0]. *)
Definition first_empty (g : Grid) : option (nat * nat) :=
  find (λ p, cell_is g p.1 p.2 0) positions_row_major.

Definition count_empty (g : Grid) : nat :=
  length (filter (λ p, cell_is g p.1 p.2 0 = true) positions_row_major).

(** The recursion of [fillGrid] and of [solve] goes one level deeper for
    every cell it fills; the embedding carries that depth as a budget and
    answers [None] when it runs out, or when an index falls outside the
    grid.  [fuel_for g] is enough for [g]. *)
Definition fuel_for (g : Grid) : nat := S (count_empty g).

(** The loop [for (const num of nums)] of [fillGrid], [rec] being the
    recursive call. *)
Fixpoint fill_nums (rec : Grid → World → option (bool * Grid * World))
    (row col : nat) (nums : list Z) (grid : Grid) (w : World)
    : option (bool * Grid * World) :=
  match nums with
  | [] => Some (false, grid, w)
  | num :: rest =>
      if isValid grid row col num then
        match rec (set_cell grid row col num) w with
        | None => None
        | Some (true, grid', w') => Some (true, grid', w')
        | Some (false, grid', w') =>
            fill_nums rec row col rest (set_cell grid' row col 0) w'
        end
      else fill_nums rec row col rest grid w
  end.

Fixpoint fillGrid (fuel : nat) (grid : Grid) (w : World)
    : option (bool * Grid * World) :=
  match fuel with
  | O => None
  | S fuel' =>
      match first_empty grid with
      | Some (row, col) =>
          let '(nums, w1) := shuffle [1; 2; 3; 4; 5; 6; 7; 8; 9] w in
          fill_nums (fillGrid fuel') row col nums grid w1
      | None => Some (true, grid, w)
      end
  end.

(** The loop [for (let num = 1; num <= 9; num++)] of the inner function
    [solve] of [countSolutions]; [count] is the captured counter. *)
Fixpoint solve_nums (rec : Grid → Z → option (Grid * Z))
    (row col : nat) (nums : list Z) (g : Grid) (count : Z)
    : option (Grid * Z) :=
  match nums with
  | [] => Some (g, count)
  | num :: rest =>
      if isValid g row col num then
        match rec (set_cell g row col num) count with
        | None => None
        | Some (g', count') =>
            solve_nums rec row col rest (set_cell g' row col 0) count'
        end
      else solve_nums rec row col rest g count
  end.

Fixpoint solve_count (fuel : nat) (limit : Z) (g : Grid) (count : Z)
    : option (Grid * Z) :=
  match fuel with
  | O => None
  | S fuel' =>
      if limit <=? count then Some (g, count)
      else
        match first_empty g with
        | Some (row, col) =>
            solve_nums (solve_count fuel' limit) row col
              [1; 2; 3; 4; 5; 6; 7; 8; 9] g count
        | None => Some (g, count + 1)
        end
  end.

(** [countSolutions(grid, limit)]; the source's default for [limit] is 2,
    which is what [generate] relies on. *)
Definition countSolutions (grid : Grid) (limit : Z) : option Z :=
  snd <$> solve_count (fuel_for grid) limit (cloneGrid grid) 0.

Definition DIFFICULTY : gmap string (Z * Z) :=
  list_to_map
    [("easy", (38, 45)); ("medium", (30, 37)); ("hard", (25, 29));
     ("expert", (22, 24)); ("evil", (17, 21))]%string.

Record Puzzle := mkPuzzle {
  puzzle : Grid;
  solution : Grid;
  difficulty : string;
  clues : Z;
  seed : option Z;
}.

(** The removal loop of [generate].  [None] only if a position lay
    outside the grid or the counter ran out of budget, which does not
    happen on a 9×9 grid. *)
Fixpoint remove_cells (positions : list (nat * nat)) (cellsToRemove : Z)
    (puzzle : Grid) (removed : Z) : option (Grid * Z) :=
  match positions with
  | [] => Some (puzzle, removed)
  | (row, col) :: rest =>
      if cellsToRemove <=? removed then Some (puzzle, removed)
      else
        match cell puzzle row col with
        | None => None
        | Some backup =>
            let puzzle := set_cell puzzle row col 0 in
            match countSolutions puzzle 2 with
            | None => None
            | Some n =>
                if negb (n =? 1)
                then remove_cells rest cellsToRemove
                       (set_cell puzzle row col backup) removed
                else remove_cells rest cellsToRemove puzzle (removed + 1)
            end
        end
  end.

(** [generate(difficulty, seed)], [None] for the seed [null].  The band
    is [DIFFICULTY[difficulty] || DIFFICULTY.medium], looked up among the
    five keys of the table. *)
Definition generate (difficulty : string) (seed : option Z) (w : World)
    : option (Puzzle * World) :=
  let w := match seed with
           | Some s => set_rng (mulberry32 s) w
           | None => set_rng MathRandom w
           end in
  let '(minClues, maxClues) :=
    default (30, 37) (DIFFICULTY !! difficulty) in
  let '(x, w) := rng_call w in
  let targetClues := floor_mul x (maxClues - minClues + 1) + minClues in
  let cellsToRemove := 81 - targetClues in
  match fillGrid (fuel_for createEmptyGrid) createEmptyGrid w with
  | None => None
  | Some (_, solution, w) =>
      let puzzle := cloneGrid solution in
      let '(positions, w) := shuffle positions_row_major w in
      match remove_cells positions cellsToRemove puzzle 0 with
      | None => None
      | Some (puzzle, removed) =>
          Some ({| puzzle := puzzle; solution := solution;
                   difficulty := difficulty; clues := 81 - removed;
                   seed := seed |},
                set_rng MathRandom w)
      end
  end.

(** [solve(grid)]; the result [None] is [null].  The variable [rng] is
    left as the caller finds it, which is [Math.random] outside
    [generate]. *)
Definition solve (grid : Grid) (w : World) : option (option Grid * World) :=
  let copy := cloneGrid grid in
  match fillGrid (fuel_for copy) copy w with
  | None => None
  | Some (true, copy, w) => Some (Some copy, w)
  | Some (false, _, w) => Some (None, w)
  end.

(** [randomSeed()] *)
Definition randomSeed (w : World) : Z * World :=
  let '(x, w) := math_random w in (floor_mul x 2147483647, w).

End SudokuEngine.

(** * Vocabulary of the specification *)

Import SudokuEngine.

(** ** Grids *)

(** A grid is a 9×9 matrix. *)
Definition wf (g : Grid) : Prop :=
  length g = 9%nat ∧ Forall (λ row, length row = 9%nat) g.

(** Every cell holds an integer between 0 and 9. *)
Definition in_range (g : Grid) : Prop :=
  ∀ r c v, cell g r c = Some v → 0 <= v <= 9.

(** Two positions see each other: same row, same column or same box. *)
Definition peer (r c r' c' : nat) : Prop :=
  r = r' ∨ c = c' ∨ ((r / 3 = r' / 3)%nat ∧ (c / 3 = c' / 3)%nat).

(** No non-zero value repeats within a row, a column or a box. *)
Definition valid_grid (g : Grid) : Prop :=
  ∀ r c r' c' v,
    (r < 9)%nat → (c < 9)%nat → (r' < 9)%nat → (c' < 9)%nat →
    (r, c) ≠ (r', c') → peer r c r' c' →
    v ≠ 0 → cell g r c = Some v → cell g r' c' ≠ Some v.

(** No cell is empty. *)
Definition full (g : Grid) : Prop :=
  ∀ r c, (r < 9)%nat → (c < 9)%nat → cell g r c ≠ Some 0.

(** A complete valid Sudoku solution. *)
Definition solved (g : Grid) : Prop :=
  wf g ∧ in_range g ∧ full g ∧ valid_grid g.

(** [s] keeps every non-zero cell of [p]. *)
Definition extends (p s : Grid) : Prop :=
  ∀ r c v, (r < 9)%nat → (c < 9)%nat →
    cell p r c = Some v → v ≠ 0 → cell s r c = Some v.

(** [s] is a completion of [p]. *)
Definition completion (p s : Grid) : Prop := solved s ∧ extends p s.

(** [p] is [s] with some cells emptied. *)
Definition holes_of (p s : Grid) : Prop :=
  ∀ r c, (r < 9)%nat → (c < 9)%nat →
    cell p r c = Some 0 ∨ cell p r c = cell s r c.

(** A decision procedure for [solved], used on concrete grids. *)
Definition solvedb (g : Grid) : bool :=
  bool_decide (length g = 9%nat)
  && forallb (λ row, bool_decide (length row = 9%nat)) g
  && forallb (λ p,
       match cell g p.1 p.2 with
       | Some v => (1 <=? v) && (v <=? 9)
                   && isValid (set_cell g p.1 p.2 0) p.1 p.2 v
       | None => false
       end) positions_row_major.

(** A solved grid: the pattern obtained by shifting the first row. *)
Definition shifted_grid : Grid :=
  [[1; 2; 3; 4; 5; 6; 7; 8; 9];
   [4; 5; 6; 7; 8; 9; 1; 2; 3];
   [7; 8; 9; 1; 2; 3; 4; 5; 6];
   [2; 3; 4; 5; 6; 7; 8; 9; 1];
   [5; 6; 7; 8; 9; 1; 2; 3; 4];
   [8; 9; 1; 2; 3; 4; 5; 6; 7];
   [3; 4; 5; 6; 7; 8; 9; 1; 2];
   [6; 7; 8; 9; 1; 2; 3; 4; 5];
   [9; 1; 2; 3; 4; 5; 6; 7; 8]].

(** A world in which nothing was drawn yet; the platform source would
    return zeros. *)
Definition idle_world : World := mkWorld MathRandom (λ _, 0%Q) 0.

(** ** Vocabulary of the proofs *)

(** The variable [rng] holds a closure of [mulberry32]. *)
Definition seeded (w : World) : Prop := ∃ s, rng w = Mulberry32 s.

Definition unit_interval (x : Q) : Prop := (0 <= x)%Q ∧ (x < 1)%Q.

(** What [fillGrid] maintains on the grid it fills. *)
Definition fill_inv (g : Grid) : Prop := wf g ∧ in_range g ∧ valid_grid g.

(** The result of a call: it returns, the random source stays the seeded
    one and the platform source is not consulted; on [false] the grid is
    as it was and has no completion, on [true] it is a solved grid that
    keeps the cells of the grid passed in. *)
Definition fill_post (g : Grid) (w : World)
    (res : option (bool * Grid * World)) : Prop :=
  ∃ b g' w', res = Some (b, g', w') ∧
    seeded w' ∧ platform w' = platform w ∧ drawn w' = drawn w ∧
    (b = false → g' = g ∧ ∀ s, ¬ completion g s) ∧
    (b = true → solved g' ∧ extends g g').

(** A call of the inner [solve] returns, leaves the grid as it found it,
    and has counted every completion it was shown, up to the limit. *)
Definition solve_post (limit : Z) (g : Grid) (count : Z) (sols : list Grid)
    (res : option (Grid * Z)) : Prop :=
  ∃ count', res = Some (g, count') ∧
    Z.min limit (count + Z.of_nat (length sols)) <= count'.

(** Two worlds whose [rng] is the same seeded closure state; their
    platform sources may differ. *)
Definition same_stream (w1 w2 : World) : Prop :=
  ∃ s, rng w1 = Mulberry32 s ∧ rng w2 = Mulberry32 s.

Definition agree {A} (r1 r2 : A * World) : Prop :=
  r1.1 = r2.1 ∧ same_stream r1.2 r2.2.

Definition agree_opt {A} (o1 o2 : option (A * World)) : Prop :=
  match o1, o2 with
  | Some r1, Some r2 => agree r1 r2
  | None, None => True
  | _, _ => False
  end.


(** The platform source returns numbers of [0, 1).  Where a result
    depends on the numbers drawn only through [Math.floor(x * k)], every
    run on doubles is the run of the embedding on some such sequence of
    fractions. *)
Definition fair (w : World) : Prop := ∀ n, unit_interval (platform w n).

(** A position holds a clue. *)
Definition is_clue (g : Grid) (r c : nat) : Prop :=
  ∃ v, cell g r c = Some v ∧ v ≠ 0.

(** The number of cells that are not empty. *)
Definition count_filled (g : Grid) : Z := 81 - Z.of_nat (count_empty g).

(** What a call of [fillGrid] does on a grid without conflicts, for a
    property [good] of worlds that the call keeps: on [false] the grid is
    as it was and has no completion, on [true] it is a solved grid that
    keeps the cells of the grid passed in. *)
Definition fill_good (good : World → Prop) (g : Grid)
    (res : option (bool * Grid * World)) : Prop :=
  ∃ b g' w', res = Some (b, g', w') ∧ good w' ∧
    (b = false → g' = g ∧ ∀ s, ¬ completion g s) ∧
    (b = true → solved g' ∧ extends g g').

(** What a call of the inner [solve] of [countSolutions] has done when
    it returns [count'], on a grid without conflicts: the completions it
    counted are [sols], all different; it stays within the limit; and
    below the limit it has counted every completion. *)
Definition solve_exact (limit : Z) (g : Grid) (count count' : Z)
    (sols : list Grid) : Prop :=
  NoDup sols ∧ Forall (completion g) sols ∧
  count' = count + Z.of_nat (length sols) ∧
  (count <= limit → count' <= limit) ∧
  (count' < limit → ∀ s, completion g s → s ∈ sols).

(** The variable [rng] holds a closure of [mulberry32], or the platform
    source returns numbers of [0, 1). *)
Definition sound_source (w : World) : Prop := seeded w ∨ fair w.

(** What [generate] needs of the world for the seed it is given. *)
Definition source_for (seed : option Z) (w : World) : Prop :=
  match seed with
  | Some _ => True
  | None => fair w
  end.

(** One of the five difficulties of the table [DIFFICULTY] (and of
    [AI_SPEED]): the strings for which [DIFFICULTY[difficulty]] is a
    property of the table itself. *)
Definition listed (difficulty : string) : Prop :=
  is_Some (DIFFICULTY !! difficulty).

(** The number of clues [generate] aims at, [targetClues] of the source:
    the first number of the source of randomness, scaled into the band of
    the difficulty. *)
Definition targetClues (difficulty : string) (seed : option Z) (w : World)
    : Z :=
  let w := match seed with
           | Some s => set_rng (mulberry32 s) w
           | None => set_rng MathRandom w
           end in
  let '(minClues, maxClues) :=
    default (30, 37) (DIFFICULTY !! difficulty) in
  floor_mul (rng_call w).1 (maxClues - minClues + 1) + minClues.

(** The clue at a position cannot be removed: with the cell emptied, the
    grid has two different completions. *)
Definition needed (p : Grid) (r c : nat) : Prop :=
  ∃ s1 s2, completion (set_cell p r c 0) s1 ∧
    completion (set_cell p r c 0) s2 ∧ s1 ≠ s2.

(** * The battle session ([js/pvp.js]) *)

Module PvP.
Import SudokuEngine.

Definition BATTLE_TIME : Z := 600.

Record Speed := mkSpeed { base : Q; variance : Q }.

Definition AI_SPEED : gmap string Speed :=
  list_to_map
    [("easy", mkSpeed 3500 1500); ("medium", mkSpeed 5000 2000);
     ("hard", mkSpeed 7500 2500); ("expert", mkSpeed 10000 3500);
     ("evil", mkSpeed 15000 5000)]%string.

(** The strings ['warmup'], ['normal'], ['focused'], ['fatigue'] of
    [aiPhase] and ['win'], ['lose'], ['draw'] of [result]. *)
Inductive Phase := warmup | normal | focused | fatigue.
Inductive Result := win | lose | draw.

(** An entry of [aiCellsQueue]. *)
Record QueueCell := mkQueueCell { row : nat; col : nat; val : option Z }.

(** The object [battle]. *)
Record Battle := mkBattle {
  seed : Z;
  difficulty : string;
  puzzle : Grid;
  solution : Grid;
  original : Grid;
  playerBoard : Grid;
  playerCellsFilled : Z;
  playerMistakes : Z;
  playerHints : Z;
  playerFinished : bool;
  aiName : string;
  aiAvatar : string;
  aiCellsFilled : Z;
  aiTotalCells : Z;
  aiCellsQueue : list QueueCell;
  aiFinished : bool;
  aiIntervalId : option Z;
  aiSpeed : Speed;
  aiHints : Z;
  aiMistakes : Z;
  aiBurstRemaining : Z;
  aiLastMistakeAt : Z;
  aiConsecutiveSolves : Z;
  aiPhase : Phase;
  timeRemaining : Z;
  timerIntervalId : option Z;
  started : bool;
  ended : bool;
  result : option Result;
  eloDelta : Z;
}.

(** Assignments to the fields of [battle]. *)

Definition set_playerBoard (v : Grid) (b : Battle) : Battle :=
  mkBattle (seed b) (difficulty b) (puzzle b) (solution b) (original b) v
    (playerCellsFilled b) (playerMistakes b) (playerHints b) (playerFinished
    b) (aiName b) (aiAvatar b) (aiCellsFilled b) (aiTotalCells b)
    (aiCellsQueue b) (aiFinished b) (aiIntervalId b) (aiSpeed b) (aiHints b)
    (aiMistakes b) (aiBurstRemaining b) (aiLastMistakeAt b)
    (aiConsecutiveSolves b) (aiPhase b) (timeRemaining b) (timerIntervalId
    b) (started b) (ended b) (result b) (eloDelta b).

Definition set_playerCellsFilled (v : Z) (b : Battle) : Battle :=
  mkBattle (seed b) (difficulty b) (puzzle b) (solution b) (original b)
    (playerBoard b) v (playerMistakes b) (playerHints b) (playerFinished b)
    (aiName b) (aiAvatar b) (aiCellsFilled b) (aiTotalCells b) (aiCellsQueue
    b) (aiFinished b) (aiIntervalId b) (aiSpeed b) (aiHints b) (aiMistakes
    b) (aiBurstRemaining b) (aiLastMistakeAt b) (aiConsecutiveSolves b)
    (aiPhase b) (timeRemaining b) (timerIntervalId b) (started b) (ended b)
    (result b) (eloDelta b).

Definition set_playerMistakes (v : Z) (b : Battle) : Battle :=
  mkBattle (seed b) (difficulty b) (puzzle b) (solution b) (original b)
    (playerBoard b) (playerCellsFilled b) v (playerHints b) (playerFinished
    b) (aiName b) (aiAvatar b) (aiCellsFilled b) (aiTotalCells b)
    (aiCellsQueue b) (aiFinished b) (aiIntervalId b) (aiSpeed b) (aiHints b)
    (aiMistakes b) (aiBurstRemaining b) (aiLastMistakeAt b)
    (aiConsecutiveSolves b) (aiPhase b) (timeRemaining b) (timerIntervalId
    b) (started b) (ended b) (result b) (eloDelta b).

Definition set_playerHints (v : Z) (b : Battle) : Battle :=
  mkBattle (seed b) (difficulty b) (puzzle b) (solution b) (original b)
    (playerBoard b) (playerCellsFilled b) (playerMistakes b) v
    (playerFinished b) (aiName b) (aiAvatar b) (aiCellsFilled b)
    (aiTotalCells b) (aiCellsQueue b) (aiFinished b) (aiIntervalId b)
    (aiSpeed b) (aiHints b) (aiMistakes b) (aiBurstRemaining b)
    (aiLastMistakeAt b) (aiConsecutiveSolves b) (aiPhase b) (timeRemaining
    b) (timerIntervalId b) (started b) (ended b) (result b) (eloDelta b).

Definition set_playerFinished (v : bool) (b : Battle) : Battle :=
  mkBattle (seed b) (difficulty b) (puzzle b) (solution b) (original b)
    (playerBoard b) (playerCellsFilled b) (playerMistakes b) (playerHints b)
    v (aiName b) (aiAvatar b) (aiCellsFilled b) (aiTotalCells b)
    (aiCellsQueue b) (aiFinished b) (aiIntervalId b) (aiSpeed b) (aiHints b)
    (aiMistakes b) (aiBurstRemaining b) (aiLastMistakeAt b)
    (aiConsecutiveSolves b) (aiPhase b) (timeRemaining b) (timerIntervalId
    b) (started b) (ended b) (result b) (eloDelta b).

Definition set_aiCellsFilled (v : Z) (b : Battle) : Battle :=
  mkBattle (seed b) (difficulty b) (puzzle b) (solution b) (original b)
    (playerBoard b) (playerCellsFilled b) (playerMistakes b) (playerHints b)
    (playerFinished b) (aiName b) (aiAvatar b) v (aiTotalCells b)
    (aiCellsQueue b) (aiFinished b) (aiIntervalId b) (aiSpeed b) (aiHints b)
    (aiMistakes b) (aiBurstRemaining b) (aiLastMistakeAt b)
    (aiConsecutiveSolves b) (aiPhase b) (timeRemaining b) (timerIntervalId
    b) (started b) (ended b) (result b) (eloDelta b).

Definition set_aiFinished (v : bool) (b : Battle) : Battle :=
  mkBattle (seed b) (difficulty b) (puzzle b) (solution b) (original b)
    (playerBoard b) (playerCellsFilled b) (playerMistakes b) (playerHints b)
    (playerFinished b) (aiName b) (aiAvatar b) (aiCellsFilled b)
    (aiTotalCells b) (aiCellsQueue b) v (aiIntervalId b) (aiSpeed b)
    (aiHints b) (aiMistakes b) (aiBurstRemaining b) (aiLastMistakeAt b)
    (aiConsecutiveSolves b) (aiPhase b) (timeRemaining b) (timerIntervalId
    b) (started b) (ended b) (result b) (eloDelta b).

Definition set_aiIntervalId (v : option Z) (b : Battle) : Battle :=
  mkBattle (seed b) (difficulty b) (puzzle b) (solution b) (original b)
    (playerBoard b) (playerCellsFilled b) (playerMistakes b) (playerHints b)
    (playerFinished b) (aiName b) (aiAvatar b) (aiCellsFilled b)
    (aiTotalCells b) (aiCellsQueue b) (aiFinished b) v (aiSpeed b) (aiHints
    b) (aiMistakes b) (aiBurstRemaining b) (aiLastMistakeAt b)
    (aiConsecutiveSolves b) (aiPhase b) (timeRemaining b) (timerIntervalId
    b) (started b) (ended b) (result b) (eloDelta b).

Definition set_aiHints (v : Z) (b : Battle) : Battle :=
  mkBattle (seed b) (difficulty b) (puzzle b) (solution b) (original b)
    (playerBoard b) (playerCellsFilled b) (playerMistakes b) (playerHints b)
    (playerFinished b) (aiName b) (aiAvatar b) (aiCellsFilled b)
    (aiTotalCells b) (aiCellsQueue b) (aiFinished b) (aiIntervalId b)
    (aiSpeed b) v (aiMistakes b) (aiBurstRemaining b) (aiLastMistakeAt b)
    (aiConsecutiveSolves b) (aiPhase b) (timeRemaining b) (timerIntervalId
    b) (started b) (ended b) (result b) (eloDelta b).

Definition set_aiMistakes (v : Z) (b : Battle) : Battle :=
  mkBattle (seed b) (difficulty b) (puzzle b) (solution b) (original b)
    (playerBoard b) (playerCellsFilled b) (playerMistakes b) (playerHints b)
    (playerFinished b) (aiName b) (aiAvatar b) (aiCellsFilled b)
    (aiTotalCells b) (aiCellsQueue b) (aiFinished b) (aiIntervalId b)
    (aiSpeed b) (aiHints b) v (aiBurstRemaining b) (aiLastMistakeAt b)
    (aiConsecutiveSolves b) (aiPhase b) (timeRemaining b) (timerIntervalId
    b) (started b) (ended b) (result b) (eloDelta b).

Definition set_aiBurstRemaining (v : Z) (b : Battle) : Battle :=
  mkBattle (seed b) (difficulty b) (puzzle b) (solution b) (original b)
    (playerBoard b) (playerCellsFilled b) (playerMistakes b) (playerHints b)
    (playerFinished b) (aiName b) (aiAvatar b) (aiCellsFilled b)
    (aiTotalCells b) (aiCellsQueue b) (aiFinished b) (aiIntervalId b)
    (aiSpeed b) (aiHints b) (aiMistakes b) v (aiLastMistakeAt b)
    (aiConsecutiveSolves b) (aiPhase b) (timeRemaining b) (timerIntervalId
    b) (started b) (ended b) (result b) (eloDelta b).

Definition set_aiLastMistakeAt (v : Z) (b : Battle) : Battle :=
  mkBattle (seed b) (difficulty b) (puzzle b) (solution b) (original b)
    (playerBoard b) (playerCellsFilled b) (playerMistakes b) (playerHints b)
    (playerFinished b) (aiName b) (aiAvatar b) (aiCellsFilled b)
    (aiTotalCells b) (aiCellsQueue b) (aiFinished b) (aiIntervalId b)
    (aiSpeed b) (aiHints b) (aiMistakes b) (aiBurstRemaining b) v
    (aiConsecutiveSolves b) (aiPhase b) (timeRemaining b) (timerIntervalId
    b) (started b) (ended b) (result b) (eloDelta b).

Definition set_aiConsecutiveSolves (v : Z) (b : Battle) : Battle :=
  mkBattle (seed b) (difficulty b) (puzzle b) (solution b) (original b)
    (playerBoard b) (playerCellsFilled b) (playerMistakes b) (playerHints b)
    (playerFinished b) (aiName b) (aiAvatar b) (aiCellsFilled b)
    (aiTotalCells b) (aiCellsQueue b) (aiFinished b) (aiIntervalId b)
    (aiSpeed b) (aiHints b) (aiMistakes b) (aiBurstRemaining b)
    (aiLastMistakeAt b) v (aiPhase b) (timeRemaining b) (timerIntervalId b)
    (started b) (ended b) (result b) (eloDelta b).

Definition set_aiPhase (v : Phase) (b : Battle) : Battle :=
  mkBattle (seed b) (difficulty b) (puzzle b) (solution b) (original b)
    (playerBoard b) (playerCellsFilled b) (playerMistakes b) (playerHints b)
    (playerFinished b) (aiName b) (aiAvatar b) (aiCellsFilled b)
    (aiTotalCells b) (aiCellsQueue b) (aiFinished b) (aiIntervalId b)
    (aiSpeed b) (aiHints b) (aiMistakes b) (aiBurstRemaining b)
    (aiLastMistakeAt b) (aiConsecutiveSolves b) v (timeRemaining b)
    (timerIntervalId b) (started b) (ended b) (result b) (eloDelta b).

Definition set_timeRemaining (v : Z) (b : Battle) : Battle :=
  mkBattle (seed b) (difficulty b) (puzzle b) (solution b) (original b)
    (playerBoard b) (playerCellsFilled b) (playerMistakes b) (playerHints b)
    (playerFinished b) (aiName b) (aiAvatar b) (aiCellsFilled b)
    (aiTotalCells b) (aiCellsQueue b) (aiFinished b) (aiIntervalId b)
    (aiSpeed b) (aiHints b) (aiMistakes b) (aiBurstRemaining b)
    (aiLastMistakeAt b) (aiConsecutiveSolves b) (aiPhase b) v
    (timerIntervalId b) (started b) (ended b) (result b) (eloDelta b).

Definition set_timerIntervalId (v : option Z) (b : Battle) : Battle :=
  mkBattle (seed b) (difficulty b) (puzzle b) (solution b) (original b)
    (playerBoard b) (playerCellsFilled b) (playerMistakes b) (playerHints b)
    (playerFinished b) (aiName b) (aiAvatar b) (aiCellsFilled b)
    (aiTotalCells b) (aiCellsQueue b) (aiFinished b) (aiIntervalId b)
    (aiSpeed b) (aiHints b) (aiMistakes b) (aiBurstRemaining b)
    (aiLastMistakeAt b) (aiConsecutiveSolves b) (aiPhase b) (timeRemaining
    b) v (started b) (ended b) (result b) (eloDelta b).

Definition set_started (v : bool) (b : Battle) : Battle :=
  mkBattle (seed b) (difficulty b) (puzzle b) (solution b) (original b)
    (playerBoard b) (playerCellsFilled b) (playerMistakes b) (playerHints b)
    (playerFinished b) (aiName b) (aiAvatar b) (aiCellsFilled b)
    (aiTotalCells b) (aiCellsQueue b) (aiFinished b) (aiIntervalId b)
    (aiSpeed b) (aiHints b) (aiMistakes b) (aiBurstRemaining b)
    (aiLastMistakeAt b) (aiConsecutiveSolves b) (aiPhase b) (timeRemaining
    b) (timerIntervalId b) v (ended b) (result b) (eloDelta b).

Definition set_ended (v : bool) (b : Battle) : Battle :=
  mkBattle (seed b) (difficulty b) (puzzle b) (solution b) (original b)
    (playerBoard b) (playerCellsFilled b) (playerMistakes b) (playerHints b)
    (playerFinished b) (aiName b) (aiAvatar b) (aiCellsFilled b)
    (aiTotalCells b) (aiCellsQueue b) (aiFinished b) (aiIntervalId b)
    (aiSpeed b) (aiHints b) (aiMistakes b) (aiBurstRemaining b)
    (aiLastMistakeAt b) (aiConsecutiveSolves b) (aiPhase b) (timeRemaining
    b) (timerIntervalId b) (started b) v (result b) (eloDelta b).

Definition set_result (v : option Result) (b : Battle) : Battle :=
  mkBattle (seed b) (difficulty b) (puzzle b) (solution b) (original b)
    (playerBoard b) (playerCellsFilled b) (playerMistakes b) (playerHints b)
    (playerFinished b) (aiName b) (aiAvatar b) (aiCellsFilled b)
    (aiTotalCells b) (aiCellsQueue b) (aiFinished b) (aiIntervalId b)
    (aiSpeed b) (aiHints b) (aiMistakes b) (aiBurstRemaining b)
    (aiLastMistakeAt b) (aiConsecutiveSolves b) (aiPhase b) (timeRemaining
    b) (timerIntervalId b) (started b) (ended b) v (eloDelta b).

Definition set_eloDelta (v : Z) (b : Battle) : Battle :=
  mkBattle (seed b) (difficulty b) (puzzle b) (solution b) (original b)
    (playerBoard b) (playerCellsFilled b) (playerMistakes b) (playerHints b)
    (playerFinished b) (aiName b) (aiAvatar b) (aiCellsFilled b)
    (aiTotalCells b) (aiCellsQueue b) (aiFinished b) (aiIntervalId b)
    (aiSpeed b) (aiHints b) (aiMistakes b) (aiBurstRemaining b)
    (aiLastMistakeAt b) (aiConsecutiveSolves b) (aiPhase b) (timeRemaining
    b) (timerIntervalId b) (started b) (ended b) (result b) v.

(** What a call does to the world outside [battle]: calls of the
    collaborators and of the callbacks passed in, and timers set and
    cleared. *)
Record EloDetails := mkEloDetails {
  details_result : option Result;
  opponent : string;
  details_difficulty : string;
  playerProgress : Z;
  aiProgress : Z;
  timeUsed : Z;
}.

Inductive Effect :=
| UpdateELO (delta : Z) (details : EloDetails)
| OnBattleEnd
| OnTimerTick (remaining : Z)
| OnAIProgress (filled total : Z)
| OnAIGainsHint
| SetInterval (id : Z)
| SetTimeout (id : Z) (delay : Q)
| ClearInterval (id : option Z)
| ClearTimeout (id : option Z).

(** Which of the optional callbacks the caller passed. *)
Record Callbacks := mkCallbacks {
  onAIProgress : bool;
  onAIGainsHint : bool;
  onTimerTick : bool;
  onBattleEnd : bool;
}.

(** The environment of the module: the numbers [Math.random] returns,
    the value of [Date.now()], the next timer handle and the effects so
    far, oldest first. *)
Record Env := mkEnv {
  random : nat → Q;
  consumed : nat;
  now : Z;
  next_timer : Z;
  effects : list Effect;
}.

Definition math_random (e : Env) : Q * Env :=
  (random e (consumed e),
   mkEnv (random e) (S (consumed e)) (now e) (next_timer e) (effects e)).

Definition emit (eff : Effect) (e : Env) : Env :=
  mkEnv (random e) (consumed e) (now e) (next_timer e) (effects e ++ [eff]).

Definition new_timer (e : Env) : Z * Env :=
  (next_timer e,
   mkEnv (random e) (consumed e) (now e) (next_timer e + 1) (effects e)).

Definition set_now (t : Z) (e : Env) : Env :=
  mkEnv (random e) (consumed e) t (next_timer e) (effects e).

(** [x < y] on fractions.  The source computes them in double precision;
    the embedding computes them exactly. *)
Definition Qltb (x y : Q) : bool := negb (Qle_bool y x).

(** [p / total] *)
Definition fraction (p total : Z) : Q := (inject_Z p / inject_Z total)%Q.

(** [Math.round(x)] *)
Definition round (x : Q) : Z := Qfloor (x + 0.5)%Q.

(** The object literal of [startBattle], from the seed, the generated
    puzzle, the shuffled queue of empty cells and the opponent picked. *)
Definition newBattle (seed : Z) (difficulty : string) (data : Puzzle)
    (emptyCells : list QueueCell) (aiName aiAvatar : string) : Battle :=
  {| seed := seed;
     difficulty := difficulty;
     puzzle := SudokuEngine.puzzle data;
     solution := SudokuEngine.solution data;
     original := cloneGrid (SudokuEngine.puzzle data);
     playerBoard := cloneGrid (SudokuEngine.puzzle data);
     playerCellsFilled := 0;
     playerMistakes := 0;
     playerHints := 0;
     playerFinished := false;
     aiName := aiName;
     aiAvatar := aiAvatar;
     aiCellsFilled := 0;
     aiTotalCells := Z.of_nat (length emptyCells);
     aiCellsQueue := emptyCells;
     aiFinished := false;
     aiIntervalId := None;
     aiSpeed := default (mkSpeed 5000 2000) (AI_SPEED !! difficulty);
     aiHints := 0;
     aiMistakes := 0;
     aiBurstRemaining := 0;
     aiLastMistakeAt := 0;
     aiConsecutiveSolves := 0;
     aiPhase := warmup;
     timeRemaining := BATTLE_TIME;
     timerIntervalId := None;
     started := false;
     ended := false;
     result := None;
     eloDelta := 0 |}.

(** The loop of [startBattle] that collects the empty cells. *)
Definition emptyCells (data : Puzzle) : list QueueCell :=
  omap (λ p, if cell_is (SudokuEngine.puzzle data) p.1 p.2 0
             then Some (mkQueueCell p.1 p.2
                          (cell (SudokuEngine.solution data) p.1 p.2))
             else None)
       positions_row_major.

(** [endBattle(reason, callback)] *)
Definition endBattle (reason : string) (cb : Callbacks) (b : Battle) (e : Env)
    : Battle * Env :=
  if ended b then (b, e)
  else
    let b := set_ended true b in
    let e := emit (ClearInterval (timerIntervalId b)) e in
    let e := emit (ClearTimeout (aiIntervalId b)) e in
    let b :=
      if bool_decide (reason = "player_finished"%string) || playerFinished b
      then set_eloDelta 25 (set_result (Some win) b)
      else if bool_decide (reason = "ai_finished"%string)
      then set_eloDelta (-25) (set_result (Some lose) b)
      else if bool_decide (reason = "timeout"%string) then
        let playerPct := fraction (playerCellsFilled b) (aiTotalCells b) in
        let aiPct := fraction (aiCellsFilled b) (aiTotalCells b) in
        if Qltb aiPct playerPct
        then set_eloDelta 15 (set_result (Some win) b)
        else if Qltb playerPct aiPct
        then set_eloDelta (-15) (set_result (Some lose) b)
        else set_eloDelta 0 (set_result (Some draw) b)
      else if bool_decide (reason = "quit"%string)
      then set_eloDelta (-25) (set_result (Some lose) b)
      else b in
    let e :=
      emit (UpdateELO (eloDelta b)
              {| details_result := result b;
                 opponent := aiName b;
                 details_difficulty := difficulty b;
                 playerProgress :=
                   round (fraction (playerCellsFilled b) (aiTotalCells b) * 100);
                 aiProgress :=
                   round (fraction (aiCellsFilled b) (aiTotalCells b) * 100);
                 timeUsed := BATTLE_TIME - timeRemaining b |}) e in
    let e := if onBattleEnd cb then emit OnBattleEnd e else e in
    (b, e).

(** [scheduleAIAction]: the timer is set; its callback is [aiAction]
    below. *)
Definition scheduleAIAction (delay : Q) (b : Battle) (e : Env) : Battle * Env :=
  let '(id, e) := new_timer e in
  (set_aiIntervalId (Some id) b, emit (SetTimeout id delay) e).

(** The delay [scheduleNextAICell] computes, with the changes to
    [battle] on the way (the body between the guard and the call of
    [scheduleAIAction]). *)
Definition aiDelay (b : Battle) (e : Env) : Q * Battle * Env :=
  let speed := aiSpeed b in
  let progress := fraction (aiCellsFilled b) (aiTotalCells b) in
  let timeSinceMistake := now e - aiLastMistakeAt b in
  let '(useHint, e) :=
    if 0 <? aiHints b
    then let '(r, e) := math_random e in (Qltb 0.5 r, e)
    else (false, e) in
  if useHint then
    let b := set_aiHints (aiHints b - 1) b in
    let '(r, e) := math_random e in
    ((200 + r * 400)%Q, b, e)
  else
    let b :=
      if Qltb progress 0.12 then set_aiPhase warmup b
      else if Qltb 0.85 progress then set_aiPhase focused b
      else if 8 <? aiConsecutiveSolves b then set_aiPhase fatigue b
      else set_aiPhase normal b in
    let '(r, e) := math_random e in
    let baseDelay := (base speed + (r * 2 - 1) * variance speed)%Q in
    let '(baseDelay, b, e) :=
      match aiPhase b with
      | warmup =>
          let '(r, e) := math_random e in
          ((baseDelay * (1.4 + r * 0.6))%Q, b, e)
      | focused =>
          let '(r, e) := math_random e in
          ((baseDelay * (0.5 + r * 0.3))%Q, b, e)
      | fatigue =>
          let '(r, e) := math_random e in
          ((baseDelay * (1.2 + r * 0.5))%Q, set_aiConsecutiveSolves 0 b, e)
      | normal => (baseDelay, b, e)
      end in
    let momentumMultiplier := (1 - progress * 0.25)%Q in
    let baseDelay := (baseDelay * momentumMultiplier)%Q in
    let '(baseDelay, e) :=
      if timeSinceMistake <? 8000
      then let '(r, e) := math_random e in
           ((baseDelay * (1.3 + r * 0.4))%Q, e)
      else (baseDelay, e) in
    let playerProgress := fraction (playerCellsFilled b) (aiTotalCells b) in
    let '(baseDelay, e) :=
      if Qltb (progress + 0.15) playerProgress then
        let '(r, e) := math_random e in
        if Qltb r 0.4
        then let '(r, e) := math_random e in
             ((baseDelay * (0.6 + r * 0.2))%Q, e)
        else (baseDelay, e)
      else (baseDelay, e) in
    let '(baseDelay, b, e) :=
      if 0 <? aiBurstRemaining b then
        let '(r, e) := math_random e in
        ((baseDelay * (0.25 + r * 0.15))%Q,
         set_aiBurstRemaining (aiBurstRemaining b - 1) b, e)
      else
        match aiPhase b with
        | normal =>
            let '(r, e) := math_random e in
            if Qltb r 0.12 then
              let '(r, e) := math_random e in
              ((baseDelay * 0.3)%Q,
               set_aiBurstRemaining (2 + Qfloor (r * 3)) b, e)
            else (baseDelay, b, e)
        | _ => (baseDelay, b, e)
        end in
    let '(baseDelay, e) :=
      match aiPhase b with
      | normal =>
          if aiBurstRemaining b =? 0 then
            let '(r, e) := math_random e in
            if Qltb r 0.08
            then let '(r, e) := math_random e in ((5000 + r * 10000)%Q, e)
            else (baseDelay, e)
          else (baseDelay, e)
      | _ => (baseDelay, e)
      end in
    let '(r, e) := math_random e in
    let baseDelay := (baseDelay + (r - 0.5) * 800)%Q in
    (Qmax 400 (Qmin baseDelay 25000), b, e).

(** [scheduleNextAICell] *)
Definition scheduleNextAICell (b : Battle) (e : Env) : Battle * Env :=
  if ended b || aiFinished b then (b, e)
  else
    let '(delay, b, e) := aiDelay b e in
    scheduleAIAction delay b e.

(** The callback of the timer that [scheduleAIAction] sets. *)
Definition aiAction (cb : Callbacks) (b : Battle) (e : Env) : Battle * Env :=
  if ended b then (b, e)
  else
    let mistakeChance := 0.10%Q in
    let mistakeChance :=
      if bool_decide (difficulty b = "easy"%string) then 0.15%Q
      else mistakeChance in
    let mistakeChance :=
      if bool_decide (difficulty b = "evil"%string) then 0.05%Q
      else mistakeChance in
    let '(r, e) := math_random e in
    if Qltb r mistakeChance then
      let b := set_aiMistakes (aiMistakes b + 1) b in
      let b := set_aiLastMistakeAt (now e) b in
      let b := set_aiConsecutiveSolves 0 b in
      let b := set_aiBurstRemaining 0 b in
      let '(b, e) :=
        if Z.rem (aiMistakes b) 3 =? 0 then
          (set_playerHints (playerHints b + 1) b,
           if onAIGainsHint cb then emit OnAIGainsHint e else e)
        else (b, e) in
      scheduleNextAICell b e
    else
      let b := set_aiCellsFilled (aiCellsFilled b + 1) b in
      let b := set_aiConsecutiveSolves (aiConsecutiveSolves b + 1) b in
      let e :=
        if onAIProgress cb
        then emit (OnAIProgress (aiCellsFilled b) (aiTotalCells b)) e
        else e in
      if aiTotalCells b <=? aiCellsFilled b then
        let b := set_aiFinished true b in
        if negb (playerFinished b) then endBattle "ai_finished" cb b e
        else (b, e)
      else scheduleNextAICell b e.

(** The callback of the countdown timer that [beginBattle] sets. *)
Definition timerTick (cb : Callbacks) (b : Battle) (e : Env) : Battle * Env :=
  if ended b then (b, e)
  else
    let b := set_timeRemaining (timeRemaining b - 1) b in
    let e := if onTimerTick cb then emit (OnTimerTick (timeRemaining b)) e else e in
    if timeRemaining b <=? 0 then endBattle "timeout" cb b e else (b, e).

(** [beginBattle]; [battle] is the module-level variable, [None] for
    [null]. *)
Definition beginBattle (cb : Callbacks) (battle : option Battle) (e : Env)
    : option Battle * Env :=
  match battle with
  | None => (battle, e)
  | Some b =>
      if started b then (battle, e)
      else
        let b := set_started true b in
        let '(id, e) := new_timer e in
        let b := set_timerIntervalId (Some id) b in
        let e := emit (SetInterval id) e in
        let '(b, e) := scheduleNextAICell b e in
        (Some b, e)
  end.

(** How a call of one of the player's operations completes: it returns
    a value, or reading a row that the grid does not have raises a
    [TypeError].  Either way [battle] is left as given. *)
Inductive Completion (A : Type) :=
| Return (a : A) (battle : option Battle)
| TypeError (battle : option Battle).
Arguments Return {A} a battle.
Arguments TypeError {A} battle.

Record PlaceResult := mkPlaceResult { isCorrect : bool; finished : bool }.
Record HintResult := mkHintResult { used : bool; hint_finished : bool }.

(** The two nested loops that compare [playerBoard] with [solution]. *)
Definition allFilled (b : Battle) : bool :=
  forallb (λ r,
    forallb (λ c,
      bool_decide (cell (playerBoard b) r c = cell (solution b) r c))
      (seq 0 9))
    (seq 0 9).

(** [playerPlace(row, col, num)]; the result [None] is [null]. *)
Definition playerPlace (row col : nat) (num : Z) (battle : option Battle)
    : Completion (option PlaceResult) :=
  match battle with
  | None => Return None battle
  | Some b =>
      if ended b || playerFinished b then Return None battle
      else
        match original b !! row with
        | None => TypeError battle
        | Some originalRow =>
            if negb (bool_decide (originalRow !! col = Some 0))
            then Return None battle
            else
              let correct := cell (solution b) row col in
              let isCorrect := bool_decide (Some num = correct) in
              let b := set_playerBoard (set_cell (playerBoard b) row col num) b in
              if isCorrect then
                let b := set_playerCellsFilled (playerCellsFilled b + 1) b in
                if allFilled b then
                  let b := set_playerFinished true b in
                  Return (Some (mkPlaceResult true true)) (Some b)
                else Return (Some (mkPlaceResult isCorrect false)) (Some b)
              else
                let b := set_playerMistakes (playerMistakes b + 1) b in
                let b := set_timeRemaining (Z.max 0 (timeRemaining b - 5)) b in
                let b :=
                  if Z.rem (playerMistakes b) 3 =? 0
                  then set_aiHints (aiHints b + 1) b
                  else b in
                Return (Some (mkPlaceResult isCorrect false)) (Some b)
        end
  end.

(** [playerUseHint(row, col)] *)
Definition playerUseHint (row col : nat) (battle : option Battle)
    : Completion (option HintResult) :=
  match battle with
  | None => Return None battle
  | Some b =>
      if ended b || playerFinished b then Return None battle
      else if playerHints b <=? 0 then Return None battle
      else
        match original b !! row with
        | None => TypeError battle
        | Some originalRow =>
            if negb (bool_decide (originalRow !! col = Some 0))
            then Return None battle
            else if bool_decide
                      (cell (playerBoard b) row col = cell (solution b) row col)
            then Return None battle
            else
              let b := set_playerHints (playerHints b - 1) b in
              let b :=
                match cell (solution b) row col with
                | Some v => set_playerBoard (set_cell (playerBoard b) row col v) b
                | None => b
                end in
              let b := set_playerCellsFilled (playerCellsFilled b + 1) b in
              if allFilled b then
                let b := set_playerFinished true b in
                Return (Some (mkHintResult true true)) (Some b)
              else Return (Some (mkHintResult true false)) (Some b)
        end
  end.

(** [playerErase(row, col)] *)
Definition playerErase (row col : nat) (battle : option Battle)
    : Completion unit :=
  match battle with
  | None => Return () battle
  | Some b =>
      if ended b then Return () battle
      else
        match original b !! row with
        | None => TypeError battle
        | Some originalRow =>
            if negb (bool_decide (originalRow !! col = Some 0))
            then Return () battle
            else
              let b :=
                if negb (bool_decide (cell (playerBoard b) row col = Some 0))
                   && bool_decide
                        (cell (playerBoard b) row col = cell (solution b) row col)
                then set_playerCellsFilled (playerCellsFilled b - 1) b
                else b in
              let b := set_playerBoard (set_cell (playerBoard b) row col 0) b in
              Return () (Some b)
        end
  end.

(** [playerFinish(callback)] *)
Definition playerFinish (cb : Callbacks) (battle : option Battle) (e : Env)
    : option Battle * Env :=
  match battle with
  | None => (battle, e)
  | Some b =>
      if ended b then (battle, e)
      else
        let b := set_playerFinished true b in
        let '(b, e) := endBattle "player_finished" cb b e in
        (Some b, e)
  end.

(** [quitBattle(callback)] *)
Definition quitBattle (cb : Callbacks) (battle : option Battle) (e : Env)
    : option Battle * Env :=
  match battle with
  | None => (battle, e)
  | Some b =>
      if ended b then (battle, e)
      else
        let '(b, e) := endBattle "quit" cb b e in
        (Some b, e)
  end.

Definition getBattle (battle : option Battle) : option Battle := battle.

Definition isActive (battle : option Battle) : bool :=
  match battle with
  | Some b => started b && negb (ended b)
  | None => false
  end.

(** ** Vocabulary of the specification, for sessions *)

(** A move or hint attempt of the human. *)
Inductive Attempt :=
| TryPlace (row col : nat) (num : Z)
| TryHint (row col : nat).

Definition target (a : Attempt) : nat * nat :=
  match a with
  | TryPlace row col _ => (row, col)
  | TryHint row col => (row, col)
  end.

(** The attempt returns [null] and leaves [battle] as it was. *)
Definition rejected (a : Attempt) (battle : option Battle) : Prop :=
  match a with
  | TryPlace row col num => playerPlace row col num battle = Return None battle
  | TryHint row col => playerUseHint row col battle = Return None battle
  end.

(** The invalid attempts the operations guard against. *)
Inductive invalid : Attempt → option Battle → Prop :=
| invalid_no_session a : invalid a None
| invalid_ended a b : ended b = true → invalid a (Some b)
| invalid_finished a b : playerFinished b = true → invalid a (Some b)
| invalid_clue a b v :
    cell (original b) (target a).1 (target a).2 = Some v → v ≠ 0 →
    invalid a (Some b)
| invalid_no_hints row col b :
    playerHints b <= 0 → invalid (TryHint row col) (Some b)
| invalid_already_correct row col b v :
    is_Some (original b !! row) →
    cell (playerBoard b) row col = Some v →
    cell (solution b) row col = Some v →
    invalid (TryHint row col) (Some b).

(** The attempt goes through, from [b] to [b'], and reports [fin] in the
    field [finished] of its result. *)
Definition performs (a : Attempt) (b b' : Battle) (fin : bool) : Prop :=
  match a with
  | TryPlace row col num =>
      ∃ ok, playerPlace row col num (Some b)
            = Return (Some (mkPlaceResult ok fin)) (Some b')
  | TryHint row col =>
      playerUseHint row col (Some b)
      = Return (Some (mkHintResult true fin)) (Some b')
  end.

(** Every cell of the working grid equals the cell of the solution. *)
Definition all_match (b : Battle) : Prop :=
  ∀ r c, (r < 9)%nat → (c < 9)%nat →
    cell (playerBoard b) r c = cell (solution b) r c.

(** The opponent takes the hint branch of the delay computation. *)
Definition takes_hint (b : Battle) (e : Env) : bool :=
  (0 <? aiHints b) && Qltb 0.5 (random e (consumed e)).

(** What can happen to a session: the two timers fire, the human calls
    an operation. *)
Inductive Event :=
| Tick (cb : Callbacks)
| AIAction (cb : Callbacks)
| Place (row col : nat) (num : Z)
| UseHint (row col : nat)
| Erase (row col : nat)
| Finish (cb : Callbacks)
| Quit (cb : Callbacks).

Definition battle_after {A} (c : Completion A) : option Battle :=
  match c with
  | Return _ battle => battle
  | TypeError battle => battle
  end.

(** The event happens when [Date.now()] is [t].  The timers exist only
    once [beginBattle] has run, on a [battle] that is not [null]. *)
Definition fire (ev : Event) (t : Z) (battle : option Battle) (e : Env)
    : option Battle * Env :=
  let e := set_now t e in
  match ev, battle with
  | Tick cb, Some b => let '(b, e) := timerTick cb b e in (Some b, e)
  | AIAction cb, Some b => let '(b, e) := aiAction cb b e in (Some b, e)
  | Tick _, None | AIAction _, None => (battle, e)
  | Place row col num, _ => (battle_after (playerPlace row col num battle), e)
  | UseHint row col, _ => (battle_after (playerUseHint row col battle), e)
  | Erase row col, _ => (battle_after (playerErase row col battle), e)
  | Finish cb, _ => playerFinish cb battle e
  | Quit cb, _ => quitBattle cb battle e
  end.

Fixpoint run (evs : list (Event * Z)) (battle : option Battle) (e : Env)
    : option Battle * Env :=
  match evs with
  | [] => (battle, e)
  | (ev, t) :: rest => let '(battle, e) := fire ev t battle e in run rest battle e
  end.

Definition is_resolution (eff : Effect) : bool :=
  match eff with
  | UpdateELO _ _ => true
  | _ => false
  end.

(** How many times the outcome was resolved and handed over. *)
Definition resolutions (e : Env) : nat :=
  length (List.filter is_resolution (effects e)).

(** What every stage of the delay computation preserves: nothing is
    emitted and the session does not end. *)
Definition quiet (b : Battle) (e : Env) (b' : Battle) (e' : Env) : Prop :=
  effects e' = effects e ∧ ended b' = ended b.

(** How many resolutions a session still has ahead of it. *)
Definition budget (b : Battle) : nat := if ended b then 0 else 1.

(** A step of the session resolves the outcome only by ending the
    session, and does nothing at all once the session has ended. *)
Definition step_ok (b : Battle) (e : Env) (r : Battle * Env) : Prop :=
  (resolutions r.2 + budget r.1 ≤ resolutions e + budget b)%nat ∧
  (ended b = true → r = (b, e)).

(** ** A session to compute with *)

(** The puzzle [generate("easy", 12345)] returns. *)
Definition demo_puzzle : Puzzle :=
  mkPuzzle
    [[7; 2; 0; 0; 0; 0; 1; 5; 4]; [0; 0; 3; 7; 0; 5; 2; 0; 8];
     [5; 8; 0; 1; 4; 0; 0; 7; 3]; [3; 5; 0; 2; 0; 0; 0; 0; 9];
     [0; 4; 2; 6; 7; 1; 3; 0; 0]; [0; 0; 0; 5; 0; 0; 4; 2; 0];
     [0; 9; 5; 4; 1; 8; 7; 0; 0]; [1; 0; 0; 3; 5; 0; 8; 0; 0];
     [0; 0; 8; 0; 2; 7; 5; 4; 1]]
    [[7; 2; 9; 8; 6; 3; 1; 5; 4]; [4; 1; 3; 7; 9; 5; 2; 6; 8];
     [5; 8; 6; 1; 4; 2; 9; 7; 3]; [3; 5; 7; 2; 8; 4; 6; 1; 9];
     [9; 4; 2; 6; 7; 1; 3; 8; 5]; [8; 6; 1; 5; 3; 9; 4; 2; 7];
     [2; 9; 5; 4; 1; 8; 7; 3; 6]; [1; 7; 4; 3; 5; 6; 8; 9; 2];
     [6; 3; 8; 9; 2; 7; 5; 4; 1]]
    "easy" 45 (Some 12345).

(** The session [startBattle("easy")] creates when [randomSeed()] is
    12345 and the shuffle leaves the queue in place. *)
Definition demo_battle : Battle :=
  newBattle 12345 "easy" demo_puzzle (emptyCells demo_puzzle) "NotABot_" "👻".

Definition all_callbacks : Callbacks := mkCallbacks true true true true.

(** [Math.random] returns 3/4 first and 0 from then on. *)
Definition demo_env : Env :=
  mkEnv (λ n, match n with O => 0.75%Q | _ => 0%Q end) 0 0 1 [].

(** The session after [beginBattle]. *)
Definition demo_started : option Battle :=
  (beginBattle all_callbacks (Some demo_battle) demo_env).1.

(** The human places the value of the solution in each of the cells. *)
Definition place_all (cells : list QueueCell) (battle : option Battle)
    : option Battle :=
  foldl (λ battle q,
           match val q with
           | Some v => battle_after (playerPlace (row q) (col q) v battle)
           | None => battle
           end)
        battle cells.

(** The session when the human has filled the last cell. *)
Definition demo_completed : option Battle :=
  place_all (emptyCells demo_puzzle) demo_started.

(** The session when one cell is left to fill. *)
Definition demo_one_left : option Battle :=
  place_all (removelast (emptyCells demo_puzzle)) demo_started.

(** The session after the human quits right after [beginBattle]. *)
Definition demo_ended : option Battle :=
  (quitBattle all_callbacks demo_started demo_env).1.

(** The battle object of a session; [demo_battle] stands in for [null],
    which none of the sessions above is. *)
Definition the_battle (battle : option Battle) : Battle :=
  default demo_battle battle.

(** The session after three wrong values in the cell of row 0,
    column 2. *)
Definition demo_three_mistakes : option Battle :=
  battle_after (playerPlace 0 2 1
    (battle_after (playerPlace 0 2 1
      (battle_after (playerPlace 0 2 1 demo_started))))).

(** ** Creating a session *)

Definition AI_NAMES : list string :=
  ["xDarkSolver"; "Nxght_"; "iqR4pid"; "VoidMind"; "ZeroCool99";
   "TtvWraith"; "ShadowCalc"; "kr0n1x"; "BlazeLogic"; "FrostByte_";
   "N0va_X"; "CipherKing"; "Lynx420"; "Spectr_"; "AceVentura7";
   "ClutchCell"; "PhantomGrid"; "2fast4math"; "ViperSolves"; "RektU_";
   "iSolveStuff"; "xX_Br41n_Xx"; "QuickMaffs"; "NotABot_"; "EZclap69";
   "SilentCalc"; "GhostNum"; "yolo_solver"; "BigBrainTim"; "ColdLogic";
   "SweatLord22"; "PogSolver"; "JustVibing_"; "Calc_Master"; "RNG_God";
   "touch_grass"; "GridWalker"; "Numba1Fan"; "DontBlink_"; "ez_dubs"]%string.

(** The local array [pfps] of [startBattle]. *)
Definition pfps : list string :=
  ["👻"; "🦊"; "🦁"; "🐯"; "🐼"; "🐨"; "🐒"; "🐧"; "🦉"; "🦖"; "🐉"; "🐙";
   "👾"; "🤠"; "😎"]%string.

(** The loop of [shuffleArray], [i] counting down to 1.  It draws from
    [Math.random] itself, whatever the variable [rng] of the engine
    holds. *)
Fixpoint shuffleArray_from {A} (i : nat) (arr : list A) (w : World)
    : list A * World :=
  match i with
  | O => (arr, w)
  | S i' =>
      let '(x, w') := SudokuEngine.math_random w in
      let j := Z.to_nat (floor_mul x (Z.of_nat i + 1)) in
      shuffleArray_from i' (swap arr i j) w'
  end.

Definition shuffleArray {A} (arr : list A) (w : World) : list A * World :=
  shuffleArray_from (length arr - 1) arr w.

(** [arr[Math.floor(Math.random() * arr.length)]]; the index is inside
    the array whenever the draw is a number of [0, 1). *)
Definition pick (arr : list string) (w : World) : string * World :=
  let '(x, w) := SudokuEngine.math_random w in
  (default ""%string
     (arr !! Z.to_nat (floor_mul x (Z.of_nat (length arr)))), w).

(** [startBattle(difficulty)].  [bronze] tells whether
    [Player.getLeague().id === 'bronze'] was evaluated, without raising,
    to true.  The world is that of the engine, whose platform source is
    [Math.random]. *)
Definition startBattle (difficulty : string) (bronze : bool) (w : World)
    : option (Battle * World) :=
  let '(seed, w) := randomSeed w in
  match generate difficulty (Some seed) w with
  | None => None
  | Some (data, w) =>
      let '(emptyCells, w) := shuffleArray (emptyCells data) w in
      let '(bot, w) :=
        if bronze
        then let '(x, w) := SudokuEngine.math_random w in (Qltb x 0.5, w)
        else (false, w) in
      let '(aiName, aiAvatar, w) :=
        if bot then ("AI Bot"%string, "🤖"%string, w)
        else
          let '(aiName, w) := pick AI_NAMES w in
          let '(aiAvatar, w) := pick pfps w in
          (aiName, aiAvatar, w) in
      Some (newBattle seed difficulty data emptyCells aiName aiAvatar, w)
  end.

(** ** The clock display *)

(** [s.padStart(2, '0')] *)
Definition padStart2 (s : string) : string :=
  match String.length s with
  | 0%nat => "00"
  | 1%nat => "0" +:+ s
  | _ => s
  end.

(** [formatTime(seconds)] for an integer number of seconds; [pretty] is
    the decimal notation of [toString()], [Z.rem] the remainder [%], which
    takes the sign of [seconds]. *)
Definition formatTime (seconds : Z) : string :=
  let m := padStart2 (pretty (seconds / 60)) in
  let s := padStart2 (pretty (Z.rem seconds 60)) in
  m +:+ ":" +:+ s.

(** ** More vocabulary for sessions *)

(** [Math.random] returns numbers of [0, 1). *)
Definition fair_env (e : Env) : Prop := ∀ n, unit_interval (random e n).

(** The decimal digit [d] as a character. *)
Definition digit (d : Z) : string :=
  String (Ascii.ascii_of_nat (48 + Z.to_nat d)) "".

(** What is fixed when the session is created. *)
Definition fixed_part (b : Battle) :=
  (seed b, difficulty b, puzzle b, solution b, original b,
   aiName b, aiAvatar b, aiTotalCells b, aiCellsQueue b, aiSpeed b).

(** The fields that the delay computation of the opponent leaves
    alone: all but [aiHints], [aiPhase], [aiConsecutiveSolves] and
    [aiBurstRemaining]. *)
Definition delay_frame (b : Battle) :=
  (fixed_part b, playerBoard b, playerCellsFilled b, playerMistakes b,
   playerHints b, playerFinished b, aiCellsFilled b, aiFinished b,
   aiIntervalId b, aiMistakes b, aiLastMistakeAt b, timeRemaining b,
   timerIntervalId b, started b, ended b, result b, eloDelta b).

(** The clock stays between -1 and the battle time, and is not negative
    while the session runs. *)
Definition clock_ok (b : Battle) : Prop :=
  -1 <= timeRemaining b <= BATTLE_TIME ∧
  (ended b = false → 0 <= timeRemaining b).

(** Hints are earned one per three mistakes of the other side, and
    neither side holds a negative number of them. *)
Definition hints_ok (b : Battle) : Prop :=
  0 <= playerMistakes b ∧ 0 <= aiHints b <= playerMistakes b / 3 ∧
  0 <= aiMistakes b ∧ 0 <= playerHints b <= aiMistakes b / 3.

(** A session has a result exactly when it has ended, and the rating
    change goes with the result. *)
Definition outcome_ok (b : Battle) : Prop :=
  if ended b then
    match result b with
    | Some win => eloDelta b = 25 ∨ eloDelta b = 15
    | Some lose => eloDelta b = -25 ∨ eloDelta b = -15
    | Some draw => eloDelta b = 0
    | None => False
    end
  else result b = None ∧ eloDelta b = 0.

Definition session_inv (b : Battle) : Prop :=
  clock_ok b ∧ hints_ok b ∧ outcome_ok b.

(** The cells of the working grid under a clue are as they were. *)
Definition clues_kept (b b' : Battle) : Prop :=
  ∀ r c v, cell (original b) r c = Some v → v ≠ 0 →
    cell (playerBoard b') r c = cell (playerBoard b) r c.

(** What a step of a session never undoes. *)
Definition session_step (b b' : Battle) : Prop :=
  fixed_part b' = fixed_part b ∧ clues_kept b b' ∧
  playerMistakes b <= playerMistakes b' ∧ aiMistakes b <= aiMistakes b' ∧
  (started b = true → started b' = true) ∧
  (ended b = true → ended b' = true) ∧
  (playerFinished b = true → playerFinished b' = true) ∧
  (aiFinished b = true → aiFinished b' = true).

(** A burst of the opponent is of four cells at most. *)
Definition burst_ok (b : Battle) : Prop := 0 <= aiBurstRemaining b <= 4.

(** A step keeps the invariant of sessions, under which the clock does
    not go up, and undoes nothing; where the draws are numbers of [0, 1),
    it keeps the bound on bursts. *)
Definition keeps (fair : Prop) (b b' : Battle) : Prop :=
  (session_inv b →
   session_inv b' ∧ timeRemaining b' <= timeRemaining b) ∧
  session_step b b' ∧
  (fair → burst_ok b → burst_ok b').

(** What a stage of the delay computation does to the session: hints
    are only spent, and a burst, where the draws are numbers of [0, 1),
    is of four cells at most. *)
Definition delay_step (fair : Prop) (b b' : Battle) : Prop :=
  delay_frame b' = delay_frame b ∧
  (0 <= aiHints b → 0 <= aiHints b' <= aiHints b) ∧
  (fair → 0 <= aiBurstRemaining b <= 4 → 0 <= aiBurstRemaining b' <= 4).

(** ** The delay in double precision

    The session above computes the delay of [scheduleNextAICell] on exact
    fractions.  The source computes it in double precision: every
    division, product, sum and difference is rounded to a double, and a
    decimal literal stands for the double nearest to it; comparisons,
    [Math.max] and [Math.min] are exact on the doubles they are given.
    Here the rounding is a parameter [fl].  The integers of the source
    (the counters, the literals 200, 400, 800, 5000, 10000, 25000) and
    the literals 0.5 and 0.25 are doubles as they stand. *)
Module Rounded.
Section rounding.
Variable fl : Q → Q.

(** [p / total] *)
Definition fraction (p total : Z) : Q := fl (inject_Z p / inject_Z total).

(** The delay [scheduleNextAICell] computes, with the changes to
    [battle] on the way. *)
Definition aiDelay (b : Battle) (e : Env) : Q * Battle * Env :=
  let speed := aiSpeed b in
  let progress := fraction (aiCellsFilled b) (aiTotalCells b) in
  let timeSinceMistake := now e - aiLastMistakeAt b in
  let '(useHint, e) :=
    if 0 <? aiHints b
    then let '(r, e) := math_random e in (Qltb 0.5 r, e)
    else (false, e) in
  if useHint then
    let b := set_aiHints (aiHints b - 1) b in
    let '(r, e) := math_random e in
    (fl (200 + fl (r * 400)), b, e)
  else
    let b :=
      if Qltb progress (fl 0.12) then set_aiPhase warmup b
      else if Qltb (fl 0.85) progress then set_aiPhase focused b
      else if 8 <? aiConsecutiveSolves b then set_aiPhase fatigue b
      else set_aiPhase normal b in
    let '(r, e) := math_random e in
    let baseDelay :=
      fl (base speed + fl (fl (fl (r * 2) - 1) * variance speed)) in
    let '(baseDelay, b, e) :=
      match aiPhase b with
      | warmup =>
          let '(r, e) := math_random e in
          (fl (baseDelay * fl (fl 1.4 + fl (r * fl 0.6))), b, e)
      | focused =>
          let '(r, e) := math_random e in
          (fl (baseDelay * fl (0.5 + fl (r * fl 0.3))), b, e)
      | fatigue =>
          let '(r, e) := math_random e in
          (fl (baseDelay * fl (fl 1.2 + fl (r * 0.5))),
           set_aiConsecutiveSolves 0 b, e)
      | normal => (baseDelay, b, e)
      end in
    let momentumMultiplier := fl (1 - fl (progress * 0.25)) in
    let baseDelay := fl (baseDelay * momentumMultiplier) in
    let '(baseDelay, e) :=
      if timeSinceMistake <? 8000
      then let '(r, e) := math_random e in
           (fl (baseDelay * fl (fl 1.3 + fl (r * fl 0.4))), e)
      else (baseDelay, e) in
    let playerProgress := fraction (playerCellsFilled b) (aiTotalCells b) in
    let '(baseDelay, e) :=
      if Qltb (fl (progress + fl 0.15)) playerProgress then
        let '(r, e) := math_random e in
        if Qltb r (fl 0.4)
        then let '(r, e) := math_random e in
             (fl (baseDelay * fl (fl 0.6 + fl (r * fl 0.2))), e)
        else (baseDelay, e)
      else (baseDelay, e) in
    let '(baseDelay, b, e) :=
      if 0 <? aiBurstRemaining b then
        let '(r, e) := math_random e in
        (fl (baseDelay * fl (0.25 + fl (r * fl 0.15))),
         set_aiBurstRemaining (aiBurstRemaining b - 1) b, e)
      else
        match aiPhase b with
        | normal =>
            let '(r, e) := math_random e in
            if Qltb r (fl 0.12) then
              let '(r, e) := math_random e in
              (fl (baseDelay * fl 0.3),
               set_aiBurstRemaining (2 + Qfloor (fl (r * 3))) b, e)
            else (baseDelay, b, e)
        | _ => (baseDelay, b, e)
        end in
    let '(baseDelay, e) :=
      match aiPhase b with
      | normal =>
          if aiBurstRemaining b =? 0 then
            let '(r, e) := math_random e in
            if Qltb r (fl 0.08)
            then let '(r, e) := math_random e in
                 (fl (5000 + fl (r * 10000)), e)
            else (baseDelay, e)
          else (baseDelay, e)
      | _ => (baseDelay, e)
      end in
    let '(r, e) := math_random e in
    let baseDelay := fl (baseDelay + fl (fl (r - 0.5) * 800)) in
    (Qmax 400 (Qmin baseDelay 25000), b, e).

(** [scheduleNextAICell] *)
Definition scheduleNextAICell (b : Battle) (e : Env) : Battle * Env :=
  if ended b || aiFinished b then (b, e)
  else
    let '(delay, b, e) := aiDelay b e in
    scheduleAIAction delay b e.

End rounding.
End Rounded.

(** What the proofs need of the rounding: it keeps the order, and the
    integers up to 2^53 are doubles.  Rounding to the nearest double is
    such a function wherever the result is finite. *)
Definition rounding (fl : Q → Q) : Prop :=
  (∀ x y, (x <= y)%Q → (fl x <= fl y)%Q) ∧
  (∀ z : Z, -9007199254740992 <= z <= 9007199254740992 →
     (fl (inject_Z z) == inject_Z z)%Q).

(** The sessions on which the delay is a number: the total is not zero,
    so that the fractions are not [0/0]; the counters are integers that
    doubles hold exactly; and the speed is one of the table [AI_SPEED],
    so that no product overflows. *)
Definition finite_inputs (b : Battle) : Prop :=
  aiTotalCells b ≠ 0 ∧
  (∀ z, z ∈ [aiTotalCells b; aiCellsFilled b; playerCellsFilled b] →
     -9007199254740992 <= z <= 9007199254740992) ∧
  ∃ d, AI_SPEED !! d = Some (aiSpeed b).

End PvP.

(** * The single-player game ([js/game.js]) *)

(** The embedding covers the state of a game once [newGame] has built
    it, so the three grids and the notes are arrays, not [null].  The
    stacks [history] and [redoStack] are arrays with the top at the end.
    Writing the file of saved games changes nothing of the state and
    cannot raise an exception that reaches the caller; it is left out, as
    is reading it back.  The handle [setInterval] returns is a
    parameter. *)

Module Game.
Import SudokuEngine.

Definition MAX_MISTAKES : Z := 3.
Definition MAX_HINTS : Z := 3.

(** An entry of [history] and of [redoStack]; a value [None] is
    [undefined], which a read outside a row gives. *)
Record Action := mkAction {
  row : nat;
  col : nat;
  oldVal : option Z;
  newVal : option Z;
}.

(** [notes]: an array of arrays of sets of numbers. *)
Abbreviation Notes := (list (list (gset Z))).

Record State := mkState {
  puzzle : Grid;
  solution : Grid;
  original : Grid;
  difficulty : string;
  seed : option Z;
  selectedCell : option (nat * nat);
  notesMode : bool;
  notes : Notes;
  history : list Action;
  redoStack : list Action;
  mistakes : Z;
  hintsUsed : Z;
  timer : Z;
  timerInterval : option Z;
  paused : bool;
  gameOver : bool;
  won : bool;
  clues : Z;
}.

(** Assignments to the fields of [state]. *)

Definition set_puzzle (v : Grid) (s : State) : State :=
  mkState v (solution s) (original s) (difficulty s) (seed s)
    (selectedCell s) (notesMode s) (notes s) (history s) (redoStack s)
    (mistakes s) (hintsUsed s) (timer s) (timerInterval s) (paused s)
    (gameOver s) (won s) (clues s).

Definition set_selectedCell (v : option (nat * nat)) (s : State) : State :=
  mkState (puzzle s) (solution s) (original s) (difficulty s) (seed s) v
    (notesMode s) (notes s) (history s) (redoStack s) (mistakes s)
    (hintsUsed s) (timer s) (timerInterval s) (paused s) (gameOver s) (won
    s) (clues s).

Definition set_notesMode (v : bool) (s : State) : State :=
  mkState (puzzle s) (solution s) (original s) (difficulty s) (seed s)
    (selectedCell s) v (notes s) (history s) (redoStack s) (mistakes s)
    (hintsUsed s) (timer s) (timerInterval s) (paused s) (gameOver s) (won
    s) (clues s).

Definition set_notes (v : Notes) (s : State) : State :=
  mkState (puzzle s) (solution s) (original s) (difficulty s) (seed s)
    (selectedCell s) (notesMode s) v (history s) (redoStack s) (mistakes
    s) (hintsUsed s) (timer s) (timerInterval s) (paused s) (gameOver s)
    (won s) (clues s).

Definition set_history (v : list Action) (s : State) : State :=
  mkState (puzzle s) (solution s) (original s) (difficulty s) (seed s)
    (selectedCell s) (notesMode s) (notes s) v (redoStack s) (mistakes s)
    (hintsUsed s) (timer s) (timerInterval s) (paused s) (gameOver s) (won
    s) (clues s).

Definition set_redoStack (v : list Action) (s : State) : State :=
  mkState (puzzle s) (solution s) (original s) (difficulty s) (seed s)
    (selectedCell s) (notesMode s) (notes s) (history s) v (mistakes s)
    (hintsUsed s) (timer s) (timerInterval s) (paused s) (gameOver s) (won
    s) (clues s).

Definition set_mistakes (v : Z) (s : State) : State :=
  mkState (puzzle s) (solution s) (original s) (difficulty s) (seed s)
    (selectedCell s) (notesMode s) (notes s) (history s) (redoStack s) v
    (hintsUsed s) (timer s) (timerInterval s) (paused s) (gameOver s) (won
    s) (clues s).

Definition set_hintsUsed (v : Z) (s : State) : State :=
  mkState (puzzle s) (solution s) (original s) (difficulty s) (seed s)
    (selectedCell s) (notesMode s) (notes s) (history s) (redoStack s)
    (mistakes s) v (timer s) (timerInterval s) (paused s) (gameOver s)
    (won s) (clues s).

Definition set_timer (v : Z) (s : State) : State :=
  mkState (puzzle s) (solution s) (original s) (difficulty s) (seed s)
    (selectedCell s) (notesMode s) (notes s) (history s) (redoStack s)
    (mistakes s) (hintsUsed s) v (timerInterval s) (paused s) (gameOver s)
    (won s) (clues s).

Definition set_timerInterval (v : option Z) (s : State) : State :=
  mkState (puzzle s) (solution s) (original s) (difficulty s) (seed s)
    (selectedCell s) (notesMode s) (notes s) (history s) (redoStack s)
    (mistakes s) (hintsUsed s) (timer s) v (paused s) (gameOver s) (won s)
    (clues s).

Definition set_paused (v : bool) (s : State) : State :=
  mkState (puzzle s) (solution s) (original s) (difficulty s) (seed s)
    (selectedCell s) (notesMode s) (notes s) (history s) (redoStack s)
    (mistakes s) (hintsUsed s) (timer s) (timerInterval s) v (gameOver s)
    (won s) (clues s).

Definition set_gameOver (v : bool) (s : State) : State :=
  mkState (puzzle s) (solution s) (original s) (difficulty s) (seed s)
    (selectedCell s) (notesMode s) (notes s) (history s) (redoStack s)
    (mistakes s) (hintsUsed s) (timer s) (timerInterval s) (paused s) v
    (won s) (clues s).

Definition set_won (v : bool) (s : State) : State :=
  mkState (puzzle s) (solution s) (original s) (difficulty s) (seed s)
    (selectedCell s) (notesMode s) (notes s) (history s) (redoStack s)
    (mistakes s) (hintsUsed s) (timer s) (timerInterval s) (paused s)
    (gameOver s) v (clues s).

(** ** Operations that can raise a [TypeError] *)

(** How a call completes: it returns a value, or an access to a row that
    does not exist raises a [TypeError]; either way with the state as the
    call left it. *)
Inductive Outcome (A : Type) :=
| Done (a : A) (s : State)
| Throws (s : State).
Arguments Done {A} a s.
Arguments Throws {A} s.

Definition M (A : Type) : Type := State → Outcome A.

Definition ret {A} (a : A) : M A := λ s, Done a s.

Definition bind {A B} (m : M A) (f : A → M B) : M B :=
  λ s, match m s with
       | Done a s' => f a s'
       | Throws s' => Throws s'
       end.

Declare Scope game_scope.
Delimit Scope game_scope with game.
Notation "x ← y ; z" := (bind y (λ x : _, z))
  (at level 20, y at level 100, z at level 200, only parsing) : game_scope.
Notation "x ;; z" := (bind x (λ _, z))
  (at level 100, z at level 200, only parsing, right associativity)
  : game_scope.
Local Open Scope game_scope.

Definition get : M State := λ s, Done s s.
Definition modify (f : State → State) : M unit := λ s, Done () (f s).
Definition throw {A} : M A := λ s, Throws s.

Definition state_after {A} (o : Outcome A) : State :=
  match o with
  | Done _ s => s
  | Throws s => s
  end.

(** [grid[row][col]], where [grid] is one of the grids of the state. *)
Definition read (grid : State → Grid) (row col : nat) : M (option Z) :=
  s ← get;
  match grid s !! row with
  | Some r => ret (r !! col)
  | None => throw
  end.

(** The grid with [v] stored at a position.  Storing [undefined], or
    storing beyond the end of a row, does not occur when the three grids
    have the same shape, and leaves the grid alone here. *)
Definition store (g : Grid) (row col : nat) (v : option Z) : Grid :=
  match v with
  | Some v => set_cell g row col v
  | None => g
  end.

(** [state.puzzle[row][col] = v] *)
Definition write (row col : nat) (v : option Z) : M unit :=
  s ← get;
  match puzzle s !! row with
  | Some _ => modify (set_puzzle (store (puzzle s) row col v))
  | None => throw
  end.

(** [state.notes[row][col]], the set on which a method is called next. *)
Definition note (row col : nat) : M (gset Z) :=
  s ← get;
  match notes s !! row ≫= (.!! col) with
  | Some x => ret x
  | None => throw
  end.

Definition set_note (row col : nat) (x : gset Z) : M unit :=
  modify (λ s, set_notes (alter (<[col := x]>) row (notes s)) s).

(** [state.notes[row][col].clear()] *)
Definition clear_note (row col : nat) : M unit :=
  _ ← note row col; set_note row col ∅.

(** [state.notes[row][col].delete(num)]; deleting [undefined] takes
    nothing out of a set of numbers. *)
Definition delete_note (num : option Z) (pos : nat * nat) : M unit :=
  x ← note pos.1 pos.2;
  set_note pos.1 pos.2 (x ∖ from_option singleton ∅ num).

(** A loop whose body is [body], over the values of [l] in order. *)
Fixpoint for_each {A} (body : A → M unit) (l : list A) : M unit :=
  match l with
  | [] => ret ()
  | x :: l => body x;; for_each body l
  end.

(** ** The timer *)

(** [stopTimer()]; a handle 0 is falsy. *)
Definition stopTimer : M unit :=
  s ← get;
  match timerInterval s with
  | Some h => if h =? 0 then ret () else modify (set_timerInterval None)
  | None => ret ()
  end.

(** [startTimer()], [handle] being what [setInterval] returns. *)
Definition startTimer (handle : Z) : M unit :=
  stopTimer;; modify (set_timerInterval (Some handle)).

(** The callback of the timer. *)
Definition timerTick : M unit :=
  s ← get;
  if negb (paused s) && negb (gameOver s)
  then modify (set_timer (timer s + 1))
  else ret ().

Definition togglePause : M bool :=
  s ← get;
  modify (set_paused (negb (paused s)));;
  ret (negb (paused s)).

(** ** Starting a game *)

(** The object literal of [newGame]; [data.seed || seed] takes [seed]
    when [data.seed] is [null] or 0. *)
Definition newState (difficulty : string) (seed : option Z) (data : Puzzle)
    : State :=
  {| puzzle := SudokuEngine.puzzle data;
     solution := SudokuEngine.solution data;
     original := cloneGrid (SudokuEngine.puzzle data);
     difficulty := difficulty;
     seed := match SudokuEngine.seed data with
             | Some s => if s =? 0 then seed else Some s
             | None => seed
             end;
     selectedCell := None;
     notesMode := false;
     notes := replicate 9 (replicate 9 ∅);
     history := [];
     redoStack := [];
     mistakes := 0;
     hintsUsed := 0;
     timer := 0;
     timerInterval := None;
     paused := false;
     gameOver := false;
     won := false;
     clues := SudokuEngine.clues data |}.

(** [newGame(difficulty, seed)]; the timer of the game before is stopped
    first, which leaves no trace in the new state. *)
Definition newGame (difficulty : string) (seed : option Z) (handle : Z)
    (w : World) : option (State * World) :=
  match generate difficulty seed w with
  | None => None
  | Some (data, w) =>
      Some (state_after (startTimer handle (newState difficulty seed data)), w)
  end.

(** ** The moves *)

Definition selectCell (row col : nat) : M unit :=
  modify (set_selectedCell (Some (row, col))).

(** [isOriginalCell(row, col)] *)
Definition isOriginalCell (row col : nat) : M bool :=
  v ← read original row col;
  ret (negb (bool_decide (v = Some 0))).

(** What [placeNumber] returns: [null], the object of [toggleNote], or
    the object with the three flags. *)
Inductive PlaceResult :=
| Null
| Note
| Placed (isCorrect gameOver won : bool).

(** [toggleNote(row, col, num)] *)
Definition toggleNote (row col : nat) (num : Z) : M PlaceResult :=
  v ← read puzzle row col;
  if negb (bool_decide (v = Some 0)) then ret Null
  else
    x ← note row col;
    (if bool_decide (num ∈ x)
     then set_note row col (x ∖ {[num]})
     else set_note row col (x ∪ {[num]}));;
    ret Note.

(** The positions [clearRelatedNotes] visits, in its order: the row, the
    column, the box. *)
Definition related (row col : nat) : list (nat * nat) :=
  ((λ c, (row, c)) <$> seq 0 9) ++ ((λ r, (r, col)) <$> seq 0 9)
  ++ (seq (row / 3 * 3) 3 ≫= λ r, (λ c, (r, c)) <$> seq (col / 3 * 3) 3).

(** [clearRelatedNotes(row, col, num)] *)
Definition clearRelatedNotes (row col : nat) (num : option Z) : M unit :=
  for_each (delete_note num) (related row col).

(** [pushHistory(row, col, oldVal, newVal)] *)
Definition pushHistory (row col : nat) (oldVal newVal : option Z) : M unit :=
  modify (λ s, set_redoStack []
                 (set_history (history s ++ [mkAction row col oldVal newVal]) s)).

(** [checkWin()]: the two nested loops, which stop at the first cell that
    differs. *)
Fixpoint checkWin_from (ps : list (nat * nat)) : M bool :=
  match ps with
  | [] => ret true
  | (r, c) :: ps =>
      p ← read puzzle r c;
      v ← read solution r c;
      if negb (bool_decide (p = v)) then ret false else checkWin_from ps
  end.

Definition checkWin : M bool := checkWin_from positions_row_major.

(** The end of [placeNumber] and of [useHint]: the game is won. *)
Definition win : M unit :=
  modify (set_gameOver true);; modify (set_won true);; stopTimer.

(** [placeNumber(num, autoNotes)] *)
Definition placeNumber (num : Z) (autoNotes : bool) : M PlaceResult :=
  s ← get;
  match selectedCell s with
  | None => ret Null
  | Some (row, col) =>
      if gameOver s then ret Null
      else
        isOriginal ← isOriginalCell row col;
        if (isOriginal : bool) then ret Null
        else if notesMode s then toggleNote row col num
        else
          old ← read puzzle row col;
          pushHistory row col old (Some num);;
          correct ← read solution row col;
          let isCorrect := bool_decide (Some num = correct) in
          clear_note row col;;
          write row col (Some num);;
          (if negb isCorrect then
             modify (λ s, set_mistakes (mistakes s + 1) s);;
             s ← get;
             if MAX_MISTAKES <=? mistakes s
             then modify (set_gameOver true);; modify (set_won false);;
                  stopTimer
             else ret ()
           else if autoNotes then clearRelatedNotes row col (Some num)
           else ret ());;
          s ← get;
          (if negb (gameOver s)
           then won ← checkWin; if (won : bool) then win else ret ()
           else ret ());;
          s ← get;
          ret (Placed isCorrect (gameOver s) (won s))
  end.

(** [eraseCell()] *)
Definition eraseCell : M unit :=
  s ← get;
  match selectedCell s with
  | None => ret ()
  | Some (row, col) =>
      if gameOver s then ret ()
      else
        isOriginal ← isOriginalCell row col;
        if (isOriginal : bool) then ret ()
        else
          old ← read puzzle row col;
          pushHistory row col old (Some 0);;
          write row col (Some 0);;
          clear_note row col
  end.

(** What [useHint] returns when it gives a hint. *)
Record HintResult := mkHintResult {
  value : option Z;
  hintsRemaining : Z;
}.

(** [useHint()] *)
Definition useHint : M (option HintResult) :=
  s ← get;
  match selectedCell s with
  | None => ret None
  | Some (row, col) =>
      if gameOver s then ret None
      else if MAX_HINTS <=? hintsUsed s then ret None
      else
        isOriginal ← isOriginalCell row col;
        if (isOriginal : bool) then ret None
        else
          p ← read puzzle row col;
          v ← read solution row col;
          if bool_decide (p = v) then ret None
          else
            modify (λ s, set_hintsUsed (hintsUsed s + 1) s);;
            correct ← read solution row col;
            old ← read puzzle row col;
            pushHistory row col old correct;;
            write row col correct;;
            clear_note row col;;
            clearRelatedNotes row col correct;;
            won ← checkWin;
            (if (won : bool) then win else ret ());;
            s ← get;
            ret (Some (mkHintResult correct (MAX_HINTS - hintsUsed s)))
  end.

(** [undo()] *)
Definition undo : M (option Action) :=
  s ← get;
  if gameOver s then ret None
  else
    match last (history s) with
    | None => ret None
    | Some action =>
        modify (set_history (removelast (history s)));;
        modify (λ s, set_redoStack (redoStack s ++ [action]) s);;
        write (row action) (col action) (oldVal action);;
        ret (Some action)
    end.

(** [redo()] *)
Definition redo : M (option Action) :=
  s ← get;
  if gameOver s then ret None
  else
    match last (redoStack s) with
    | None => ret None
    | Some action =>
        modify (set_redoStack (removelast (redoStack s)));;
        modify (λ s, set_history (history s ++ [action]) s);;
        write (row action) (col action) (newVal action);;
        ret (Some action)
    end.

(** [toggleNotesMode()] *)
Definition toggleNotesMode : M bool :=
  s ← get;
  modify (set_notesMode (negb (notesMode s)));;
  ret (negb (notesMode s)).

Definition getMistakes (s : State) : Z := mistakes s.
Definition getMaxMistakes : Z := MAX_MISTAKES.
Definition getHintsUsed (s : State) : Z := hintsUsed s.
Definition getMaxHints : Z := MAX_HINTS.
Definition isGameOver (s : State) : bool := gameOver s.
Definition hasWon (s : State) : bool := won s.

(** ** Vocabulary for games *)

(** The notes are a 9×9 matrix. *)
Definition wf_notes (n : Notes) : Prop :=
  length n = 9%nat ∧ Forall (λ r, length r = 9%nat) n.

Definition wf_state (s : State) : Prop :=
  wf (puzzle s) ∧ wf (solution s) ∧ wf (original s) ∧ wf_notes (notes s).

Definition note_at (n : Notes) (r c : nat) : option (gset Z) :=
  n !! r ≫= (.!! c).

(** Every cell of the board equals the cell of the solution. *)
Definition all_match (s : State) : Prop :=
  ∀ r c, (r < 9)%nat → (c < 9)%nat →
    cell (puzzle s) r c = cell (solution s) r c.

(** The board a logged change leads to. *)
Definition apply_action (g : Grid) (a : Action) : Grid :=
  store g (row a) (col a) (newVal a).

(** The board after the changes of a log, oldest first. *)
Definition replay (g : Grid) (log : list Action) : Grid :=
  foldl apply_action g log.

(** The entries of a log, oldest first, lead from [g0] to [g], each
    recording as old value what its cell held before. *)
Fixpoint log_from (g0 : Grid) (log : list Action) (g : Grid) : Prop :=
  match log with
  | [] => g = g0
  | a :: log =>
      cell g0 (row a) (col a) = oldVal a ∧ log_from (apply_action g0 a) log g
  end.

(** A logged change is of a cell that is no clue, between two numbers. *)
Definition free_cell (original : Grid) (a : Action) : Prop :=
  (row a < 9)%nat ∧ (col a < 9)%nat ∧
  cell original (row a) (col a) = Some 0 ∧
  is_Some (oldVal a) ∧ is_Some (newVal a).

(** The undo stack leads from the original grid to the board, the redo
    stack, read from its top, leads on from the board; neither touches a
    clue. *)
Definition log_ok (s : State) : Prop :=
  log_from (original s) (history s) (puzzle s) ∧
  (∃ g, log_from (puzzle s) (rev (redoStack s)) g) ∧
  Forall (free_cell (original s)) (history s ++ redoStack s).

(** Counters and verdict: at most three mistakes and three hints; a game
    that is over is won with the board solved and fewer than three
    mistakes, or lost at the third mistake. *)
Definition verdict_ok (s : State) : Prop :=
  0 <= mistakes s <= MAX_MISTAKES ∧ 0 <= hintsUsed s <= MAX_HINTS ∧
  if gameOver s
  then if won s then all_match s ∧ mistakes s < MAX_MISTAKES
       else mistakes s = MAX_MISTAKES
  else mistakes s < MAX_MISTAKES ∧ won s = false.

Definition game_inv (s : State) : Prop :=
  wf_state s ∧ log_ok s ∧ verdict_ok s.

(** What the player and the timer can do. *)
Inductive Op :=
| Select (row col : nat)
| Place (num : Z) (autoNotes : bool)
| Erase
| Hint
| Undo
| Redo
| ToggleNotes
| TogglePause
| Tick.

Definition step (op : Op) (s : State) : State :=
  match op with
  | Select row col => state_after (selectCell row col s)
  | Place num autoNotes => state_after (placeNumber num autoNotes s)
  | Erase => state_after (eraseCell s)
  | Hint => state_after (useHint s)
  | Undo => state_after (undo s)
  | Redo => state_after (redo s)
  | ToggleNotes => state_after (toggleNotesMode s)
  | TogglePause => state_after (togglePause s)
  | Tick => state_after (timerTick s)
  end.

Definition run (ops : list Op) (s : State) : State :=
  foldl (λ s op, step op s) s ops.

(** What no move changes but [selectCell], the two toggles and the
    timer. *)
Definition setting (s : State) :=
  (solution s, original s, difficulty s, seed s, clues s,
   selectedCell s, notesMode s, paused s, timer s).

(** What a finished game keeps. *)
Definition settled (s : State) :=
  (puzzle s, solution s, original s, notes s, history s, redoStack s,
   mistakes s, hintsUsed s, timer s, gameOver s, won s).

(** ** A game to compute with *)

(** The game [newGame("easy", 12345)] starts, the timer having the
    handle 1. *)
Definition demo_game : State :=
  state_after (startTimer 1 (newState "easy" (Some 12345) PvP.demo_puzzle)).

(** The game after the cell of row 0, column 2 was selected and a wrong
    value placed in it. *)
Definition demo_game_mistake : State :=
  run [Select 0 2; Place 1 true] demo_game.

(** The game after three mistakes. *)
Definition demo_game_lost : State :=
  run [Select 0 2; Place 1 true; Place 1 true; Place 1 true] demo_game.

End Game.

(** * Properties *)

(** ** The seeded source draws from [0, 1) *)

Lemma mulberry32_next_unit s : unit_interval (mulberry32_next s).1.
Proof.
  unfold mulberry32_next, unit_interval; cbn [fst].
  set (u := toUint32 _).
  assert (0 <= u < 4294967296) as Hu by (apply Z.mod_pos_bound; lia).
  unfold Qle, Qlt; cbn; lia.
Qed.

Lemma rng_call_seeded w x w' :
  seeded w → rng_call w = (x, w') →
  unit_interval x ∧ seeded w' ∧ platform w' = platform w ∧ drawn w' = drawn w.
Proof.
  intros [s Hs]. unfold rng_call. rewrite Hs.
  pose proof (mulberry32_next_unit s) as Hu.
  destruct (mulberry32_next s) as [y s'] eqn:E. intros [= <- <-].
  repeat split; try apply Hu. by exists s'.
Qed.

Lemma floor_mul_range x k :
  unit_interval x → 0 < k → 0 <= floor_mul x k < k.
Proof.
  intros [H0 H1] Hk. unfold floor_mul.
  assert (0 < inject_Z k)%Q as HkQ by (unfold Qlt; cbn; lia).
  split.
  - change 0 with (Qfloor 0). apply Qfloor_resp_le.
    apply Qmult_le_0_compat; [done | by apply Qlt_le_weak].
  - rewrite Zlt_Qlt.
    eapply Qle_lt_trans; [apply Qfloor_le |].
    rewrite <- (Qmult_1_l (inject_Z k)) at 2.
    by apply Qmult_lt_compat_r.
Qed.

(** ** [shuffle] returns a permutation *)

Lemma insert_Permutation {A} (l : list A) i a b :
  l !! i = Some a → <[i := b]> l ≡ₚ b :: delete i l.
Proof.
  revert i. induction l as [|x l IH]; intros [|i] Hi; try done.
  cbn in *. rewrite (IH i Hi). apply Permutation_swap.
Qed.

Lemma swap_Permutation {A} (arr : list A) i j : swap arr i j ≡ₚ arr.
Proof.
  unfold swap.
  destruct (arr !! i) as [a|] eqn:Hi; [|done].
  destruct (arr !! j) as [b|] eqn:Hj; [|done].
  destruct (decide (i = j)) as [->|Hne].
  - rewrite list_insert_insert_eq, list_insert_id; [done | congruence].
  - assert ((<[i := b]> arr) !! j = Some b) as Hj'
      by by rewrite list_lookup_insert_ne.
    rewrite (insert_Permutation _ j b a Hj').
    rewrite (delete_Permutation arr i a Hi) at 2.
    f_equiv. apply (inj (b ::.)).
    rewrite <- (delete_Permutation _ j b Hj').
    by rewrite (insert_Permutation arr i a b Hi).
Qed.

Lemma shuffle_from_spec {A} i (arr : list A) w arr' w' :
  seeded w → shuffle_from i arr w = (arr', w') →
  arr' ≡ₚ arr ∧ seeded w' ∧ platform w' = platform w ∧ drawn w' = drawn w.
Proof.
  revert arr w. induction i as [|i IH]; intros arr w Hw; cbn.
  - by intros [= <- <-].
  - destruct (rng_call w) as [x w1] eqn:E.
    destruct (rng_call_seeded _ _ _ Hw E) as (_ & Hw1 & Hp & Hd).
    intros H. destruct (IH _ _ Hw1 H) as (Hperm & ? & ? & ?).
    rewrite swap_Permutation in Hperm. repeat split; congruence || done.
Qed.

Lemma shuffle_spec {A} (arr : list A) w arr' w' :
  seeded w → shuffle arr w = (arr', w') →
  arr' ≡ₚ arr ∧ seeded w' ∧ platform w' = platform w ∧ drawn w' = drawn w.
Proof. apply shuffle_from_spec. Qed.

(** ** Reading and writing cells *)

Lemma wf_row g r : wf g → (r < 9)%nat → ∃ row, g !! r = Some row ∧ length row = 9%nat.
Proof.
  intros [Hl Hrows] Hr.
  destruct (lookup_lt_is_Some_2 g r) as [row Hrow]; [lia|].
  exists row. split; [done|]. by eapply Forall_lookup_1 in Hrows.
Qed.

Lemma wf_cell g r c : wf g → (r < 9)%nat → (c < 9)%nat → ∃ v, cell g r c = Some v.
Proof.
  intros Hg Hr Hc. destruct (wf_row g r Hg Hr) as (row & Hrow & Hlen).
  destruct (lookup_lt_is_Some_2 row c) as [v Hv]; [lia|].
  exists v. unfold cell. by rewrite Hrow.
Qed.

Lemma cell_lt g r c v : wf g → cell g r c = Some v → (r < 9)%nat ∧ (c < 9)%nat.
Proof.
  intros [Hl Hrows]. unfold cell.
  destruct (g !! r) as [row|] eqn:Hrow; [|done]. cbn. intros Hv.
  apply lookup_lt_Some in Hv.
  pose proof (lookup_lt_Some _ _ _ Hrow).
  eapply Forall_lookup_1 in Hrows; [|done]. cbn in Hrows. lia.
Qed.

Lemma wf_set_cell g r c v : wf g → wf (set_cell g r c v).
Proof.
  intros [Hl Hrows]. split.
  - unfold set_cell. by rewrite length_alter.
  - apply Forall_lookup_2. intros i row. unfold set_cell.
    rewrite list_lookup_alter. case_decide as Hi.
    + subst i. destruct (g !! r) as [row0|] eqn:E; cbn; [|done]. intros [= <-].
      rewrite length_insert. by eapply Forall_lookup_1 in Hrows.
    + intros E. by eapply Forall_lookup_1 in Hrows.
Qed.

Lemma cell_set_cell_eq g r c v :
  wf g → (r < 9)%nat → (c < 9)%nat → cell (set_cell g r c v) r c = Some v.
Proof.
  intros Hg Hr Hc. destruct (wf_row g r Hg Hr) as (row & Hrow & Hlen).
  unfold cell, set_cell. rewrite list_lookup_alter_eq, Hrow. cbn.
  apply list_lookup_insert_eq. lia.
Qed.

Lemma cell_set_cell_ne g r c v r' c' :
  (r, c) ≠ (r', c') → cell (set_cell g r c v) r' c' = cell g r' c'.
Proof.
  intros Hne. unfold cell, set_cell.
  destruct (decide (r = r')) as [<-|Hr].
  - rewrite list_lookup_alter_eq. destruct (g !! r) as [row|]; [|done]. cbn.
    apply list_lookup_insert_ne. congruence.
  - by rewrite list_lookup_alter_ne.
Qed.

Lemma set_cell_id g r c v : cell g r c = Some v → set_cell g r c v = g.
Proof.
  unfold cell, set_cell. intros H. apply list_eq. intros i.
  rewrite list_lookup_alter. case_decide as Hi; [subst i|done].
  destruct (g !! r) as [row|]; [|done]. cbn in *. by rewrite list_insert_id.
Qed.

Lemma set_cell_set_cell g r c v v' :
  set_cell (set_cell g r c v) r c v' = set_cell g r c v'.
Proof.
  unfold set_cell. apply list_eq. intros i.
  destruct (decide (r = i)) as [<-|Hi].
  - rewrite !list_lookup_alter_eq. destruct (g !! r) as [row|]; [|done]. cbn.
    by rewrite list_insert_insert_eq.
  - by rewrite !list_lookup_alter_ne.
Qed.

(** Writing a value and then the old value back restores the grid. *)
Lemma set_cell_restore g r c v v' :
  cell g r c = Some v → set_cell (set_cell g r c v') r c v = g.
Proof. intros H. rewrite set_cell_set_cell. by apply set_cell_id. Qed.

Lemma grid_ext g1 g2 :
  wf g1 → wf g2 →
  (∀ r c, (r < 9)%nat → (c < 9)%nat → cell g1 r c = cell g2 r c) → g1 = g2.
Proof.
  intros Hg1 Hg2 Hcells. apply list_eq. intros r.
  destruct (decide (r < 9)%nat) as [Hr|Hr].
  - destruct (wf_row g1 r Hg1 Hr) as (row1 & Hrow1 & Hlen1).
    destruct (wf_row g2 r Hg2 Hr) as (row2 & Hrow2 & Hlen2).
    rewrite Hrow1, Hrow2. f_equal. apply list_eq. intros c.
    destruct (decide (c < 9)%nat) as [Hc|Hc].
    + specialize (Hcells r c Hr Hc). unfold cell in Hcells.
      by rewrite Hrow1, Hrow2 in Hcells.
    + rewrite !lookup_ge_None_2; [done|lia..].
  - destruct Hg1 as [Hl1 _], Hg2 as [Hl2 _].
    rewrite !lookup_ge_None_2; [done|lia..].
Qed.

Lemma cloneGrid_id g : cloneGrid g = g.
Proof. unfold cloneGrid. apply list_fmap_id. Qed.

Lemma wf_createEmptyGrid : wf createEmptyGrid.
Proof. split; [done|]. unfold createEmptyGrid. repeat constructor. Qed.

Lemma cell_createEmptyGrid r c v : cell createEmptyGrid r c = Some v → v = 0.
Proof.
  unfold cell, createEmptyGrid. intros H.
  destruct (replicate 9 (replicate 9 0) !! r) as [row|] eqn:Hrow; [|done].
  apply lookup_replicate in Hrow as [-> _].
  change (replicate 9 0 !! c = Some v) in H.
  by apply lookup_replicate in H as [-> _].
Qed.

(** ** Scanning the grid *)

Lemma elem_of_positions r c :
  (r, c) ∈ positions_row_major ↔ (r < 9)%nat ∧ (c < 9)%nat.
Proof.
  unfold positions_row_major. rewrite list_elem_of_fmap. split.
  - intros (i & Heq & Hi). apply elem_of_seq in Hi.
    assert (r = (i / 9)%nat ∧ c = (i mod 9)%nat) as [-> ->]
      by (split; congruence).
    split; [apply Nat.Div0.div_lt_upper_bound; lia | apply Nat.mod_upper_bound; lia].
  - intros [Hr Hc]. exists (r * 9 + c)%nat. split.
    + f_equal.
      * rewrite Nat.div_add_l, Nat.div_small; lia.
      * rewrite Nat.add_comm, Nat.Div0.mod_add. by rewrite Nat.mod_small.
    + apply elem_of_seq. lia.
Qed.

Lemma first_empty_Some g r c :
  first_empty g = Some (r, c) →
  (r < 9)%nat ∧ (c < 9)%nat ∧ cell g r c = Some 0.
Proof.
  unfold first_empty. intros H. apply find_some in H as [Hin Hc].
  apply list_elem_of_In, elem_of_positions in Hin as [? ?].
  unfold cell_is in Hc. apply bool_decide_eq_true in Hc. done.
Qed.

Lemma first_empty_None g : first_empty g = None → full g.
Proof.
  unfold first_empty. intros H r c Hr Hc Hz.
  pose proof (find_none _ _ H (r, c)) as Hn. cbn [fst snd] in Hn.
  unfold cell_is in Hn. rewrite bool_decide_eq_false in Hn. apply Hn; [|done].
  apply list_elem_of_In, elem_of_positions. done.
Qed.

Lemma full_first_empty g : full g → first_empty g = None.
Proof.
  intros Hfull. destruct (first_empty g) as [[r c]|] eqn:E; [|done].
  apply first_empty_Some in E as (Hr & Hc & Hz). by destruct (Hfull r c).
Qed.

Lemma length_filter_strict {A} (P Q : A → Prop)
    `{!∀ x, Decision (P x)} `{!∀ x, Decision (Q x)} (l : list A) x :
  (∀ y, y ∈ l → Q y → P y) → x ∈ l → P x → ¬ Q x →
  (length (filter Q l) < length (filter P l))%nat.
Proof.
  intros Hsub Hx HP HQ.
  induction l as [|y l IH]; [by apply elem_of_nil in Hx|].
  assert (length (filter Q l) ≤ length (filter P l))%nat as Hle.
  { clear -Hsub. induction l as [|z l IH]; [done|].
    rewrite !filter_cons.
    assert (∀ y0, y0 ∈ y :: l → Q y0 → P y0) as Hsub'.
    { intros y0 Hy0. apply Hsub. apply elem_of_cons in Hy0 as [->|?];
        [left | right; by right]. }
    specialize (IH Hsub').
    destruct (decide (Q z)) as [Hq|Hq].
    - rewrite decide_True; [cbn; lia|]. apply Hsub; [|done]. right; left.
    - destruct (decide (P z)); cbn; lia. }
  rewrite !filter_cons. apply elem_of_cons in Hx as [<-|Hx].
  - rewrite (decide_True _ _ HP), (decide_False _ _ HQ). cbn. lia.
  - assert (length (filter Q l) < length (filter P l))%nat as Hlt.
    { apply IH; [|done]. intros y0 Hy0. apply Hsub. by right. }
    destruct (decide (Q y)) as [Hq|Hq].
    + rewrite decide_True; [cbn; lia|]. apply Hsub; [left|done].
    + destruct (decide (P y)); cbn; lia.
Qed.

(** Filling an empty cell leaves one empty cell fewer. *)
Lemma count_empty_set_cell g r c v :
  wf g → cell g r c = Some 0 → v ≠ 0 →
  (count_empty (set_cell g r c v) < count_empty g)%nat.
Proof.
  intros Hg Hz Hv. unfold count_empty.
  destruct (cell_lt _ _ _ _ Hg Hz) as [Hr Hc].
  apply (length_filter_strict _ _ _ (r, c)).
  - intros [r' c'] _. cbn. unfold cell_is. rewrite !bool_decide_eq_true.
    destruct (decide ((r, c) = (r', c'))) as [[= <- <-]|Hne].
    + rewrite cell_set_cell_eq by done. congruence.
    + by rewrite cell_set_cell_ne.
  - by apply elem_of_positions.
  - cbn. unfold cell_is. by rewrite bool_decide_eq_true.
  - cbn. unfold cell_is. rewrite bool_decide_eq_true, cell_set_cell_eq by done.
    congruence.
Qed.

Lemma peer_sym r c r' c' : peer r c r' c' → peer r' c' r c.
Proof. unfold peer. intros [?|[?|[? ?]]]; auto. Qed.

Lemma box_range r r' : (r / 3 * 3 ≤ r' < r / 3 * 3 + 3)%nat ↔ (r / 3 = r' / 3)%nat.
Proof.
  pose proof (Nat.div_mod_eq r 3). pose proof (Nat.div_mod_eq r' 3).
  pose proof (Nat.mod_upper_bound r 3). pose proof (Nat.mod_upper_bound r' 3).
  lia.
Qed.

(** [isValid] scans the row, the column and the box of the position, the
    position itself included. *)
Lemma isValid_true g r c v :
  (r < 9)%nat → (c < 9)%nat →
  isValid g r c v = true ↔
  ∀ r' c', (r' < 9)%nat → (c' < 9)%nat → peer r c r' c' → cell g r' c' ≠ Some v.
Proof.
  intros Hr Hc. unfold isValid.
  rewrite !andb_true_iff, !forallb_forall.
  assert (∀ a b, negb (cell_is g a b v) = true ↔ cell g a b ≠ Some v) as Hneg.
  { intros a b. unfold cell_is. by rewrite negb_true_iff, bool_decide_eq_false. }
  split.
  - intros [[Hrow Hcol] Hbox] r' c' Hr' Hc' [<-|[<-|[Hbr Hbc]]].
    + apply Hneg, Hrow, in_seq. lia.
    + apply Hneg, Hcol, in_seq. lia.
    + assert (In r' (seq (r / 3 * 3) 3)) as Hin by (apply in_seq, box_range; lia).
      specialize (Hbox r' Hin). rewrite forallb_forall in Hbox.
      apply Hneg, Hbox, in_seq, box_range. lia.
  - intros H. split; [split|].
    + intros c' Hin. apply in_seq in Hin. apply Hneg, H; [done|lia|by left].
    + intros r' Hin. apply in_seq in Hin. apply Hneg, H; [lia|done|right; by left].
    + intros r' Hin. apply in_seq in Hin. apply forallb_forall. intros c' Hin'.
      apply in_seq in Hin'.
      assert (r / 3 = r' / 3)%nat by (apply box_range; lia).
      assert (c / 3 = c' / 3)%nat by (apply box_range; lia).
      apply Hneg, H.
      * pose proof (Nat.div_mod_eq r' 3). pose proof (Nat.div_mod_eq r 3).
        pose proof (Nat.mod_upper_bound r' 3). lia.
      * pose proof (Nat.div_mod_eq c' 3). pose proof (Nat.div_mod_eq c 3).
        pose proof (Nat.mod_upper_bound c' 3). lia.
      * right; right. done.
Qed.

(** ** Solved grids and completions *)

Lemma solvedb_solved g : solvedb g = true → solved g.
Proof.
  unfold solvedb. rewrite !andb_true_iff, !forallb_forall.
  intros [[Hlen Hrows] Hcells]. apply bool_decide_eq_true in Hlen.
  assert (wf g) as Hwf.
  { split; [done|]. apply Forall_forall. intros row Hrow.
    apply list_elem_of_In, Hrows in Hrow. by apply bool_decide_eq_true in Hrow. }
  assert (∀ r c, (r < 9)%nat → (c < 9)%nat →
            ∃ v, cell g r c = Some v ∧ 1 <= v <= 9 ∧
                 isValid (set_cell g r c 0) r c v = true) as Hcell.
  { intros r c Hr Hc.
    assert (In (r, c) positions_row_major) as Hin
      by by apply list_elem_of_In, elem_of_positions.
    apply Hcells in Hin. cbn [fst snd] in Hin.
    destruct (cell g r c) as [v|]; [|done].
    rewrite !andb_true_iff in Hin. exists v. split_and!; try tauto; lia. }
  split; [done|]. split; [|split].
  - intros r c v Hv. destruct (cell_lt _ _ _ _ Hwf Hv) as [Hr Hc].
    destruct (Hcell r c Hr Hc) as (v' & Hv' & ? & _). simplify_eq. lia.
  - intros r c Hr Hc Hz. destruct (Hcell r c Hr Hc) as (v' & Hv' & ? & _).
    simplify_eq. lia.
  - intros r c r' c' v Hr Hc Hr' Hc' Hne Hpeer Hv0 Hv.
    destruct (Hcell r c Hr Hc) as (v' & Hv' & _ & Hval). simplify_eq.
    rewrite isValid_true in Hval by done.
    specialize (Hval r' c' Hr' Hc' Hpeer). by rewrite cell_set_cell_ne in Hval.
Qed.

Lemma shifted_grid_solved : solved shifted_grid.
Proof. apply solvedb_solved. vm_compute. reflexivity. Qed.

Lemma extends_refl g : extends g g.
Proof. by intros r c v. Qed.

(** A solved grid gives a value between 1 and 9 at every position. *)
Lemma solved_cell s r c :
  solved s → (r < 9)%nat → (c < 9)%nat → ∃ v, cell s r c = Some v ∧ 1 <= v <= 9.
Proof.
  intros (Hwf & Hrange & Hfull & _) Hr Hc.
  destruct (wf_cell s r c Hwf Hr Hc) as [v Hv]. exists v. split; [done|].
  pose proof (Hrange _ _ _ Hv). assert (v ≠ 0); [|lia].
  intros ->. by destruct (Hfull r c).
Qed.

(** The value a completion gives to an empty cell passes [isValid]. *)
Lemma completion_isValid g s r c v :
  completion g s → cell g r c = Some 0 → cell s r c = Some v →
  (r < 9)%nat → (c < 9)%nat →
  isValid g r c v = true.
Proof.
  intros [Hs Hext] Hz Hv Hr Hc. apply isValid_true; [done..|].
  intros r' c' Hr' Hc' Hpeer Hg.
  destruct (solved_cell s r c Hs Hr Hc) as (v' & Hv' & Hrange).
  rewrite Hv in Hv'. injection Hv' as <-.
  destruct (decide ((r, c) = (r', c'))) as [[= <- <-]|Hne].
  - rewrite Hz in Hg. injection Hg as <-. lia.
  - destruct Hs as (_ & _ & _ & Hvalid).
    apply (Hvalid r c r' c' v); try done; [lia|].
    apply Hext; [done..|lia].
Qed.

Lemma completion_set_cell g s r c v :
  wf g → completion g s → cell s r c = Some v →
  (r < 9)%nat → (c < 9)%nat →
  completion (set_cell g r c v) s.
Proof.
  intros Hwf [Hs Hext] Hv Hr Hc. split; [done|].
  intros r' c' v' Hr' Hc'.
  destruct (decide ((r, c) = (r', c'))) as [[= <- <-]|Hne].
  - rewrite cell_set_cell_eq by done. congruence.
  - rewrite cell_set_cell_ne by done. by apply Hext.
Qed.

Lemma extends_set_cell g g' r c v :
  cell g r c = Some 0 → extends (set_cell g r c v) g' → extends g g'.
Proof.
  intros Hz Hext r' c' v' Hr' Hc' Hv' Hne.
  apply Hext; [done..| |done]. rewrite cell_set_cell_ne; [done|].
  intros [= <- <-]. congruence.
Qed.

(** ** [fillGrid] *)

Lemma fill_inv_set_cell g r c num :
  fill_inv g → cell g r c = Some 0 → isValid g r c num = true →
  1 <= num <= 9 → fill_inv (set_cell g r c num).
Proof.
  intros (Hwf & Hrange & Hvalid) Hz Hval Hnum.
  destruct (cell_lt _ _ _ _ Hwf Hz) as [Hr Hc].
  rewrite isValid_true in Hval by done.
  split; [by apply wf_set_cell|]. split.
  - intros r' c' v.
    destruct (decide ((r, c) = (r', c'))) as [[= <- <-]|Hne].
    + rewrite cell_set_cell_eq by done. intros [= <-]. lia.
    + rewrite cell_set_cell_ne by done. apply Hrange.
  - intros r1 c1 r2 c2 v Hr1 Hc1 Hr2 Hc2 Hne Hpeer Hv0.
    destruct (decide ((r, c) = (r1, c1))) as [[= <- <-]|Hne1].
    + rewrite cell_set_cell_eq, cell_set_cell_ne by done.
      intros [= <-]. by apply Hval.
    + rewrite (cell_set_cell_ne _ _ _ _ r1 c1) by done. intros Hv.
      destruct (decide ((r, c) = (r2, c2))) as [[= <- <-]|Hne2].
      * rewrite cell_set_cell_eq by done. intros [= ->].
        by apply (Hval r1 c1 Hr1 Hc1 (peer_sym _ _ _ _ Hpeer)).
      * rewrite cell_set_cell_ne by done. by apply (Hvalid r1 c1 r2 c2 v).
Qed.

Lemma fill_inv_createEmptyGrid : fill_inv createEmptyGrid.
Proof.
  split; [apply wf_createEmptyGrid|]. split.
  - intros r c v Hv. apply cell_createEmptyGrid in Hv. lia.
  - intros r c r' c' v _ _ _ _ _ _ Hv0 Hv. by apply cell_createEmptyGrid in Hv.
Qed.

Lemma fill_nums_spec rec (fuel : nat) row col nums g w :
  (∀ g w, fill_inv g → (count_empty g < fuel)%nat → seeded w →
          fill_post g w (rec g w)) →
  fill_inv g → cell g row col = Some 0 → (count_empty g ≤ fuel)%nat →
  Forall (λ num, 1 <= num <= 9) nums → seeded w →
  ∃ b g' w', fill_nums rec row col nums g w = Some (b, g', w') ∧
    seeded w' ∧ platform w' = platform w ∧ drawn w' = drawn w ∧
    (b = false → g' = g ∧
       ∀ s v, completion g s → cell s row col = Some v → v ∉ nums) ∧
    (b = true → solved g' ∧ extends g g').
Proof.
  intros Hrec Hinv Hz Hfuel. revert w.
  destruct (cell_lt _ _ _ _ (proj1 Hinv) Hz) as [Hr Hc].
  induction nums as [|num rest IH]; intros w Hnums Hw; cbn.
  - exists false, g, w. split_and!; try done.
    intros _. split; [done|]. intros; apply not_elem_of_nil.
  - apply Forall_cons in Hnums as [Hnum Hrest].
    destruct (isValid g row col num) eqn:Hval.
    + destruct (Hrec (set_cell g row col num) w) as
        (b1 & g1 & w1 & -> & Hw1 & Hp1 & Hd1 & Hfalse & Htrue);
        [by apply fill_inv_set_cell| |done|].
      { pose proof (count_empty_set_cell g row col num (proj1 Hinv) Hz). lia. }
      destruct b1.
      * destruct Htrue as [Hsol Hext]; [done|].
        exists true, g1, w1. split_and!; try done.
        intros _. split; [done|]. by eapply extends_set_cell.
      * destruct Hfalse as [-> Hnone]; [done|].
        rewrite (set_cell_restore g row col 0 num Hz).
        destruct (IH w1 Hrest Hw1) as (b & g' & w' & -> & ? & ? & ? & Hf & Ht).
        exists b, g', w'. split_and!; try congruence; try done.
        intros Hb. destruct (Hf Hb) as [-> Hf']. split; [done|].
        intros s v Hs Hv Hin. apply elem_of_cons in Hin as [->|Hin].
        -- apply (Hnone s). by apply completion_set_cell; [apply Hinv|..].
        -- by eapply Hf'.
    + destruct (IH w Hrest Hw) as (b & g' & w' & -> & ? & ? & ? & Hf & Ht).
      exists b, g', w'. split_and!; try done.
      intros Hb. destruct (Hf Hb) as [-> Hf']. split; [done|].
      intros s v Hs Hv Hin. apply elem_of_cons in Hin as [->|Hin].
      * rewrite (completion_isValid g s row col num) in Hval; done.
      * by eapply Hf'.
Qed.

Lemma digit_elem v : 1 <= v <= 9 → v ∈ [1; 2; 3; 4; 5; 6; 7; 8; 9].
Proof. intros H. set_unfold. lia. Qed.

Lemma digits_range : Forall (λ num, 1 <= num <= 9) [1; 2; 3; 4; 5; 6; 7; 8; 9].
Proof. repeat constructor; lia. Qed.

Lemma fillGrid_spec fuel g w :
  fill_inv g → (count_empty g < fuel)%nat → seeded w →
  fill_post g w (fillGrid fuel g w).
Proof.
  revert g w. induction fuel as [|fuel IH]; intros g w Hinv Hfuel Hw; [lia|].
  unfold fill_post. cbn [fillGrid]. destruct (first_empty g) as [[row col]|] eqn:Hfirst.
  - apply first_empty_Some in Hfirst as (Hr & Hc & Hz).
    destruct (shuffle [1; 2; 3; 4; 5; 6; 7; 8; 9] w) as [nums w1] eqn:Hsh.
    apply shuffle_spec in Hsh as (Hperm & Hw1 & Hp1 & Hd1); [|done].
    destruct (fill_nums_spec (fillGrid fuel) fuel row col nums g w1)
      as (b & g' & w' & -> & ? & ? & ? & Hf & Ht); try done; [lia| |].
    { rewrite Hperm. apply digits_range. }
    exists b, g', w'. split_and!; try congruence; try done.
    intros Hb. destruct (Hf Hb) as [-> Hf']. split; [done|].
    intros s Hs.
    destruct (solved_cell s row col (proj1 Hs) Hr Hc) as (v & Hv & Hrange).
    apply (Hf' s v Hs Hv). rewrite Hperm. by apply digit_elem.
  - exists true, g, w. split_and!; try done.
    intros _. split; [|apply extends_refl].
    destruct Hinv as (? & ? & ?). split_and!; try done.
    by apply first_empty_None.
Qed.

(** Filling the empty grid succeeds, with every seeded source. *)
Lemma fillGrid_empty w :
  seeded w →
  ∃ sol w', fillGrid (fuel_for createEmptyGrid) createEmptyGrid w
            = Some (true, sol, w') ∧
    solved sol ∧ seeded w' ∧ platform w' = platform w ∧ drawn w' = drawn w.
Proof.
  intros Hw.
  destruct (fillGrid_spec (fuel_for createEmptyGrid) createEmptyGrid w)
    as (b & g' & w' & -> & ? & ? & ? & Hf & Ht);
    [apply fill_inv_createEmptyGrid | unfold fuel_for; lia | done |].
  destruct b.
  - exists g', w'. split_and!; try done. by apply Ht.
  - destruct Hf as [_ Hnone]; [done|]. destruct (Hnone shifted_grid).
    split; [apply shifted_grid_solved|].
    intros r c v _ _ Hv Hv0. by apply cell_createEmptyGrid in Hv.
Qed.

(** ** [countSolutions] *)

Lemma completion_full g s : wf g → full g → completion g s → s = g.
Proof.
  intros Hwf Hfull [Hs Hext]. apply grid_ext; [apply Hs|done|].
  intros r c Hr Hc. destruct (wf_cell g r c Hwf Hr Hc) as [v Hv].
  rewrite Hv. apply Hext; [done..|]. intros ->. by destruct (Hfull r c).
Qed.

Lemma NoDup_all_equal {A} (l : list A) a :
  NoDup l → Forall (λ x, x = a) l → (length l ≤ 1)%nat.
Proof.
  intros Hnd Hall. destruct l as [|x [|y l]]; cbn; [lia..|].
  apply Forall_cons in Hall as [-> Hall]. apply Forall_cons in Hall as [-> _].
  apply NoDup_cons in Hnd as [Hnd _]. destruct Hnd. left.
Qed.

Lemma length_filter_split {A} (P : A → Prop) `{!∀ x, Decision (P x)} (l : list A) :
  length l = (length (filter P l) + length (filter (λ x, ¬ P x) l))%nat.
Proof. by rewrite <- length_app, filter_app_complement. Qed.

Lemma solve_nums_spec rec (fuel : nat) limit row col nums g count sols :
  (∀ g count sols, wf g → (count_empty g < fuel)%nat →
     NoDup sols → Forall (completion g) sols →
     solve_post limit g count sols (rec g count)) →
  wf g → cell g row col = Some 0 → (count_empty g ≤ fuel)%nat →
  Forall (λ num, num ≠ 0) nums →
  NoDup sols → Forall (completion g) sols →
  Forall (λ s, ∃ v, cell s row col = Some v ∧ v ∈ nums) sols →
  solve_post limit g count sols (solve_nums rec row col nums g count).
Proof.
  intros Hrec Hwf Hz Hfuel. revert count sols.
  destruct (cell_lt _ _ _ _ Hwf Hz) as [Hr Hc].
  induction nums as [|num rest IH]; intros count sols Hnums Hnd Hcomp Hin; cbn.
  - exists count. split; [done|].
    destruct sols as [|s sols]; [cbn; lia|].
    apply Forall_cons in Hin as [(v & _ & Hv) _]. by apply elem_of_nil in Hv.
  - apply Forall_cons in Hnums as [Hnum Hrest].
    set (P := λ s : Grid, cell s row col = Some num).
    pose proof (length_filter_split P sols) as Hlen.
    assert (NoDup (filter (λ s, ¬ P s) sols)) as HndB by by apply NoDup_filter.
    assert (Forall (completion g) (filter (λ s, ¬ P s) sols)) as HcompB.
    { apply Forall_forall. intros s Hs. apply list_elem_of_filter in Hs as [_ Hs].
      by eapply Forall_forall in Hcomp. }
    assert (Forall (λ s, ∃ v, cell s row col = Some v ∧ v ∈ rest)
              (filter (λ s, ¬ P s) sols)) as HinB.
    { apply Forall_forall. intros s Hs. apply list_elem_of_filter in Hs as [HnP Hs].
      eapply Forall_forall in Hin as (v & Hv & Hmem); [|done].
      exists v. split; [done|]. apply elem_of_cons in Hmem as [->|?]; [|done].
      by destruct HnP. }
    destruct (isValid g row col num) eqn:Hval.
    + destruct (Hrec (set_cell g row col num) count (filter P sols))
        as (c1 & -> & Hc1).
      * by apply wf_set_cell.
      * pose proof (count_empty_set_cell g row col num Hwf Hz Hnum). lia.
      * by apply NoDup_filter.
      * apply Forall_forall. intros s Hs.
        apply list_elem_of_filter in Hs as [HP Hs].
        eapply Forall_forall in Hcomp; [|done].
        by apply completion_set_cell.
      * rewrite (set_cell_restore g row col 0 num Hz).
        destruct (IH c1 _ Hrest HndB HcompB HinB) as (c2 & -> & Hc2).
        exists c2. split; [done|]. clear -Hlen Hc1 Hc2.
        change (length sols = (length (filter P sols)
                  + length (filter (λ s, ¬ P s) sols))%nat) in Hlen.
        set (a := length (filter P sols)) in *.
        set (b := length (filter (λ s, ¬ P s) sols)) in *.
        clearbody a b. lia.
    + assert (filter P sols = []) as HA.
      { destruct (filter P sols) as [|s l] eqn:E; [done|].
        assert (s ∈ filter P sols) as Hs by (rewrite E; left).
        apply list_elem_of_filter in Hs as [HP Hs].
        eapply Forall_forall in Hcomp; [|done].
        rewrite (completion_isValid g s row col num) in Hval; done. }
      rewrite HA in Hlen. cbn in Hlen.
      destruct (IH count _ Hrest HndB HcompB HinB) as (c2 & -> & Hc2).
      exists c2. split; [done|]. lia.
Qed.

Lemma solve_count_spec fuel limit g count sols :
  wf g → (count_empty g < fuel)%nat →
  NoDup sols → Forall (completion g) sols →
  solve_post limit g count sols (solve_count fuel limit g count).
Proof.
  revert g count sols.
  induction fuel as [|fuel IH]; intros g count sols Hwf Hfuel Hnd Hcomp; [lia|].
  cbn [solve_count]. destruct (limit <=? count) eqn:Hlim.
  { exists count. split; [done|]. lia. }
  destruct (first_empty g) as [[row col]|] eqn:Hfirst.
  - apply first_empty_Some in Hfirst as (Hr & Hc & Hz).
    apply (solve_nums_spec _ fuel); try done; [lia| |].
    + repeat constructor; lia.
    + apply Forall_forall. intros s Hs. eapply Forall_forall in Hcomp; [|done].
      destruct (solved_cell s row col (proj1 Hcomp) Hr Hc) as (v & Hv & Hrange).
      exists v. split; [done|]. by apply digit_elem.
  - exists (count + 1). split; [done|]. apply first_empty_None in Hfirst.
    assert (length sols ≤ 1)%nat; [|lia].
    apply (NoDup_all_equal _ g); [done|].
    eapply Forall_impl; [done|]. intros s. by apply completion_full.
Qed.

(** The counter returns on every 9×9 grid. *)
Lemma countSolutions_total g limit : wf g → ∃ n, countSolutions g limit = Some n.
Proof.
  intros Hwf. unfold countSolutions. rewrite cloneGrid_id.
  destruct (solve_count_spec (fuel_for g) limit g 0 [] Hwf)
    as (n & -> & _); [unfold fuel_for; lia|constructor..|].
  by exists n.
Qed.

(** Two different completions make the counter reach its limit of 2. *)
Lemma countSolutions_two g s1 s2 :
  wf g → completion g s1 → completion g s2 → s1 ≠ s2 →
  ∃ n, countSolutions g 2 = Some n ∧ 2 <= n.
Proof.
  intros Hwf H1 H2 Hne. unfold countSolutions. rewrite cloneGrid_id.
  destruct (solve_count_spec (fuel_for g) 2 g 0 [s1; s2] Hwf)
    as (n & -> & Hn); [unfold fuel_for; lia| | |].
  - apply NoDup_cons. split; [|apply NoDup_singleton].
    apply not_elem_of_cons. split; [done | apply not_elem_of_nil].
  - by apply Forall_cons_2; [|apply Forall_cons_2; [|apply Forall_nil_2]].
  - exists n. split; [done|]. cbn in Hn. lia.
Qed.

Lemma countSolutions_full g : wf g → full g → countSolutions g 2 = Some 1.
Proof.
  intros Hwf Hfull. unfold countSolutions, fuel_for. rewrite cloneGrid_id.
  cbn [solve_count]. by rewrite full_first_empty.
Qed.

(** ** [generate] *)

Lemma DIFFICULTY_bounds d lo hi :
  default (30, 37) (DIFFICULTY !! d) = (lo, hi) → 17 <= lo ∧ lo <= hi ∧ hi <= 45.
Proof.
  destruct (DIFFICULTY !! d) as [[lo' hi']|] eqn:E; cbn.
  - intros [= -> ->]. apply elem_of_list_to_map_2 in E.
    repeat (apply elem_of_cons in E as [E|E]; [injection E as _ -> ->; lia|]).
    by apply elem_of_nil in E.
  - intros [= <- <-]. lia.
Qed.

Lemma holes_of_refl g : wf g → holes_of g g.
Proof. intros _ r c _ _. by right. Qed.

Lemma holes_of_set_cell p s r c :
  wf p → holes_of p s → holes_of (set_cell p r c 0) s.
Proof.
  intros Hwf H r' c' Hr' Hc'.
  destruct (decide ((r, c) = (r', c'))) as [[= <- <-]|Hne].
  - left. by apply cell_set_cell_eq.
  - rewrite cell_set_cell_ne by done. by apply H.
Qed.

Lemma holes_of_extends p s : holes_of p s → extends p s.
Proof.
  intros H r c v Hr Hc Hv Hv0. destruct (H r c Hr Hc) as [Hz|<-]; [|done].
  congruence.
Qed.

(** The removal loop returns; the grid it returns is the solution with
    some cells emptied and the counter answers 1 on it; it removes at
    most [cellsToRemove] cells. *)
Lemma remove_cells_spec positions cellsToRemove sol p removed :
  Forall (λ pos, (pos.1 < 9)%nat ∧ (pos.2 < 9)%nat) positions →
  wf p → holes_of p sol → countSolutions p 2 = Some 1 →
  ∃ p' removed',
    remove_cells positions cellsToRemove p removed = Some (p', removed') ∧
    wf p' ∧ holes_of p' sol ∧ countSolutions p' 2 = Some 1 ∧
    removed <= removed' ∧ removed' <= Z.max removed cellsToRemove.
Proof.
  intros Hpos. revert p removed.
  induction positions as [|[row col] rest IH]; intros p removed Hwf Hholes Hone;
    cbn [remove_cells].
  - exists p, removed. split_and!; try done; lia.
  - apply Forall_cons in Hpos as [[Hr Hc] Hrest]. cbn [fst snd] in Hr, Hc.
    destruct (cellsToRemove <=? removed) eqn:Hstop.
    { exists p, removed. split_and!; try done; lia. }
    destruct (wf_cell p row col Hwf Hr Hc) as [backup Hbackup]. rewrite Hbackup.
    destruct (countSolutions_total (set_cell p row col 0) 2) as [n Hn];
      [by apply wf_set_cell|].
    rewrite Hn. destruct (n =? 1) eqn:Hn1; cbn [negb].
    + apply Z.eqb_eq in Hn1 as ->.
      destruct (IH Hrest (set_cell p row col 0) (removed + 1))
        as (p' & removed' & -> & ? & ? & ? & ? & ?);
        [by apply wf_set_cell | by apply holes_of_set_cell | done |].
      exists p', removed'. split_and!; try done; lia.
    + rewrite (set_cell_restore p row col backup 0 Hbackup).
      destruct (IH Hrest p removed) as (p' & removed' & -> & ? & ? & ? & ? & ?);
        try done.
      exists p', removed'. split_and!; try done; lia.
Qed.

Lemma positions_in_range :
  Forall (λ pos, (pos.1 < 9)%nat ∧ (pos.2 < 9)%nat) positions_row_major.
Proof. apply Forall_forall. intros [r c] H. by apply elem_of_positions. Qed.

Lemma seeded_set_rng s w : seeded (set_rng (mulberry32 s) w).
Proof. by eexists. Qed.

(** What a seeded call of [generate] returns. *)
Lemma generate_seeded d s w :
  ∃ p sol removed w',
    generate d (Some s) w
      = Some ({| puzzle := p; solution := sol; difficulty := d;
                 clues := 81 - removed; seed := Some s |}, w') ∧
    solved sol ∧ wf p ∧ holes_of p sol ∧ countSolutions p 2 = Some 1 ∧
    0 <= removed ∧ removed <= 81 - (default (30, 37) (DIFFICULTY !! d)).1 ∧
    rng w' = MathRandom ∧ platform w' = platform w ∧ drawn w' = drawn w.
Proof.
  unfold generate.
  destruct (default (30, 37) (DIFFICULTY !! d)) as [lo hi] eqn:Hband.
  apply DIFFICULTY_bounds in Hband.
  destruct (rng_call (set_rng (mulberry32 s) w)) as [x w1] eqn:Hx.
  apply rng_call_seeded in Hx as (Hunit & Hw1 & Hp1 & Hd1);
    [|apply seeded_set_rng].
  pose proof (floor_mul_range x (hi - lo + 1) Hunit) as Htarget.
  destruct (fillGrid_empty w1 Hw1) as (sol & w2 & -> & Hsol & Hw2 & Hp2 & Hd2).
  destruct (shuffle positions_row_major w2) as [positions w3] eqn:Hsh.
  apply shuffle_spec in Hsh as (Hperm & Hw3 & Hp3 & Hd3); [|done].
  rewrite cloneGrid_id.
  destruct (remove_cells_spec positions
              (81 - (floor_mul x (hi - lo + 1) + lo)) sol sol 0)
    as (p & removed & -> & Hwf & Hholes & Hone & Hlo & Hhi).
  - rewrite Hperm. apply positions_in_range.
  - apply Hsol.
  - apply holes_of_refl, Hsol.
  - apply countSolutions_full; apply Hsol.
  - exists p, sol, removed, (set_rng MathRandom w3).
    split_and!; try done; cbn [fst platform drawn set_rng] in *;
      try congruence; lia.
Qed.

(** ** Two runs from the same seed *)

Lemma rng_call_agree w1 w2 :
  same_stream w1 w2 → agree (rng_call w1) (rng_call w2).
Proof.
  intros (s & H1 & H2). unfold rng_call. rewrite H1, H2.
  destruct (mulberry32_next s) as [x s']. split; [done|]. by exists s'.
Qed.

Lemma shuffle_from_agree {A} i (arr : list A) w1 w2 :
  same_stream w1 w2 → agree (shuffle_from i arr w1) (shuffle_from i arr w2).
Proof.
  revert arr w1 w2. induction i as [|i IH]; intros arr w1 w2 Hw; cbn.
  - done.
  - destruct (rng_call_agree w1 w2 Hw) as [Hx Hw'].
    destruct (rng_call w1) as [x1 w1'], (rng_call w2) as [x2 w2'].
    cbn in Hx, Hw'. subst x2. by apply IH.
Qed.

Lemma fill_nums_agree rec row col nums g w1 w2 :
  (∀ g w1 w2, same_stream w1 w2 → agree_opt (rec g w1) (rec g w2)) →
  same_stream w1 w2 →
  agree_opt (fill_nums rec row col nums g w1) (fill_nums rec row col nums g w2).
Proof.
  intros Hrec. revert g w1 w2.
  induction nums as [|num rest IH]; intros g w1 w2 Hw; cbn.
  - done.
  - destruct (isValid g row col num); [|by apply IH].
    specialize (Hrec (set_cell g row col num) w1 w2 Hw).
    destruct (rec (set_cell g row col num) w1) as [[[b1 g1] w1']|],
             (rec (set_cell g row col num) w2) as [[[b2 g2] w2']|];
      try done.
    destruct Hrec as [[= -> ->] Hw']. cbn in Hw'.
    destruct b2; [done|]. by apply IH.
Qed.

Lemma fillGrid_agree fuel g w1 w2 :
  same_stream w1 w2 → agree_opt (fillGrid fuel g w1) (fillGrid fuel g w2).
Proof.
  revert g w1 w2. induction fuel as [|fuel IH]; intros g w1 w2 Hw; [done|].
  cbn [fillGrid]. destruct (first_empty g) as [[row col]|]; [|done].
  destruct (shuffle_from_agree 8 [1; 2; 3; 4; 5; 6; 7; 8; 9] w1 w2 Hw)
    as [Hnums Hw'].
  unfold shuffle. cbn [length Nat.sub].
  destruct (shuffle_from 8 _ w1) as [nums1 w1'],
           (shuffle_from 8 _ w2) as [nums2 w2'].
  cbn in Hnums, Hw'. subst nums2. by apply fill_nums_agree.
Qed.

Lemma generate_agree d s w1 w2 :
  fst <$> generate d (Some s) w1 = fst <$> generate d (Some s) w2.
Proof.
  unfold generate.
  destruct (default (30, 37) (DIFFICULTY !! d)) as [lo hi].
  assert (same_stream (set_rng (mulberry32 s) w1) (set_rng (mulberry32 s) w2))
    as Hw by by eexists.
  destruct (rng_call_agree _ _ Hw) as [Hx Hw1].
  destruct (rng_call (set_rng (mulberry32 s) w1)) as [x w1'],
           (rng_call (set_rng (mulberry32 s) w2)) as [x2 w2'].
  cbn [fst snd] in Hx, Hw1. subst x2.
  pose proof (fillGrid_agree (fuel_for createEmptyGrid) createEmptyGrid
                w1' w2' Hw1) as Hfill.
  destruct (fillGrid _ createEmptyGrid w1') as [[[b1 sol1] w1'']|],
           (fillGrid _ createEmptyGrid w2') as [[[b2 sol2] w2'']|];
    try done.
  destruct Hfill as [[= -> ->] Hw2]. cbn [fst snd] in Hw2.
  destruct (shuffle_from_agree (length positions_row_major - 1)
              positions_row_major w1'' w2'' Hw2) as [Hpos Hw3].
  unfold shuffle.
  destruct (shuffle_from _ positions_row_major w1'') as [pos1 w1'''],
           (shuffle_from _ positions_row_major w2'') as [pos2 w2'''].
  cbn [fst snd] in Hpos, Hw3. subst pos2.
  by destruct (remove_cells pos1 _ (cloneGrid sol2) 0) as [[p removed]|].
Qed.

(** The index [shuffle] draws lies inside the part of the array still to
    be shuffled, so [swap] never reads outside the array. *)
Lemma shuffle_index_in_range w x w' (i : nat) :
  seeded w → rng_call w = (x, w') →
  (Z.to_nat (floor_mul x (Z.of_nat i + 1)) ≤ i)%nat.
Proof.
  intros Hw Hx. apply rng_call_seeded in Hx as (Hunit & _); [|done].
  pose proof (floor_mul_range x (Z.of_nat i + 1) Hunit). lia.
Qed.

(** ** The claims about the engine *)

(** C1. For every difficulty band (each of the five names of the table
    [DIFFICULTY]) and every seed, [generate] returns; the Uniqueness
    Counter answers 1 on the puzzle grid it returns; the returned
    solution is a completion of that grid, and the only one; and every
    non-zero cell of the puzzle grid equals the cell of the solution. *)
Theorem generate_unique_completion (difficulty : string) (seed : Z) (w : World) :
  listed difficulty →
  ∃ pz w',
    generate difficulty (Some seed) w = Some (pz, w') ∧
    countSolutions (puzzle pz) 2 = Some 1 ∧
    completion (puzzle pz) (solution pz) ∧
    (∀ s, completion (puzzle pz) s → s = solution pz) ∧
    (∀ r c v, (r < 9)%nat → (c < 9)%nat →
       cell (puzzle pz) r c = Some v → v ≠ 0 →
       cell (solution pz) r c = Some v).
Proof.
  intros _.
  destruct (generate_seeded difficulty seed w)
    as (p & sol & removed & w' & -> & Hsol & Hwf & Hholes & Hone & _).
  eexists _, w'. split; [done|]. cbn [puzzle solution].
  assert (completion p sol) as Hcomp by (split; [done | by apply holes_of_extends]).
  split_and!; try done.
  - intros s Hs. destruct (decide (s = sol)) as [|Hne]; [done|].
    destruct (countSolutions_two p s sol Hwf Hs Hcomp Hne) as (n & Hn & Hge).
    rewrite Hone in Hn. injection Hn as <-. lia.
  - apply holes_of_extends, Hholes.
Qed.

Lemma generate_unique_completion_witness :
  listed "expert" ∧
  ∃ pz w',
    generate "expert" (Some 12345) idle_world = Some (pz, w') ∧
    countSolutions (puzzle pz) 2 = Some 1 ∧
    completion (puzzle pz) (solution pz) ∧
    (∀ s, completion (puzzle pz) s → s = solution pz) ∧
    (∀ r c v, (r < 9)%nat → (c < 9)%nat →
       cell (puzzle pz) r c = Some v → v ≠ 0 →
       cell (solution pz) r c = Some v).
Proof.
  assert (listed "expert") as Hd by (by eexists).
  split; [exact Hd|].
  exact (generate_unique_completion "expert" 12345 idle_world Hd).
Defined.

(** C2. Two calls of [generate] with the same difficulty band (one of
    the five names of the table [DIFFICULTY]) and the same seed, from any
    two worlds (whatever [rng] held before, whatever the platform source
    would return), return the same puzzle: the same grid, solution and
    clue count; and neither call draws from the platform source. *)
Theorem generate_deterministic (difficulty : string) (seed : Z) (w1 w2 : World) :
  listed difficulty →
  ∃ pz w1' w2',
    generate difficulty (Some seed) w1 = Some (pz, w1') ∧
    generate difficulty (Some seed) w2 = Some (pz, w2') ∧
    drawn w1' = drawn w1 ∧ drawn w2' = drawn w2.
Proof.
  intros _.
  pose proof (generate_agree difficulty seed w1 w2) as Hagree.
  destruct (generate_seeded difficulty seed w1)
    as (p1 & sol1 & removed1 & w1' & H1 & _ & _ & _ & _ & _ & _ & _ & _ & Hd1).
  destruct (generate_seeded difficulty seed w2)
    as (p2 & sol2 & removed2 & w2' & H2 & _ & _ & _ & _ & _ & _ & _ & _ & Hd2).
  rewrite H1, H2 in Hagree. cbn in Hagree. injection Hagree as Hp Hs Hc.
  eexists _, w1', w2'. split; [exact H1|]. split; [|done].
  rewrite H2. by rewrite Hp, Hs, Hc.
Qed.

Lemma generate_deterministic_witness :
  let w2 := mkWorld (Mulberry32 7) (λ _, 0.5%Q) 3 in
  listed "hard" ∧
  ∃ pz w1' w2',
    generate "hard" (Some 12345) idle_world = Some (pz, w1') ∧
    generate "hard" (Some 12345) w2 = Some (pz, w2') ∧
    drawn w1' = drawn idle_world ∧ drawn w2' = drawn w2.
Proof.
  intros w2.
  assert (listed "hard") as Hd by (by eexists).
  split; [exact Hd|].
  exact (generate_deterministic "hard" 12345 idle_world w2 Hd).
Defined.

(** C9, as the specification states it, fails: in the band ["evil"],
    whose range is 17 to 21, seed 1659 gives a puzzle with 24 clues. *)
Lemma clues_above_band_maximum :
  ∃ pz w',
    generate "evil" (Some 1659) idle_world = Some (pz, w') ∧
    DIFFICULTY !! "evil"%string = Some (17, 21) ∧
    clues pz = 24 ∧ ¬ (17 <= clues pz <= 21).
Proof.
  assert ((λ r, clues r.1) <$> generate "evil" (Some 1659) idle_world = Some 24)
    as Hclues by (vm_compute; reflexivity).
  destruct (generate "evil" (Some 1659) idle_world) as [[pz w']|]; [|done].
  cbn in Hclues. injection Hclues as Hclues.
  exists pz, w'. split_and!; [done | vm_compute; reflexivity | done | lia].
Qed.

(** C10. On a position that already holds [v], [isValid] answers false
    for [v]: the scans of the row, the column and the box include the
    position itself. *)
Theorem isValid_false_on_own_value (g : Grid) (r c : nat) (v : Z) :
  (r < 9)%nat → (c < 9)%nat → cell g r c = Some v → isValid g r c v = false.
Proof.
  intros Hr Hc Hv. destruct (isValid g r c v) eqn:Hval; [|done].
  rewrite isValid_true in Hval by done.
  destruct (Hval r c Hr Hc); [by left | done].
Qed.

Lemma isValid_false_on_own_value_witness :
  (0 < 9)%nat ∧ (0 < 9)%nat ∧ cell shifted_grid 0 0 = Some 1 ∧
  isValid shifted_grid 0 0 1 = false.
Proof.
  split_and!; [lia | lia | reflexivity |].
  apply (isValid_false_on_own_value shifted_grid 0 0 1); [lia | lia | reflexivity].
Defined.

(** With the position emptied first, [isValid] accepts the value a solved
    grid has there. *)
Lemma isValid_on_emptied_cell (s : Grid) (r c : nat) (v : Z) :
  solved s → (r < 9)%nat → (c < 9)%nat → cell s r c = Some v →
  isValid (set_cell s r c 0) r c v = true.
Proof.
  intros Hs Hr Hc Hv.
  apply (completion_isValid _ s); try done.
  - split; [done|]. intros r' c' v' Hr' Hc'.
    destruct (decide ((r, c) = (r', c'))) as [[= <- <-]|Hne].
    + rewrite cell_set_cell_eq by (done || apply Hs). congruence.
    + by rewrite cell_set_cell_ne.
  - apply cell_set_cell_eq; [apply Hs|done..].
Qed.

(** * Properties of the battle session *)

Import PvP.

(** ** The delay before an opponent action *)

Lemma clamp_bounds x : (400 <= Qmax 400 (Qmin x 25000) <= 25000)%Q.
Proof.
  split; [apply Q.le_max_l|]. apply Q.max_lub; [lra | apply Q.le_min_r].
Qed.

(** Name the result of the next stage of [H], a pair or a triple, and
    keep the equation that defines it. *)
Ltac next_stage H E :=
  match type of H with
  | context [match ?t with pair _ _ => _ end] =>
      lazymatch type of t with
      | ((_ * _) * _)%type => destruct t as [[? ?] ?] eqn:E
      | _ => destruct t as [? ?] eqn:E
      end
  end.

Ltac stage_quiet E :=
  unfold quiet; repeat case_match; simplify_eq/=; try done.

Lemma aiDelay_spec b e d b' e' :
  aiDelay b e = (d, b', e') →
  quiet b e b' e' ∧
  (takes_hint b e = false → (400 <= d <= 25000)%Q) ∧
  (takes_hint b e = true → d = (200 + random e (S (consumed e)) * 400)%Q).
Proof.
  unfold aiDelay, takes_hint. intros H.
  next_stage H E0.
  assert (b0 = ((0 <? aiHints b) && Qltb 0.5 (random e (consumed e)))
          ∧ effects e0 = effects e
          ∧ (b0 = true → random e0 (consumed e0) = random e (S (consumed e))))
    as (-> & He0 & Hr).
  { clear H. destruct (0 <? aiHints b); simplify_eq/=; done. }
  clear E0.
  destruct ((0 <? aiHints b) && Qltb 0.5 (random e (consumed e))).
  { cbn in H. simplify_eq. rewrite Hr by done. by split_and!. }
  set (b1 := if Qltb _ 0.12 then _ else _) in H.
  assert (ended b1 = ended b) as Hb1
    by (clear H; unfold b1; repeat case_match; reflexivity).
  clearbody b1. cbn [math_random] in H.
  next_stage H E2.
  assert (quiet b1 e b0 e1) as [He1 Hb0].
  { clear H. stage_quiet E2. }
  clear E2.
  next_stage H E3.
  assert (effects e2 = effects e1) as He2.
  { clear H. stage_quiet E3. }
  clear E3.
  next_stage H E4.
  assert (effects e3 = effects e2) as He3.
  { clear H. stage_quiet E4. }
  clear E4.
  next_stage H E5.
  assert (quiet b0 e3 b2 e4) as [He4 Hb2].
  { clear H. stage_quiet E5. }
  clear E5.
  next_stage H E6.
  assert (effects e5 = effects e4) as He5.
  { clear H. stage_quiet E6. }
  clear E6.
  cbn in H. simplify_eq. split_and!; [|intros _; apply clamp_bounds|done].
  split; cbn; congruence.
Qed.

Lemma scheduleNextAICell_spec b e :
  ended (scheduleNextAICell b e).1 = ended b ∧
  (effects (scheduleNextAICell b e).2 = effects e ∨
   ∃ id d,
     effects (scheduleNextAICell b e).2 = effects e ++ [SetTimeout id d] ∧
     (takes_hint b e = false → (400 <= d <= 25000)%Q) ∧
     (takes_hint b e = true → d = (200 + random e (S (consumed e)) * 400)%Q)).
Proof.
  unfold scheduleNextAICell. destruct (ended b || aiFinished b).
  { split; [done | by left]. }
  destruct (aiDelay b e) as [[d b1] e1] eqn:Hdelay.
  apply aiDelay_spec in Hdelay as ([He1 Hb1] & Hmain & Hhint).
  cbn. split; [done|]. right. exists (next_timer e1), d. by rewrite He1.
Qed.

(** ** The delay in double precision *)

(** With the identity as rounding, the delay in double precision is the
    delay on exact fractions. *)
Lemma aiDelay_exact b e : Rounded.aiDelay (λ x, x) b e = aiDelay b e.
Proof. reflexivity. Qed.

Lemma scheduleNextAICell_exact b e :
  Rounded.scheduleNextAICell (λ x, x) b e = scheduleNextAICell b e.
Proof. reflexivity. Qed.

Lemma rounding_identity : rounding (λ x, x).
Proof. split; [done|]. intros z _. reflexivity. Qed.

Lemma rounded_hint_delay fl r :
  rounding fl → unit_interval r →
  (200 <= fl (200 + fl (r * 400)) <= 600)%Q.
Proof.
  intros [Hmono Hint] [H0 H1].
  assert (fl 0 == 0)%Q as E0 by (apply (Hint 0); lia).
  assert (fl 200 == 200)%Q as E200 by (apply (Hint 200); lia).
  assert (fl 400 == 400)%Q as E400 by (apply (Hint 400); lia).
  assert (fl 600 == 600)%Q as E600 by (apply (Hint 600); lia).
  assert (fl 0 <= fl (r * 400))%Q as Hlo by (apply Hmono; lra).
  assert (fl (r * 400) <= fl 400)%Q as Hhi by (apply Hmono; lra).
  assert (fl 200 <= fl (200 + fl (r * 400)))%Q as Hlo' by (apply Hmono; lra).
  assert (fl (200 + fl (r * 400)) <= fl 600)%Q as Hhi' by (apply Hmono; lra).
  split; lra.
Qed.

Lemma rounded_aiDelay_spec fl b e d b' e' :
  Rounded.aiDelay fl b e = (d, b', e') →
  quiet b e b' e' ∧
  (takes_hint b e = false → (400 <= d <= 25000)%Q) ∧
  (takes_hint b e = true →
     d = fl (200 + fl (random e (S (consumed e)) * 400))%Q).
Proof.
  unfold Rounded.aiDelay, Rounded.fraction, takes_hint. intros H.
  next_stage H E0.
  assert (b0 = ((0 <? aiHints b) && Qltb 0.5 (random e (consumed e)))
          ∧ effects e0 = effects e
          ∧ (b0 = true → random e0 (consumed e0) = random e (S (consumed e))))
    as (-> & He0 & Hr).
  { clear H. destruct (0 <? aiHints b); simplify_eq/=; done. }
  clear E0.
  destruct ((0 <? aiHints b) && Qltb 0.5 (random e (consumed e))).
  { cbn in H. simplify_eq. rewrite Hr by done. by split_and!. }
  set (b1 := if Qltb _ (fl 0.12%Q) then _ else _) in H.
  assert (ended b1 = ended b) as Hb1
    by (clear H; unfold b1; repeat case_match; reflexivity).
  clearbody b1. cbn [math_random] in H.
  next_stage H E2.
  assert (quiet b1 e b0 e1) as [He1 Hb0].
  { clear H. stage_quiet E2. }
  clear E2.
  next_stage H E3.
  assert (effects e2 = effects e1) as He2.
  { clear H. stage_quiet E3. }
  clear E3.
  next_stage H E4.
  assert (effects e3 = effects e2) as He3.
  { clear H. stage_quiet E4. }
  clear E4.
  next_stage H E5.
  assert (quiet b0 e3 b2 e4) as [He4 Hb2].
  { clear H. stage_quiet E5. }
  clear E5.
  next_stage H E6.
  assert (effects e5 = effects e4) as He5.
  { clear H. stage_quiet E6. }
  clear E6.
  cbn in H. simplify_eq. split_and!; [|intros _; apply clamp_bounds|done].
  split; cbn; congruence.
Qed.

(** C3, as the code has it. A call of the scheduler sets at most one
    timer.  The delay is computed in double precision, whatever rounding
    that is, on a session whose total is not zero.  Off the hint branch
    the delay lies within [400, 25000] milliseconds; on the hint branch
    it is not clamped and lies within [200, 600]. *)
Theorem scheduled_delay_bounds (fl : Q → Q) (b : Battle) (e : Env) :
  rounding fl → finite_inputs b → (∀ n, unit_interval (random e n)) →
  effects (Rounded.scheduleNextAICell fl b e).2 = effects e ∨
  ∃ id d,
    effects (Rounded.scheduleNextAICell fl b e).2
    = effects e ++ [SetTimeout id d] ∧
    if takes_hint b e then (200 <= d <= 600)%Q
    else (400 <= d <= 25000)%Q.
Proof.
  intros Hfl _ Hrandom. unfold Rounded.scheduleNextAICell.
  destruct (ended b || aiFinished b); [by left|].
  destruct (Rounded.aiDelay fl b e) as [[d b1] e1] eqn:Hdelay.
  apply rounded_aiDelay_spec in Hdelay as ([He1 Hb1] & Hmain & Hhint).
  right. exists (next_timer e1), d. cbn. rewrite He1. split; [done|].
  destruct (takes_hint b e); [|by apply Hmain].
  rewrite Hhint by done. by apply rounded_hint_delay.
Qed.

Lemma scheduled_delay_bounds_witness :
  let b := the_battle demo_three_mistakes in
  rounding (λ x, x) ∧ finite_inputs b ∧
  (∀ n, unit_interval (random demo_env n)) ∧
  (effects (Rounded.scheduleNextAICell (λ x, x) b demo_env).2
   = effects demo_env ∨
   ∃ id d,
     effects (Rounded.scheduleNextAICell (λ x, x) b demo_env).2
     = effects demo_env ++ [SetTimeout id d] ∧
     if takes_hint b demo_env then (200 <= d <= 600)%Q
     else (400 <= d <= 25000)%Q).
Proof.
  intros b.
  assert (finite_inputs b) as Hb.
  { split_and!.
    - vm_compute. congruence.
    - intros z Hz. repeat (apply elem_of_cons in Hz as [->|Hz]);
        [vm_compute; split; congruence..|by apply elem_of_nil in Hz].
    - exists "easy"%string. vm_compute. reflexivity. }
  assert (∀ n, unit_interval (random demo_env n)) as Hr
    by (intros [|n]; split; vm_compute; congruence).
  split; [exact rounding_identity|]. split; [exact Hb|]. split; [exact Hr|].
  exact (scheduled_delay_bounds (λ x, x) b demo_env rounding_identity Hb Hr).
Defined.

(** C3, as the specification states it, fails on the hint branch: after
    three mistakes of the human the opponent holds a hint credit, and
    when [Math.random] returns 3/4 and then 0 the timer is set to 200
    milliseconds. *)
Lemma hint_delay_below_400 :
  aiHints <$> demo_three_mistakes = Some 1 ∧
  (λ b, effects (scheduleNextAICell b demo_env).2) <$> demo_three_mistakes
  = Some [SetTimeout 1 (200 # 1)] ∧
  ¬ (400 <= 200 # 1)%Q.
Proof. split_and!; [vm_compute; reflexivity..|]. vm_compute. congruence. Qed.

(** ** The operations of the human *)

(** The session the examples start from holds a puzzle the generator
    returns. *)
Lemma demo_puzzle_generated :
  fst <$> generate "easy" (Some 12345) idle_world = Some demo_puzzle.
Proof. vm_compute. reflexivity. Qed.

Lemma cell_row g r c row : g !! r = Some row → cell g r c = row !! c.
Proof. intros H. unfold cell. by rewrite H. Qed.

Lemma allFilled_true b : allFilled b = true ↔ all_match b.
Proof.
  unfold allFilled, all_match. rewrite forallb_forall. split.
  - intros H r c Hr Hc.
    assert (In r (seq 0 9)) as Hin by (apply in_seq; lia).
    specialize (H r Hin). rewrite forallb_forall in H.
    assert (In c (seq 0 9)) as Hin' by (apply in_seq; lia).
    by apply H, bool_decide_eq_true in Hin'.
  - intros H r Hr. apply in_seq in Hr. apply forallb_forall. intros c Hc.
    apply in_seq in Hc. apply bool_decide_eq_true, H; lia.
Qed.

(** C4, as the code has it. An attempt to place a value or to use a hint
    returns null without raising and leaves the battle state as it was
    when there is no session, when the session has ended, when the human
    has finished, when the target is an original clue, and, for a hint,
    when no hint credit is left or the cell already holds the correct
    value. *)
Theorem invalid_attempt_rejected (a : Attempt) (battle : option Battle) :
  invalid a battle → rejected a battle.
Proof.
  intros [a'|a' b Hended|a' b Hfin|a' b v Hclue Hv|row col b Hhints
          |row col b v [orow Horow] Hboard Hsol].
  - by destruct a'.
  - destruct a'; cbn; by rewrite Hended.
  - destruct a'; cbn; by rewrite Hfin, orb_true_r.
  - assert (∀ row col, cell (original b) row col = Some v →
              match original b !! row with
              | Some orow => negb (bool_decide (orow !! col = Some 0)) = true
              | None => False
              end) as Hguard.
    { intros row col. unfold cell.
      destruct (original b !! row) as [orow|]; [|done]. cbn. intros Hc.
      rewrite bool_decide_eq_false_2; [done|]. congruence. }
    destruct a' as [row col num|row col]; cbn in Hclue |- *;
      specialize (Hguard row col Hclue);
      destruct (original b !! row) as [orow|]; try done;
      rewrite Hguard; by repeat case_match.
  - cbn. destruct (ended b || playerFinished b); [done|].
    by rewrite (proj2 (Z.leb_le _ _) Hhints).
  - cbn. rewrite Horow, Hboard, Hsol.
    rewrite (bool_decide_eq_true_2 (Some v = Some v)) by done.
    by repeat case_match.
Qed.

Lemma invalid_attempt_rejected_witness :
  invalid (TryPlace 0 0 5) (Some demo_battle) ∧
  rejected (TryPlace 0 0 5) (Some demo_battle).
Proof.
  assert (invalid (TryPlace 0 0 5) (Some demo_battle)) as H.
  { apply (invalid_clue _ _ 7); [reflexivity | lia]. }
  split; [exact H|].
  apply (invalid_attempt_rejected (TryPlace 0 0 5) (Some demo_battle)).
  apply (invalid_clue _ _ 7); [reflexivity | lia].
Defined.

(** C4, as the specification states it, fails for a session that has not
    started: before [beginBattle] a wrong value in an empty cell is
    accepted and counted as a mistake. *)
Lemma move_before_start_accepted :
  started demo_battle = false ∧
  cell (original demo_battle) 0 2 = Some 0 ∧
  playerMistakes demo_battle = 0 ∧
  ¬ rejected (TryPlace 0 2 1) (Some demo_battle) ∧
  playerMistakes <$> battle_after (playerPlace 0 2 1 (Some demo_battle))
  = Some 1.
Proof.
  split_and!; try (vm_compute; reflexivity).
  unfold rejected. intros H.
  apply (f_equal (λ c, playerMistakes <$> battle_after c)) in H.
  vm_compute in H. congruence.
Qed.

Lemma playerFinish_wins cb b e :
  ended b = false →
  ∃ b' e', playerFinish cb (Some b) e = (Some b', e') ∧
    ended b' = true ∧ result b' = Some win ∧ eloDelta b' = 25.
Proof.
  intros Hended. unfold playerFinish, endBattle. rewrite Hended.
  cbn [ended set_playerFinished]. rewrite Hended. cbn.
  by eexists _, _.
Qed.

(** Where [playerPlace] and [playerUseHint] write, the working grid has
    a cell. *)
Lemma original_empty_in_range b row col orow :
  wf (original b) → original b !! row = Some orow →
  negb (bool_decide (orow !! col = Some 0)) = false →
  (row < 9)%nat ∧ (col < 9)%nat.
Proof.
  intros Hwf Horow Hz. apply negb_false_iff, bool_decide_eq_true in Hz.
  apply (cell_lt (original b) row col 0 Hwf). by rewrite (cell_row _ _ _ orow).
Qed.

(** C5, as the code has it. When a placement or a hint makes every cell
    of the working grid equal the solution, the operation reports
    [finished] and sets the finished flag of the human; it leaves the
    session running, with [ended] false and the result and the rating
    delta as they were.  The session ends, as a win with delta +25, when
    [playerFinish] is then called. *)
Theorem completing_move_sets_flag_only
    (a : Attempt) (b b' : Battle) (fin : bool) :
  wf (original b) → wf (playerBoard b) →
  performs a b b' fin → all_match b' →
  fin = true ∧ playerFinished b' = true ∧
  ended b' = false ∧ result b' = result b ∧ eloDelta b' = eloDelta b ∧
  ∀ cb e, ∃ b'' e', playerFinish cb (Some b') e = (Some b'', e') ∧
    ended b'' = true ∧ result b'' = Some win ∧ eloDelta b'' = 25.
Proof.
  intros Hworig Hwboard Hperf Hmatch.
  assert (fin = true ∧ playerFinished b' = true ∧ ended b' = false ∧
          result b' = result b ∧ eloDelta b' = eloDelta b) as Hflags.
  { destruct a as [row col num|row col];
      unfold performs, playerPlace, playerUseHint in Hperf; cbv zeta in Hperf.
    - destruct Hperf as [ok Hperf].
      destruct (ended b || playerFinished b) eqn:Hguard; [done|].
      apply orb_false_iff in Hguard as [Hended _].
      destruct (original b !! row) as [orow|] eqn:Horow; [|done].
      destruct (negb (bool_decide (orow !! col = Some 0))) eqn:Hclue; [done|].
      destruct (original_empty_in_range b row col orow Hworig Horow Hclue)
        as [Hr Hc].
      destruct (bool_decide (Some num = cell (solution b) row col)) eqn:Hcorrect.
      + match type of Hperf with context [allFilled ?x] =>
          destruct (allFilled x) eqn:Hall end.
        * by simplify_eq/=.
        * injection Hperf as _ <- <-. apply allFilled_true in Hmatch.
          assert (true = false) by (rewrite <- Hmatch; exact Hall). done.
      + apply bool_decide_eq_false in Hcorrect.
        match type of Hperf with context [if ?c then set_aiHints _ _ else _] =>
          destruct c end;
          injection Hperf as _ <- <-; destruct Hcorrect;
          specialize (Hmatch row col Hr Hc); cbn in Hmatch;
          by rewrite cell_set_cell_eq in Hmatch.
    - destruct (ended b || playerFinished b) eqn:Hguard; [done|].
      apply orb_false_iff in Hguard as [Hended _].
      destruct (playerHints b <=? 0); [done|].
      destruct (original b !! row) as [orow|] eqn:Horow; [|done].
      destruct (negb (bool_decide (orow !! col = Some 0))); [done|].
      destruct (bool_decide (cell (playerBoard b) row col
                             = cell (solution b) row col)); [done|].
      match type of Hperf with context [allFilled ?x] =>
        destruct (allFilled x) eqn:Hall end.
      + injection Hperf as <- <-. cbn. by destruct (cell (solution b) row col).
      + injection Hperf as <- <-. apply allFilled_true in Hmatch.
        assert (true = false) by (rewrite <- Hmatch; exact Hall). done. }
  destruct Hflags as (? & ? & Hended & ? & ?). split_and!; try done.
  intros cb e. by apply playerFinish_wins.
Qed.

Lemma completing_move_sets_flag_only_witness :
  let b := the_battle demo_one_left in
  let b' := the_battle demo_completed in
  wf (original b) ∧ wf (playerBoard b) ∧
  performs (TryPlace 8 3 9) b b' true ∧ all_match b' ∧
  (true = true ∧ playerFinished b' = true ∧
   ended b' = false ∧ result b' = result b ∧ eloDelta b' = eloDelta b ∧
   ∀ cb e, ∃ b'' e', playerFinish cb (Some b') e = (Some b'', e') ∧
     ended b'' = true ∧ result b'' = Some win ∧ eloDelta b'' = 25).
Proof.
  intros b b'.
  assert (wf (original b)) as H1
    by (split; vm_compute; [reflexivity | repeat constructor]).
  assert (wf (playerBoard b)) as H2
    by (split; vm_compute; [reflexivity | repeat constructor]).
  assert (performs (TryPlace 8 3 9) b b' true) as H3
    by (exists true; vm_compute; reflexivity).
  assert (all_match b') as H4
    by (apply allFilled_true; vm_compute; reflexivity).
  exact (conj H1 (conj H2 (conj H3 (conj H4
    (completing_move_sets_flag_only (TryPlace 8 3 9) b b' true H1 H2 H3 H4))))).
Defined.

(** C5, as the specification states it, fails: the placement that
    completes the grid reports [finished] and sets the flag, and the
    session is still running, without a result. *)
Lemma completing_move_leaves_session_running :
  playerPlace 8 3 9 demo_one_left
  = Return (Some (mkPlaceResult true true)) demo_completed ∧
  allFilled <$> demo_completed = Some true ∧
  playerFinished <$> demo_completed = Some true ∧
  ended <$> demo_completed = Some false ∧
  result <$> demo_completed = Some None ∧
  eloDelta <$> demo_completed = Some 0.
Proof. split_and!; vm_compute; reflexivity. Qed.

(** C6 fails on the code: when the human has finished and the session
    has not ended yet, [playerErase] still clears a cell of the working
    grid and takes one off the fill counter, while [playerPlace] and
    [playerUseHint] are guarded by the finished flag. *)
Theorem erase_after_finished_mutates :
  playerFinished <$> demo_completed = Some true ∧
  ended <$> demo_completed = Some false ∧
  (λ b, cell (playerBoard b) 0 2) <$> demo_completed = Some (Some 9) ∧
  playerCellsFilled <$> demo_completed = Some 36 ∧
  rejected (TryPlace 0 2 1) demo_completed ∧
  rejected (TryHint 0 2) demo_completed ∧
  (λ b, cell (playerBoard b) 0 2)
    <$> battle_after (playerErase 0 2 demo_completed) = Some (Some 0) ∧
  playerCellsFilled
    <$> battle_after (playerErase 0 2 demo_completed) = Some 35 ∧
  playerFinished
    <$> battle_after (playerErase 0 2 demo_completed) = Some true.
Proof. split_and!; vm_compute; reflexivity. Qed.

(** ** The outcome *)

Lemma Qltb_true x y : Qltb x y = true ↔ (x < y)%Q.
Proof.
  unfold Qltb. rewrite negb_true_iff. split.
  - intros H. apply Qnot_le_lt. intros Hle.
    apply Qle_bool_iff in Hle. congruence.
  - intros H. destruct (Qle_bool y x) eqn:E; [|done].
    apply Qle_bool_iff in E. by apply Qlt_not_le in H.
Qed.

Lemma Qltb_false x y : Qltb x y = false ↔ (y <= x)%Q.
Proof.
  unfold Qltb. rewrite negb_false_iff. apply Qle_bool_iff.
Qed.

(** With a positive total, comparing completion fractions is comparing
    the fill counters. *)
Lemma fraction_lt p q total :
  0 < total → (fraction p total < fraction q total)%Q ↔ p < q.
Proof.
  intros Htotal. unfold fraction, Qdiv, Qmult, Qinv, Qlt, inject_Z.
  destruct total as [|t|t]; [lia| |lia]. cbn. nia.
Qed.

Lemma endBattle_timeout cb b e :
  ended b = false → playerFinished b = false →
  (endBattle "timeout" cb b e).1 =
    let ours := fraction (playerCellsFilled b) (aiTotalCells b) in
    let theirs := fraction (aiCellsFilled b) (aiTotalCells b) in
    if Qltb theirs ours
    then set_eloDelta 15 (set_result (Some win) (set_ended true b))
    else if Qltb ours theirs
    then set_eloDelta (-15) (set_result (Some lose) (set_ended true b))
    else set_eloDelta 0 (set_result (Some draw) (set_ended true b)).
Proof.
  intros Hended Hfin. unfold endBattle. rewrite Hended.
  cbn [playerFinished set_ended]. rewrite Hfin. cbn.
  by repeat case_match.
Qed.

Lemma endBattle_quit cb b e :
  ended b = false → playerFinished b = false →
  (endBattle "quit" cb b e).1
  = set_eloDelta (-25) (set_result (Some lose) (set_ended true b)).
Proof.
  intros Hended Hfin. unfold endBattle. rewrite Hended.
  cbn [playerFinished set_ended]. rewrite Hfin. by cbn.
Qed.

Lemma endBattle_finished reason cb b e :
  ended b = false → playerFinished b = true →
  (endBattle reason cb b e).1
  = set_eloDelta 25 (set_result (Some win) (set_ended true b)).
Proof.
  intros Hended Hfin. unfold endBattle. rewrite Hended.
  cbn [playerFinished set_ended]. rewrite Hfin.
  by rewrite orb_true_r.
Qed.

(** C7, as the code has it. The total number of cells to fill is
    positive, so that the fractions are numbers; they are then ordered as
    the fill counters are.  When the human's finished flag is not set: on
    "clock expired" the side with the higher completion fraction wins,
    with delta +15 for the human and -15 against, and an exact tie is a
    draw with delta 0; on "forfeit" the result is lose with delta -25,
    whatever the progress of either side.  When the finished flag is set,
    every reason, "clock expired" and "forfeit" among them, resolves to
    win with delta +25, whatever the progress of either side. *)
Theorem timeout_and_quit_outcomes (cb : Callbacks) (b : Battle) (e : Env) :
  ended b = false → 0 < aiTotalCells b →
  let ours := fraction (playerCellsFilled b) (aiTotalCells b) in
  let theirs := fraction (aiCellsFilled b) (aiTotalCells b) in
  let bt := (endBattle "timeout" cb b e).1 in
  (playerFinished b = false →
   ((theirs < ours)%Q ↔ aiCellsFilled b < playerCellsFilled b) ∧
   ((theirs < ours)%Q → result bt = Some win ∧ eloDelta bt = 15) ∧
   ((ours < theirs)%Q → result bt = Some lose ∧ eloDelta bt = -15) ∧
   ((ours == theirs)%Q → result bt = Some draw ∧ eloDelta bt = 0) ∧
   ended bt = true ∧
   ∃ bq eq, quitBattle cb (Some b) e = (Some bq, eq) ∧
     ended bq = true ∧ result bq = Some lose ∧ eloDelta bq = -25) ∧
  (playerFinished b = true →
   (∀ reason,
      let br := (endBattle reason cb b e).1 in
      ended br = true ∧ result br = Some win ∧ eloDelta br = 25) ∧
   ∃ bq eq, quitBattle cb (Some b) e = (Some bq, eq) ∧
     ended bq = true ∧ result bq = Some win ∧ eloDelta bq = 25).
Proof.
  intros Hended Htotal. cbv zeta. split; intros Hfin.
  - split; [by apply fraction_lt|].
    rewrite endBattle_timeout by done. cbv zeta.
    set (ours := fraction (playerCellsFilled b) (aiTotalCells b)).
    set (theirs := fraction (aiCellsFilled b) (aiTotalCells b)).
    split_and!.
    + intros Hlt. apply Qltb_true in Hlt. by rewrite Hlt.
    + intros Hlt. assert (Qltb theirs ours = false) as ->
        by (apply Qltb_false; by apply Qlt_le_weak).
      apply Qltb_true in Hlt. by rewrite Hlt.
    + intros Heq.
      assert (Qltb theirs ours = false) as ->
        by (apply Qltb_false; rewrite Heq; apply Qle_refl).
      assert (Qltb ours theirs = false) as ->
        by (apply Qltb_false; rewrite Heq; apply Qle_refl).
      done.
    + by repeat case_match.
    + unfold quitBattle. rewrite Hended.
      pose proof (endBattle_quit cb b e Hended Hfin) as Hq.
      destruct (endBattle "quit" cb b e) as [bq eq]. cbn in Hq. subst bq.
      by eexists _, _.
  - split.
    + intros reason. by rewrite (endBattle_finished reason cb b e Hended Hfin).
    + unfold quitBattle. rewrite Hended.
      pose proof (endBattle_finished "quit" cb b e Hended Hfin) as Hq.
      destruct (endBattle "quit" cb b e) as [bq eq]. cbn in Hq. subst bq.
      by eexists _, _.
Qed.

Lemma timeout_and_quit_outcomes_witness :
  let b := the_battle demo_three_mistakes in
  let b' := the_battle demo_completed in
  (ended b = false ∧ 0 < aiTotalCells b ∧ playerFinished b = false ∧
   let ours := fraction (playerCellsFilled b) (aiTotalCells b) in
   let theirs := fraction (aiCellsFilled b) (aiTotalCells b) in
   let bt := (endBattle "timeout" all_callbacks b demo_env).1 in
   ((theirs < ours)%Q ↔ aiCellsFilled b < playerCellsFilled b) ∧
   ((theirs < ours)%Q → result bt = Some win ∧ eloDelta bt = 15) ∧
   ((ours < theirs)%Q → result bt = Some lose ∧ eloDelta bt = -15) ∧
   ((ours == theirs)%Q → result bt = Some draw ∧ eloDelta bt = 0) ∧
   ended bt = true ∧
   ∃ bq eq, quitBattle all_callbacks (Some b) demo_env = (Some bq, eq) ∧
     ended bq = true ∧ result bq = Some lose ∧ eloDelta bq = -25) ∧
  (ended b' = false ∧ 0 < aiTotalCells b' ∧ playerFinished b' = true ∧
   (∀ reason,
      let br := (endBattle reason all_callbacks b' demo_env).1 in
      ended br = true ∧ result br = Some win ∧ eloDelta br = 25) ∧
   ∃ bq eq, quitBattle all_callbacks (Some b') demo_env = (Some bq, eq) ∧
     ended bq = true ∧ result bq = Some win ∧ eloDelta bq = 25).
Proof.
  intros b b'.
  assert (ended b = false) as H1 by (vm_compute; reflexivity).
  assert (0 < aiTotalCells b) as H2 by (vm_compute; reflexivity).
  assert (playerFinished b = false) as H3 by (vm_compute; reflexivity).
  assert (ended b' = false) as H1' by (vm_compute; reflexivity).
  assert (0 < aiTotalCells b') as H2' by (vm_compute; reflexivity).
  assert (playerFinished b' = true) as H3' by (vm_compute; reflexivity).
  split.
  - exact (conj H1 (conj H2 (conj H3
      (proj1 (timeout_and_quit_outcomes all_callbacks b demo_env H1 H2) H3)))).
  - exact (conj H1' (conj H2' (conj H3'
      (proj2 (timeout_and_quit_outcomes all_callbacks b' demo_env H1' H2') H3')))).
Defined.

(** C7, as the specification states it, fails when the human's finished
    flag is set and the session has not ended: a forfeit is then
    resolved as a win with delta +25, and so is an expired clock. *)
Lemma quit_after_completion_is_win :
  playerFinished <$> demo_completed = Some true ∧
  ended <$> demo_completed = Some false ∧
  result <$> (quitBattle all_callbacks demo_completed demo_env).1
  = Some (Some win) ∧
  eloDelta <$> (quitBattle all_callbacks demo_completed demo_env).1
  = Some 25 ∧
  (λ b, result (endBattle "timeout" all_callbacks b demo_env).1)
    <$> demo_completed = Some (Some win) ∧
  (λ b, eloDelta (endBattle "timeout" all_callbacks b demo_env).1)
    <$> demo_completed = Some 25.
Proof. split_and!; vm_compute; reflexivity. Qed.

(** ** The session ends once *)

Lemma resolutions_emit eff e :
  resolutions (emit eff e)
  = (resolutions e + if is_resolution eff then 1 else 0)%nat.
Proof.
  unfold resolutions, emit. cbn [effects].
  rewrite List.filter_app, length_app. cbn. by destruct (is_resolution eff).
Qed.

Lemma budget_ended b b' : ended b' = ended b → budget b' = budget b.
Proof. unfold budget. by intros ->. Qed.

(** A step that starts after changes that neither end the session nor
    resolve the outcome. *)
Lemma step_ok_after b e b1 e1 r :
  ended b = false → ended b1 = false → resolutions e1 = resolutions e →
  step_ok b1 e1 r → step_ok b e r.
Proof.
  unfold step_ok, budget. intros Hb Hb1 He [Hle _]. rewrite Hb.
  rewrite Hb1, He in Hle. split; [done|]. congruence.
Qed.

Lemma endBattle_step reason cb b e : step_ok b e (endBattle reason cb b e).
Proof.
  unfold step_ok, endBattle. destruct (ended b) eqn:Hended; cbn [fst snd].
  { split; [lia|done]. }
  split; [|done].
  assert (∀ b1, ended b1 = true → budget b1 = 0%nat) as Hbudget
    by (intros b1 H; unfold budget; by rewrite H).
  rewrite Hbudget by (by repeat case_match).
  unfold budget. rewrite Hended.
  destruct (onBattleEnd cb); rewrite !resolutions_emit; cbn; lia.
Qed.

Lemma scheduleNextAICell_step b e : step_ok b e (scheduleNextAICell b e).
Proof.
  split.
  - destruct (scheduleNextAICell_spec b e) as [Hb He].
    rewrite (budget_ended _ _ Hb).
    assert (resolutions (scheduleNextAICell b e).2 = resolutions e) as ->;
      [|done].
    unfold resolutions. destruct He as [->|(id & d & -> & _)]; [done|].
    rewrite List.filter_app, length_app. cbn. lia.
  - intros Hended. unfold scheduleNextAICell. by rewrite Hended.
Qed.

Lemma timerTick_step cb b e : step_ok b e (timerTick cb b e).
Proof.
  unfold timerTick. destruct (ended b) eqn:Hended.
  { split; [cbn [fst snd]; lia|done]. }
  set (b1 := set_timeRemaining _ b).
  set (e1 := if onTimerTick cb then _ else e).
  assert (resolutions e1 = resolutions e) as He1.
  { unfold e1. destruct (onTimerTick cb); [|done].
    rewrite resolutions_emit. cbn. lia. }
  apply (step_ok_after b e b1 e1); try done.
  destruct (timeRemaining b1 <=? 0); [apply endBattle_step|].
  split; [cbn [fst snd]; lia|done].
Qed.

Lemma aiAction_step cb b e : step_ok b e (aiAction cb b e).
Proof.
  unfold aiAction. destruct (ended b) eqn:Hended.
  { split; [cbn [fst snd]; lia|done]. }
  cbv zeta. cbn [math_random].
  set (e0 := mkEnv _ _ _ _ _).
  assert (resolutions e0 = resolutions e) as He0 by done.
  clearbody e0.
  destruct (Qltb _ _).
  - match goal with |- context [Z.rem ?x 3 =? 0] => destruct (Z.rem x 3 =? 0) end.
    + eapply (step_ok_after b e); [done| | |apply scheduleNextAICell_step];
        [done|].
      destruct (onAIGainsHint cb); [|done].
      rewrite resolutions_emit. cbn. lia.
    + by eapply (step_ok_after b e); [done| | |apply scheduleNextAICell_step].
  - set (e1 := if onAIProgress cb then _ else e0).
    assert (resolutions e1 = resolutions e) as He1.
    { unfold e1. destruct (onAIProgress cb); [|done].
      rewrite resolutions_emit. cbn. lia. }
    clearbody e1.
    match goal with |- context [if ?c then _ else scheduleNextAICell _ _] =>
      destruct c end.
    + match goal with |- context [if negb ?c then _ else _] => destruct c end;
        cbn [negb].
      * match goal with |- step_ok _ _ (?b1, _) =>
          apply (step_ok_after b e b1 e1) end; try done.
      * by eapply (step_ok_after b e); [done| | |apply endBattle_step].
    + by eapply (step_ok_after b e); [done| | |apply scheduleNextAICell_step].
Qed.

(** The operations of the human on a session that exists: they leave a
    session, do not end it, and do nothing once it has ended. *)
Lemma playerPlace_step row col num b :
  ∃ b', battle_after (playerPlace row col num (Some b)) = Some b' ∧
    ended b' = ended b ∧ (ended b = true → b' = b).
Proof.
  unfold playerPlace. destruct (ended b) eqn:Hended; cbn [orb].
  { by exists b. }
  repeat case_match; cbn [battle_after]; eexists; split; try done;
    by rewrite <- Hended.
Qed.

Lemma playerUseHint_step row col b :
  ∃ b', battle_after (playerUseHint row col (Some b)) = Some b' ∧
    ended b' = ended b ∧ (ended b = true → b' = b).
Proof.
  unfold playerUseHint. destruct (ended b) eqn:Hended; cbn [orb].
  { by exists b. }
  repeat case_match; cbn [battle_after]; eexists; split; try done;
    by rewrite <- Hended.
Qed.

Lemma playerErase_step row col b :
  ∃ b', battle_after (playerErase row col (Some b)) = Some b' ∧
    ended b' = ended b ∧ (ended b = true → b' = b).
Proof.
  unfold playerErase. destruct (ended b) eqn:Hended.
  { by exists b. }
  repeat case_match; cbn [battle_after]; eexists; split; try done;
    by rewrite <- Hended.
Qed.

Lemma resolutions_set_now t e : resolutions (set_now t e) = resolutions e.
Proof. done. Qed.

Lemma fire_step ev t b e :
  ∃ b' e', fire ev t (Some b) e = (Some b', e') ∧
    (resolutions e' + budget b' ≤ resolutions e + budget b)%nat ∧
    (ended b = true → b' = b ∧ effects e' = effects e).
Proof.
  assert (∀ r, step_ok b (set_now t e) r →
            ∃ b' e', r = (b', e') ∧
              (resolutions e' + budget b' ≤ resolutions e + budget b)%nat ∧
              (ended b = true → b' = b ∧ effects e' = effects e)) as Hstep.
  { intros [b' e'] [Hle Hfrozen]. exists b', e'. split_and!; try done.
    intros Hended. by injection (Hfrozen Hended) as -> ->. }
  assert (∀ battle', (∃ b', battle' = Some b' ∧ ended b' = ended b ∧
                        (ended b = true → b' = b)) →
            ∃ b' e', (battle', set_now t e) = (Some b', e') ∧
              (resolutions e' + budget b' ≤ resolutions e + budget b)%nat ∧
              (ended b = true → b' = b ∧ effects e' = effects e)) as Hop.
  { intros battle' (b' & -> & Hb' & Hfrozen). exists b', (set_now t e).
    rewrite (budget_ended _ _ Hb'). split_and!; try done. intros Hended.
    by split; [apply Hfrozen|]. }
  destruct ev as [cb|cb|row col num|row col|row col|cb|cb]; unfold fire.
  - destruct (Hstep _ (timerTick_step cb b (set_now t e)))
      as (b' & e' & -> & ?). by exists b', e'.
  - destruct (Hstep _ (aiAction_step cb b (set_now t e)))
      as (b' & e' & -> & ?). by exists b', e'.
  - apply Hop, playerPlace_step.
  - apply Hop, playerUseHint_step.
  - apply Hop, playerErase_step.
  - unfold playerFinish. destruct (ended b) eqn:Hended.
    { exists b, (set_now t e). by split_and!. }
    set (b1 := set_playerFinished true b).
    destruct (Hstep (endBattle "player_finished" cb b1 (set_now t e)))
      as (b' & e' & -> & Hle & _).
    { apply (step_ok_after b _ b1 (set_now t e)); try done.
      apply endBattle_step. }
    exists b', e'. by split_and!.
  - unfold quitBattle. destruct (ended b) eqn:Hended.
    { exists b, (set_now t e). by split_and!. }
    destruct (Hstep _ (endBattle_step "quit" cb b (set_now t e)))
      as (b' & e' & -> & Hle & _).
    exists b', e'. by split_and!.
Qed.

(** C8. Over any sequence of clock ticks, opponent actions and
    operations of the human, a session resolves its outcome (assigning
    result and rating delta and handing them over) at most once, and
    only by ending; once it has ended, every such event and every
    further call of [endBattle] leaves the battle state as it is and
    emits nothing. *)
Theorem session_ends_once (evs : list (Event * Z)) (b : Battle) (e : Env) :
  ∃ b' e', run evs (Some b) e = (Some b', e') ∧
    (resolutions e' + budget b' ≤ resolutions e + budget b)%nat ∧
    (ended b = true →
       b' = b ∧ effects e' = effects e ∧
       ∀ reason cb, endBattle reason cb b e' = (b, e')).
Proof.
  revert b e. induction evs as [|[ev t] evs IH]; intros b e; cbn [run].
  - exists b, e. split_and!; try done. intros Hended. split_and!; try done.
    intros reason cb. unfold endBattle. by rewrite Hended.
  - destruct (fire_step ev t b e) as (b1 & e1 & -> & Hle1 & Hfrozen1).
    destruct (IH b1 e1) as (b' & e' & -> & Hle & Hfrozen).
    exists b', e'. split_and!; [done|lia|].
    intros Hended. destruct (Hfrozen1 Hended) as [-> He1].
    destruct (Hfrozen Hended) as (-> & He' & Hend).
    split_and!; [done|congruence|done].
Qed.

Lemma session_ends_once_witness :
  let b := the_battle demo_ended in
  let evs := [(Tick all_callbacks, 1000); (Place 0 2 9, 2000);
              (AIAction all_callbacks, 3000); (Erase 0 2, 4000);
              (Finish all_callbacks, 5000); (Quit all_callbacks, 6000)] in
  ended b = true ∧
  ∃ b' e', run evs (Some b) demo_env = (Some b', e') ∧
    (resolutions e' + budget b' ≤ resolutions demo_env + budget b)%nat ∧
    (ended b = true →
       b' = b ∧ effects e' = effects demo_env ∧
       ∀ reason cb, endBattle reason cb b e' = (b, e')).
Proof.
  intros b evs. split; [vm_compute; reflexivity|].
  apply (session_ends_once evs b demo_env).
Defined.

(** * Further properties of the puzzle engine *)

(** ** Any source of numbers of [0, 1) *)

Lemma rng_call_fair w x w' :
  fair w → rng_call w = (x, w') → unit_interval x ∧ fair w'.
Proof.
  intros Hfair. unfold rng_call.
  destruct (rng w) as [|s] eqn:Hrng.
  - intros [= <- <-]. split; [apply Hfair|]. intros n. apply Hfair.
  - pose proof (mulberry32_next_unit s) as Hu.
    destruct (mulberry32_next s) as [y s']. intros [= <- <-].
    split; [apply Hu|]. intros n. apply Hfair.
Qed.

Section any_source.
(** A property of worlds that every draw keeps and under which every
    draw lies in [0, 1). *)
Variable good : World → Prop.
Hypothesis good_draw :
  ∀ w x w', good w → rng_call w = (x, w') → unit_interval x ∧ good w'.

Lemma shuffle_from_good {A} i (arr arr' : list A) w w' :
  good w → shuffle_from i arr w = (arr', w') → arr' ≡ₚ arr ∧ good w'.
Proof.
  revert arr w. induction i as [|i IH]; intros arr w Hw; cbn.
  - by intros [= <- <-].
  - destruct (rng_call w) as [x w1] eqn:E.
    destruct (good_draw _ _ _ Hw E) as [_ Hw1].
    intros H. destruct (IH _ _ Hw1 H) as [Hperm ?].
    by rewrite swap_Permutation in Hperm.
Qed.

Lemma fill_nums_good rec (fuel : nat) row col nums g w :
  (∀ g w, fill_inv g → (count_empty g < fuel)%nat → good w →
          fill_good good g (rec g w)) →
  fill_inv g → cell g row col = Some 0 → (count_empty g ≤ fuel)%nat →
  Forall (λ num, 1 <= num <= 9) nums → good w →
  ∃ b g' w', fill_nums rec row col nums g w = Some (b, g', w') ∧ good w' ∧
    (b = false → g' = g ∧
       ∀ s v, completion g s → cell s row col = Some v → v ∉ nums) ∧
    (b = true → solved g' ∧ extends g g').
Proof.
  intros Hrec Hinv Hz Hfuel. revert w.
  destruct (cell_lt _ _ _ _ (proj1 Hinv) Hz) as [Hr Hc].
  induction nums as [|num rest IH]; intros w Hnums Hw; cbn.
  - exists false, g, w. split_and!; try done.
    intros _. split; [done|]. intros; apply not_elem_of_nil.
  - apply Forall_cons in Hnums as [Hnum Hrest].
    destruct (isValid g row col num) eqn:Hval.
    + destruct (Hrec (set_cell g row col num) w) as
        (b1 & g1 & w1 & -> & Hw1 & Hfalse & Htrue);
        [by apply fill_inv_set_cell| |done|].
      { pose proof (count_empty_set_cell g row col num (proj1 Hinv) Hz). lia. }
      destruct b1.
      * destruct Htrue as [Hsol Hext]; [done|].
        exists true, g1, w1. split_and!; try done.
        intros _. split; [done|]. by eapply extends_set_cell.
      * destruct Hfalse as [-> Hnone]; [done|].
        rewrite (set_cell_restore g row col 0 num Hz).
        destruct (IH w1 Hrest Hw1) as (b & g' & w' & -> & ? & Hf & Ht).
        exists b, g', w'. split_and!; try done.
        intros Hb. destruct (Hf Hb) as [-> Hf']. split; [done|].
        intros s v Hs Hv Hin. apply elem_of_cons in Hin as [->|Hin].
        -- apply (Hnone s). by apply completion_set_cell; [apply Hinv|..].
        -- by eapply Hf'.
    + destruct (IH w Hrest Hw) as (b & g' & w' & -> & ? & Hf & Ht).
      exists b, g', w'. split_and!; try done.
      intros Hb. destruct (Hf Hb) as [-> Hf']. split; [done|].
      intros s v Hs Hv Hin. apply elem_of_cons in Hin as [->|Hin].
      * rewrite (completion_isValid g s row col num) in Hval; done.
      * by eapply Hf'.
Qed.

Lemma fillGrid_good fuel g w :
  fill_inv g → (count_empty g < fuel)%nat → good w →
  fill_good good g (fillGrid fuel g w).
Proof.
  revert g w. induction fuel as [|fuel IH]; intros g w Hinv Hfuel Hw; [lia|].
  unfold fill_good. cbn [fillGrid].
  destruct (first_empty g) as [[row col]|] eqn:Hfirst.
  - apply first_empty_Some in Hfirst as (Hr & Hc & Hz).
    destruct (shuffle [1; 2; 3; 4; 5; 6; 7; 8; 9] w) as [nums w1] eqn:Hsh.
    apply shuffle_from_good in Hsh as [Hperm Hw1]; [|done].
    destruct (fill_nums_good (fillGrid fuel) fuel row col nums g w1)
      as (b & g' & w' & -> & ? & Hf & Ht); try done; [lia| |].
    { rewrite Hperm. apply digits_range. }
    exists b, g', w'. split_and!; try done.
    intros Hb. destruct (Hf Hb) as [-> Hf']. split; [done|].
    intros s Hs.
    destruct (solved_cell s row col (proj1 Hs) Hr Hc) as (v & Hv & Hrange).
    apply (Hf' s v Hs Hv). rewrite Hperm. by apply digit_elem.
  - exists true, g, w. split_and!; try done.
    intros _. split; [|apply extends_refl].
    destruct Hinv as (? & ? & ?). split_and!; try done.
    by apply first_empty_None.
Qed.
End any_source.

(** ** [solve] *)

(** On a 9×9 grid with cells between 0 and 9 and no conflict among the
    cells given, [solve] returns a completion of the grid whenever one
    exists, and [null] exactly when none exists. *)
Theorem solve_sound_and_complete (g : Grid) (w : World) :
  fill_inv g → fair w →
  ∃ res w', solve g w = Some (res, w') ∧ fair w' ∧
    match res with
    | Some s => completion g s
    | None => ∀ s, ¬ completion g s
    end.
Proof.
  intros Hinv Hfair. unfold solve. rewrite cloneGrid_id.
  destruct (fillGrid_good fair rng_call_fair (fuel_for g) g w)
    as (b & g' & w' & -> & Hw' & Hf & Ht); [done|unfold fuel_for; lia|done|].
  destruct b.
  - exists (Some g'), w'. split_and!; try done. by apply Ht.
  - exists None, w'. split_and!; try done. by apply Hf.
Qed.

Lemma fair_idle_world : fair idle_world.
Proof. intros n. split; vm_compute; congruence. Qed.

Lemma solve_sound_and_complete_witness :
  fill_inv createEmptyGrid ∧ fair idle_world ∧
  ∃ res w', solve createEmptyGrid idle_world = Some (res, w') ∧ fair w' ∧
    match res with
    | Some s => completion createEmptyGrid s
    | None => ∀ s, ¬ completion createEmptyGrid s
    end.
Proof.
  split; [apply fill_inv_createEmptyGrid|].
  split; [intros n; split; vm_compute; congruence|].
  apply (solve_sound_and_complete createEmptyGrid idle_world).
  - apply fill_inv_createEmptyGrid.
  - intros n; split; vm_compute; congruence.
Defined.

(** [solve] does not check the cells it is given: a 9×9 grid without
    empty cells comes back as it is, whether or not it is a valid
    solution, and nothing is drawn. *)
Theorem solve_full_grid_unchecked (g : Grid) (w : World) :
  wf g → full g → solve g w = Some (Some g, w).
Proof.
  intros _ Hfull. unfold solve, fuel_for. rewrite cloneGrid_id.
  cbn [fillGrid]. by rewrite full_first_empty.
Qed.

Lemma solve_full_grid_unchecked_witness :
  wf (replicate 9 (replicate 9 5)) ∧
  full (replicate 9 (replicate 9 5)) ∧
  ¬ valid_grid (replicate 9 (replicate 9 5)) ∧
  solve (replicate 9 (replicate 9 5)) idle_world
  = Some (Some (replicate 9 (replicate 9 5)), idle_world).
Proof.
  assert (full (replicate 9 (replicate 9 5))) as Hfull.
  { intros r c Hr Hc. apply first_empty_None; [|done..].
    vm_compute. reflexivity. }
  assert (wf (replicate 9 (replicate 9 5))) as Hwf
    by (split; [reflexivity | repeat constructor]).
  split; [exact Hwf|]. split; [exact Hfull|]. split.
  - intros H. apply (H 0%nat 0%nat 0%nat 1%nat 5); try lia; try done. by left.
  - apply (solve_full_grid_unchecked _ idle_world Hwf Hfull).
Defined.

(** ** [countSolutions] counts the completions *)

Lemma completion_of_set_cell g s r c v :
  cell g r c = Some 0 → completion (set_cell g r c v) s → completion g s.
Proof. intros Hz [Hs Hext]. split; [done|]. by eapply extends_set_cell. Qed.

Lemma completion_value g s r c v :
  wf g → (r < 9)%nat → (c < 9)%nat → v ≠ 0 →
  completion (set_cell g r c v) s → cell s r c = Some v.
Proof.
  intros Hwf Hr Hc Hv [_ Hext]. apply Hext; try done.
  by apply cell_set_cell_eq.
Qed.

Lemma solve_nums_exact rec (fuel : nat) limit row col nums g count :
  (∀ g count, fill_inv g → (count_empty g < fuel)%nat →
     ∃ count' sols, rec g count = Some (g, count') ∧
       solve_exact limit g count count' sols) →
  fill_inv g → cell g row col = Some 0 → (count_empty g ≤ fuel)%nat →
  Forall (λ num, 1 <= num <= 9) nums → NoDup nums →
  ∃ count' sols,
    solve_nums rec row col nums g count = Some (g, count') ∧
    NoDup sols ∧ Forall (completion g) sols ∧
    count' = count + Z.of_nat (length sols) ∧
    (count <= limit → count' <= limit) ∧
    Forall (λ s, ∃ v, v ∈ nums ∧ cell s row col = Some v) sols ∧
    (count' < limit →
       ∀ s v, completion g s → cell s row col = Some v → v ∈ nums → s ∈ sols).
Proof.
  intros Hrec Hinv Hz Hfuel. revert count.
  destruct (cell_lt _ _ _ _ (proj1 Hinv) Hz) as [Hr Hc].
  induction nums as [|num rest IH]; intros count Hnums Hnd; cbn.
  - exists count, []. split_and!; try done; try constructor; [cbn; lia|].
    intros _ s v _ _ Hin. by apply elem_of_nil in Hin.
  - apply Forall_cons in Hnums as [Hnum Hrest].
    apply NoDup_cons in Hnd as [Hfresh Hnd].
    destruct (isValid g row col num) eqn:Hval.
    + destruct (Hrec (set_cell g row col num) count)
        as (c1 & sols1 & -> & Hnd1 & Hcomp1 & Hc1 & Hlim1 & Hall1).
      { by apply fill_inv_set_cell. }
      { pose proof (count_empty_set_cell g row col num (proj1 Hinv) Hz). lia. }
      rewrite (set_cell_restore g row col 0 num Hz).
      destruct (IH c1 Hrest Hnd)
        as (c2 & sols2 & -> & Hnd2 & Hcomp2 & Hc2 & Hlim2 & Hval2 & Hall2).
      assert (Forall (λ s, cell s row col = Some num) sols1) as Hval1.
      { eapply Forall_impl; [exact Hcomp1|]. intros s Hs.
        apply (completion_value g s row col num); try done; [apply Hinv|lia]. }
      exists c2, (sols1 ++ sols2). split_and!; try done.
      * apply NoDup_app. split_and!; try done. intros s Hs1 Hs2.
        eapply Forall_forall in Hval1; [|done].
        eapply Forall_forall in Hval2 as (v & Hv & Hcell); [|done].
        destruct Hfresh. congruence.
      * apply Forall_app. split; [|done].
        eapply Forall_impl; [exact Hcomp1|]. intros s.
        by apply completion_of_set_cell.
      * rewrite length_app. lia.
      * lia.
      * apply Forall_app. split.
        -- eapply Forall_impl; [exact Hval1|]. intros s Hs.
           exists num. split; [left|done].
        -- eapply Forall_impl; [exact Hval2|]. intros s (v & Hv & Hs).
           exists v. split; [by right|done].
      * intros Hlt s v Hs Hv Hin. apply elem_of_app.
        apply elem_of_cons in Hin as [->|Hin].
        -- left. apply Hall1; [lia|].
           by apply completion_set_cell; [apply Hinv|..].
        -- right. by apply (Hall2 Hlt s v).
    + destruct (IH count Hrest Hnd)
        as (c2 & sols2 & -> & Hnd2 & Hcomp2 & Hc2 & Hlim2 & Hval2 & Hall2).
      exists c2, sols2. split_and!; try done.
      * eapply Forall_impl; [exact Hval2|]. intros s (v & Hv & Hs).
        exists v. split; [by right|done].
      * intros Hlt s v Hs Hv Hin. apply elem_of_cons in Hin as [->|Hin].
        -- rewrite (completion_isValid g s row col num) in Hval; done.
        -- by apply (Hall2 Hlt s v).
Qed.

Lemma digits_NoDup : NoDup [1; 2; 3; 4; 5; 6; 7; 8; 9].
Proof. apply (bool_decide_unpack _). vm_compute. exact I. Qed.

Lemma solve_count_exact fuel limit g count :
  fill_inv g → (count_empty g < fuel)%nat →
  ∃ count' sols, solve_count fuel limit g count = Some (g, count') ∧
    solve_exact limit g count count' sols.
Proof.
  revert g count.
  induction fuel as [|fuel IH]; intros g count Hinv Hfuel; [lia|].
  cbn [solve_count]. destruct (limit <=? count) eqn:Hlim.
  { exists count, []. split; [done|]. split_and!; try constructor; try done.
    - cbn; lia.
    - lia. }
  apply Z.leb_gt in Hlim.
  destruct (first_empty g) as [[row col]|] eqn:Hfirst.
  - apply first_empty_Some in Hfirst as (Hr & Hc & Hz).
    destruct (solve_nums_exact (solve_count fuel limit) fuel limit row col
                [1; 2; 3; 4; 5; 6; 7; 8; 9] g count)
      as (count' & sols & -> & Hnd & Hcomp & Hc' & Hle & _ & Hall);
      try done; [lia|apply digits_range|apply digits_NoDup|].
    exists count', sols. split; [done|]. split_and!; try done.
    intros Hlt s Hs.
    destruct (solved_cell s row col (proj1 Hs) Hr Hc) as (v & Hv & Hrange).
    apply (Hall Hlt s v); try done. by apply digit_elem.
  - apply first_empty_None in Hfirst.
    exists (count + 1), [g]. split; [done|].
    destruct Hinv as (Hwf & Hrange & Hvalid).
    assert (completion g g) as Hgg by (split; [done|apply extends_refl]).
    split_and!.
    + apply NoDup_singleton.
    + by apply Forall_singleton.
    + cbn; lia.
    + lia.
    + intros _ s Hs. apply list_elem_of_singleton. by apply completion_full.
Qed.

Lemma countSolutions_exact (g : Grid) (limit : Z) :
  fill_inv g → 0 <= limit →
  ∃ n sols, countSolutions g limit = Some n ∧
    NoDup sols ∧ Forall (completion g) sols ∧
    n = Z.of_nat (length sols) ∧ n <= limit ∧
    (n < limit → ∀ s, completion g s → s ∈ sols).
Proof.
  intros Hinv Hlimit. unfold countSolutions. rewrite cloneGrid_id.
  destruct (solve_count_exact (fuel_for g) limit g 0 Hinv)
    as (n & sols & -> & Hnd & Hcomp & Hn & Hle & Hall); [unfold fuel_for; lia|].
  exists n, sols. split_and!; try done; lia.
Qed.

(** On a 9×9 grid with cells between 0 and 9 and no conflict among the
    cells given, [countSolutions] returns the number of completions of the
    grid, capped at the limit: the completions counted are all different,
    and below the limit none is missed. *)
Theorem countSolutions_counts_completions (g : Grid) (limit : Z) :
  fill_inv g → 0 <= limit →
  ∃ n sols, countSolutions g limit = Some n ∧
    NoDup sols ∧ Forall (completion g) sols ∧
    n = Z.of_nat (length sols) ∧ n <= limit ∧
    (n < limit → ∀ s, completion g s → s ∈ sols).
Proof. apply countSolutions_exact. Qed.

Lemma countSolutions_counts_completions_witness :
  fill_inv createEmptyGrid ∧ 0 <= 2 ∧
  ∃ n sols, countSolutions createEmptyGrid 2 = Some n ∧
    NoDup sols ∧ Forall (completion createEmptyGrid) sols ∧
    n = Z.of_nat (length sols) ∧ n <= 2 ∧
    (n < 2 → ∀ s, completion createEmptyGrid s → s ∈ sols).
Proof.
  split; [apply fill_inv_createEmptyGrid|]. split; [lia|].
  apply (countSolutions_counts_completions createEmptyGrid 2);
    [apply fill_inv_createEmptyGrid | lia].
Defined.

(** The test [countSolutions(grid) !== 1] of [generate] is exact: on such
    a grid the counter answers 0 when there is no completion, 1 when
    there is exactly one, and 2 when there are two different ones. *)
Theorem uniqueness_test_exact (g : Grid) :
  fill_inv g →
  (countSolutions g 2 = Some 0 ↔ ∀ s, ¬ completion g s) ∧
  (countSolutions g 2 = Some 1 ↔
     ∃ s, completion g s ∧ ∀ s', completion g s' → s' = s) ∧
  (countSolutions g 2 = Some 2 ↔
     ∃ s1 s2, completion g s1 ∧ completion g s2 ∧ s1 ≠ s2).
Proof.
  intros Hinv.
  destruct (countSolutions_exact g 2 Hinv)
    as (n & sols & Hn & Hnd & Hcomp & Hlen & Hle & Hall); [lia|].
  rewrite Hn.
  assert (∀ s1 s2, completion g s1 → completion g s2 → s1 ≠ s2 → n = 2)
    as Htwo.
  { intros s1 s2 H1 H2 Hne.
    destruct (countSolutions_two g s1 s2 (proj1 Hinv) H1 H2 Hne)
      as (n' & Hn' & Hge). rewrite Hn in Hn'. injection Hn' as <-. lia. }
  split_and!; split.
  - intros [= ->] s Hs. destruct sols; cbn in Hlen; [|lia].
    by apply (Hall ltac:(lia)), elem_of_nil in Hs.
  - intros Hnone. destruct sols as [|s sols]; [by subst|].
    apply Forall_cons in Hcomp as [Hs _]. by destruct (Hnone s).
  - intros [= ->]. destruct sols as [|s [|s' sols]]; cbn in Hlen; try lia.
    exists s. apply Forall_cons in Hcomp as [Hcomp _]. split; [exact Hcomp|].
    intros s' Hs'. by apply (Hall ltac:(lia)), list_elem_of_singleton in Hs'.
  - intros (s & Hs & Huniq). f_equal.
    destruct sols as [|s1 [|s2 sols]].
    + assert (n < 2) as Hlt by (subst; cbn; lia).
      by apply (Hall Hlt), elem_of_nil in Hs.
    + by subst.
    + apply Forall_cons in Hcomp as [H1 Hcomp].
      apply Forall_cons in Hcomp as [H2 _].
      apply NoDup_cons in Hnd as [Hnd _]. destruct Hnd.
      rewrite (Huniq s1 H1), (Huniq s2 H2). left.
  - intros [= ->]. destruct sols as [|s1 [|s2 sols]]; cbn in Hlen; try lia.
    apply Forall_cons in Hcomp as [H1 Hcomp].
    apply Forall_cons in Hcomp as [H2 _].
    exists s1, s2. split_and!; try done. intros ->.
    apply NoDup_cons in Hnd as [Hnd _]. destruct Hnd. left.
  - intros (s1 & s2 & H1 & H2 & Hne). f_equal. by apply (Htwo s1 s2).
Qed.

Lemma uniqueness_test_exact_witness :
  fill_inv createEmptyGrid ∧
  (countSolutions createEmptyGrid 2 = Some 0 ↔
     ∀ s, ¬ completion createEmptyGrid s) ∧
  (countSolutions createEmptyGrid 2 = Some 1 ↔
     ∃ s, completion createEmptyGrid s ∧
          ∀ s', completion createEmptyGrid s' → s' = s) ∧
  (countSolutions createEmptyGrid 2 = Some 2 ↔
     ∃ s1 s2, completion createEmptyGrid s1 ∧ completion createEmptyGrid s2 ∧
              s1 ≠ s2).
Proof.
  split; [apply fill_inv_createEmptyGrid|].
  apply (uniqueness_test_exact createEmptyGrid), fill_inv_createEmptyGrid.
Defined.

(** ** More on [generate] *)

Lemma rng_call_sound w x w' :
  sound_source w → rng_call w = (x, w') → unit_interval x ∧ sound_source w'.
Proof.
  intros [Hw|Hw] Hcall.
  - apply rng_call_seeded in Hcall as (? & ? & _); [|done]. split; [done|by left].
  - apply rng_call_fair in Hcall as [? ?]; [|done]. split; [done|by right].
Qed.

Lemma positions_NoDup : NoDup positions_row_major.
Proof. apply (bool_decide_unpack _). vm_compute. exact I. Qed.

Lemma length_filter_ext_in {A} (P Q : A → Prop)
    `{!∀ x, Decision (P x)} `{!∀ x, Decision (Q x)} (l : list A) :
  (∀ z, z ∈ l → (P z ↔ Q z)) → length (filter P l) = length (filter Q l).
Proof.
  induction l as [|y l IH]; intros Hext; [done|].
  rewrite !filter_cons.
  assert (P y ↔ Q y) as Hy by (apply Hext; left).
  assert (length (filter P l) = length (filter Q l)) as Hl
    by (apply IH; intros z Hz; apply Hext; by right).
  destruct (decide (P y)), (decide (Q y)); cbn; tauto || lia.
Qed.

Lemma length_filter_insert {A} (P Q : A → Prop)
    `{!∀ x, Decision (P x)} `{!∀ x, Decision (Q x)} (l : list A) x :
  NoDup l → x ∈ l → ¬ P x → Q x → (∀ y, y ≠ x → (P y ↔ Q y)) →
  length (filter Q l) = S (length (filter P l)).
Proof.
  intros Hnd Hx HP HQ Hext.
  induction l as [|y l IH]; [by apply elem_of_nil in Hx|].
  apply NoDup_cons in Hnd as [Hy Hnd].
  rewrite !filter_cons. apply elem_of_cons in Hx as [<-|Hx].
  - rewrite (decide_False _ _ HP), (decide_True _ _ HQ). cbn. f_equal.
    symmetry. apply length_filter_ext_in. intros z Hz. apply Hext.
    intros ->. done.
  - assert (y ≠ x) as Hne by (intros ->; done).
    specialize (Hext y Hne). specialize (IH Hnd Hx).
    destruct (decide (P y)), (decide (Q y)); cbn; tauto || lia.
Qed.

(** Emptying a cell that holds a value leaves one empty cell more. *)
Lemma count_empty_clear g r c v :
  wf g → cell g r c = Some v → v ≠ 0 →
  count_empty (set_cell g r c 0) = S (count_empty g).
Proof.
  intros Hwf Hv Hv0. destruct (cell_lt _ _ _ _ Hwf Hv) as [Hr Hc].
  unfold count_empty.
  apply (length_filter_insert _ _ _ (r, c)).
  - apply positions_NoDup.
  - by apply elem_of_positions.
  - cbn [fst snd]. unfold cell_is. rewrite bool_decide_eq_true. congruence.
  - cbn [fst snd]. unfold cell_is.
    by rewrite bool_decide_eq_true, cell_set_cell_eq.
  - intros [r' c'] Hne. cbn [fst snd]. unfold cell_is.
    by rewrite cell_set_cell_ne.
Qed.

Lemma count_empty_full g : full g → count_empty g = 0%nat.
Proof.
  intros Hfull. unfold count_empty.
  destruct (filter _ positions_row_major) as [|[r c] l] eqn:E; [done|].
  assert ((r, c) ∈ filter (λ p, cell_is g p.1 p.2 0 = true) positions_row_major)
    as Hin by (rewrite E; left).
  apply list_elem_of_filter in Hin as [Hz Hin]. cbn in Hz.
  apply elem_of_positions in Hin as [Hr Hc].
  apply bool_decide_eq_true in Hz. by destruct (Hfull r c).
Qed.

(** Every digit occurs in every row of a solved grid. *)
Lemma solved_row_has_digit s r u :
  solved s → (r < 9)%nat → 1 <= u <= 9 →
  ∃ c, (c < 9)%nat ∧ cell s r c = Some u.
Proof.
  intros Hs Hr Hu. pose proof Hs as (Hwf & Hrange & Hfull & Hvalid).
  destruct (wf_row s r Hwf Hr) as (row & Hrow & Hlen).
  assert (∀ c v, row !! c = Some v → (c < 9)%nat ∧ cell s r c = Some v)
    as Hcell.
  { intros c v Hv. split.
    - apply lookup_lt_Some in Hv. lia.
    - by rewrite (cell_row s r c row). }
  assert (NoDup row) as Hnd.
  { apply NoDup_alt. intros i j v Hi Hj.
    destruct (Hcell i v Hi) as [Hi9 Hci], (Hcell j v Hj) as [Hj9 Hcj].
    destruct (decide (i = j)) as [|Hne]; [done|].
    destruct (Hvalid r i r j v); try done.
    - congruence.
    - by left.
    - destruct (solved_cell s r i Hs Hr Hi9) as (v' & Hv' & ?).
      rewrite Hci in Hv'. injection Hv' as <-. lia. }
  assert (row ≡ₚ [1; 2; 3; 4; 5; 6; 7; 8; 9]) as Hperm.
  { apply submseteq_length_Permutation; [|by rewrite Hlen].
    apply NoDup_submseteq; [done|]. intros v Hv.
    apply list_elem_of_lookup in Hv as [c Hv].
    destruct (Hcell c v Hv) as [Hc9 Hc].
    destruct (solved_cell s r c Hs Hr Hc9) as (v' & Hv' & ?).
    rewrite Hc in Hv'. injection Hv' as <-. by apply digit_elem. }
  assert (u ∈ row) as Hin by (rewrite Hperm; by apply digit_elem).
  apply list_elem_of_lookup in Hin as [c Hc].
  exists c. by apply Hcell.
Qed.

Lemma fill_inv_clear s r c :
  solved s → fill_inv (set_cell s r c 0).
Proof.
  intros (Hwf & Hrange & Hfull & Hvalid).
  split; [by apply wf_set_cell|]. split.
  - intros r' c' v.
    destruct (decide ((r, c) = (r', c'))) as [[= <- <-]|Hne].
    + intros Hv. destruct (cell_lt _ _ _ _ (wf_set_cell s r c 0 Hwf) Hv).
      rewrite cell_set_cell_eq in Hv by done. injection Hv as <-. lia.
    + rewrite cell_set_cell_ne by done. apply Hrange.
  - intros r1 c1 r2 c2 v Hr1 Hc1 Hr2 Hc2 Hne Hpeer Hv0.
    destruct (decide ((r, c) = (r1, c1))) as [[= <- <-]|Hne1].
    { rewrite cell_set_cell_eq by done. congruence. }
    rewrite (cell_set_cell_ne _ _ _ _ r1 c1) by done. intros Hv.
    destruct (decide ((r, c) = (r2, c2))) as [[= <- <-]|Hne2].
    { rewrite cell_set_cell_eq by done. congruence. }
    rewrite cell_set_cell_ne by done. by apply (Hvalid r1 c1 r2 c2 v).
Qed.

(** A solved grid with one cell emptied has one completion. *)
Lemma one_hole_unique s r c :
  solved s → (r < 9)%nat → (c < 9)%nat →
  countSolutions (set_cell s r c 0) 2 = Some 1.
Proof.
  intros Hs Hr Hc. pose proof Hs as (Hwf & Hrange & Hfull & Hvalid).
  pose proof (fill_inv_clear s r c Hs) as Hinv.
  destruct (countSolutions_exact _ 2 Hinv)
    as (n & sols & -> & Hnd & Hcomp & Hlen & Hle & Hall); [lia|].
  assert (completion (set_cell s r c 0) s) as Hself.
  { split; [done|]. intros r' c' v' Hr' Hc'.
    destruct (decide ((r, c) = (r', c'))) as [[= <- <-]|Hne].
    - rewrite cell_set_cell_eq by done. congruence.
    - by rewrite cell_set_cell_ne. }
  assert (∀ s', completion (set_cell s r c 0) s' → s' = s) as Huniq.
  { intros s' [Hs' Hext]. apply grid_ext; [apply Hs'|done|].
    intros r' c' Hr' Hc'.
    destruct (solved_cell s r' c' Hs Hr' Hc') as (v & Hv & Hvr).
    destruct (decide ((r, c) = (r', c'))) as [[= <- <-]|Hne].
    - destruct (solved_cell s' r c Hs' Hr Hc) as (u & Hu & Hur).
      rewrite Hu, Hv. f_equal.
      destruct (decide (u = v)) as [|Huv]; [done|exfalso].
      destruct (solved_row_has_digit s r u Hs Hr Hur) as (k & Hk & Hsu).
      assert (k ≠ c) as Hcc by (intros ->; congruence).
      assert (cell s' r k = Some u) as Hs'u.
      { apply Hext; [done..| |lia]. rewrite cell_set_cell_ne; [done|].
        congruence. }
      destruct Hs' as (_ & _ & _ & Hvalid').
      apply (Hvalid' r c r k u); try done; [congruence|by left|lia].
    - rewrite Hv. apply Hext; [done..| |lia]. by rewrite cell_set_cell_ne. }
  f_equal. destruct sols as [|s1 [|s2 sols]].
  - assert (n < 2) as Hlt by (subst; cbn; lia).
    by apply (Hall Hlt), elem_of_nil in Hself.
  - by subst.
  - apply Forall_cons in Hcomp as [H1 Hcomp].
    apply Forall_cons in Hcomp as [H2 _].
    apply NoDup_cons in Hnd as [Hnd _]. destruct Hnd.
    rewrite (Huniq s1 H1), (Huniq s2 H2). left.
Qed.

(** The removal loop counts the cells it empties, and empties the first
    cell it visits. *)
Lemma remove_cells_count positions cellsToRemove p removed p' removed' :
  NoDup positions →
  Forall (λ pos, is_clue p pos.1 pos.2) positions →
  wf p → 
  remove_cells positions cellsToRemove p removed = Some (p', removed') →
  Z.of_nat (count_empty p') - Z.of_nat (count_empty p) = removed' - removed.
Proof.
  revert p removed.
  induction positions as [|[row col] rest IH]; intros p removed Hnd Hclues Hwf;
    cbn [remove_cells].
  - intros [= <- <-]. lia.
  - apply NoDup_cons in Hnd as [Hfresh Hnd].
    apply Forall_cons in Hclues as [(v & Hv & Hv0) Hrest]. cbn [fst snd] in Hv.
    destruct (cellsToRemove <=? removed); [intros [= <- <-]; lia|].
    rewrite Hv.
    destruct (countSolutions (set_cell p row col 0) 2) as [n|]; [|done].
    destruct (n =? 1); cbn [negb].
    + intros H. apply IH in H; try done.
      * rewrite (count_empty_clear p row col v) in H by done. lia.
      * apply Forall_forall. intros [r c] Hin.
        eapply Forall_forall in Hrest as (u & Hu & Hu0); [|done].
        exists u. split; [|done]. cbn [fst snd] in *.
        rewrite cell_set_cell_ne; [done|]. intros [= <- <-]. done.
      * by apply wf_set_cell.
    + rewrite (set_cell_restore p row col v 0 Hv). by apply IH.
Qed.

Lemma remove_cells_first positions cellsToRemove sol p' removed' :
  solved sol → positions ≠ [] → 0 < cellsToRemove →
  Forall (λ pos, (pos.1 < 9)%nat ∧ (pos.2 < 9)%nat) positions →
  remove_cells positions cellsToRemove sol 0 = Some (p', removed') →
  1 <= removed'.
Proof.
  intros Hs Hne Hk Hpos. destruct positions as [|[row col] rest]; [done|].
  apply Forall_cons in Hpos as [[Hr Hc] Hrest]. cbn [fst snd] in Hr, Hc.
  cbn [remove_cells]. destruct (cellsToRemove <=? 0) eqn:E; [lia|].
  destruct (wf_cell sol row col (proj1 Hs) Hr Hc) as [v ->].
  rewrite (one_hole_unique sol row col Hs Hr Hc). cbn.
  intros H.
  destruct (remove_cells_spec rest cellsToRemove sol (set_cell sol row col 0) 1)
    as (p1 & r1 & H1 & _ & _ & _ & Hle & _); try done.
  - apply wf_set_cell, Hs.
  - apply holes_of_set_cell; [apply Hs|]. apply holes_of_refl, Hs.
  - by apply one_hole_unique.
  - assert (Some (p', removed') = Some (p1, r1)) as Heq
      by (rewrite <- H, <- H1; reflexivity).
    injection Heq as _ ->. done.
Qed.

(** What a call of [generate] returns, with or without a seed. *)
Lemma generate_general d seed w :
  source_for seed w →
  ∃ p sol removed w',
    generate d seed w
      = Some (mkPuzzle p sol d (81 - removed) seed, w') ∧
    solved sol ∧ wf p ∧ holes_of p sol ∧ countSolutions p 2 = Some 1 ∧
    1 <= removed ∧ removed <= 81 - (default (30, 37) (DIFFICULTY !! d)).1 ∧
    removed = Z.of_nat (count_empty p) ∧
    rng w' = MathRandom ∧ (fair w → fair w').
Proof.
  intros Hsource. unfold generate.
  set (w0 := match seed with
             | Some s => set_rng (mulberry32 s) w
             | None => set_rng MathRandom w
             end).
  assert (sound_source w0) as Hw0.
  { unfold w0. destruct seed; [left; apply seeded_set_rng|right].
    intros n. apply Hsource. }
  assert (fair w → fair w0) as Hfair0.
  { intros Hf n. unfold w0. destruct seed; apply Hf. }
  clearbody w0.
  destruct (default (30, 37) (DIFFICULTY !! d)) as [lo hi] eqn:Hband.
  apply DIFFICULTY_bounds in Hband.
  destruct (rng_call w0) as [x w1] eqn:Hx.
  assert (fair w0 → fair w1) as Hfair1.
  { intros Hf. by destruct (rng_call_fair _ _ _ Hf Hx). }
  apply rng_call_sound in Hx as (Hunit & Hw1); [|done].
  pose proof (floor_mul_range x (hi - lo + 1) Hunit) as Htarget.
  destruct (fillGrid_good sound_source rng_call_sound
              (fuel_for createEmptyGrid) createEmptyGrid w1)
    as (b & sol & w2 & Hfill & Hw2 & Hf & Ht);
    [apply fill_inv_createEmptyGrid | unfold fuel_for; lia | done |].
  assert (fair w1 → fair w2) as Hfair2.
  { intros Hf1.
    destruct (fillGrid_good fair rng_call_fair
                (fuel_for createEmptyGrid) createEmptyGrid w1)
      as (b' & sol' & w2' & Hfill' & Hw2' & _);
      [apply fill_inv_createEmptyGrid | unfold fuel_for; lia | done |].
    rewrite Hfill in Hfill'. by injection Hfill' as _ _ <-. }
  rewrite Hfill.
  assert (solved sol) as Hsol.
  { destruct b; [by apply Ht|]. destruct Hf as [_ Hnone]; [done|].
    destruct (Hnone shifted_grid). split; [apply shifted_grid_solved|].
    intros r c v _ _ Hv Hv0. by apply cell_createEmptyGrid in Hv. }
  destruct (shuffle positions_row_major w2) as [positions w3] eqn:Hsh.
  assert (fair w2 → fair w3) as Hfair3.
  { intros Hf2. by destruct (shuffle_from_good fair rng_call_fair _ _ _ _ _ Hf2 Hsh). }
  apply (shuffle_from_good sound_source rng_call_sound) in Hsh
    as [Hperm Hw3]; [|done].
  rewrite cloneGrid_id.
  assert (Forall (λ pos, (pos.1 < 9)%nat ∧ (pos.2 < 9)%nat) positions) as Hpos
    by (rewrite Hperm; apply positions_in_range).
  destruct (remove_cells_spec positions
              (81 - (floor_mul x (hi - lo + 1) + lo)) sol sol 0)
    as (p & removed & Hrem & Hwf & Hholes & Hone & Hlo & Hhi); try done.
  { apply Hsol. }
  { apply holes_of_refl, Hsol. }
  { apply countSolutions_full; apply Hsol. }
  rewrite Hrem.
  exists p, sol, removed, (set_rng MathRandom w3).
  split_and!; try done.
  - apply (remove_cells_first positions
             (81 - (floor_mul x (hi - lo + 1) + lo)) sol p removed Hsol);
      try done; [|lia].
    intros ->. apply Permutation_nil_l in Hperm. done.
  - cbn [fst]. lia.
  - pose proof (remove_cells_count positions
                  (81 - (floor_mul x (hi - lo + 1) + lo)) sol 0 p removed)
      as Hcount.
    rewrite (count_empty_full sol) in Hcount by apply Hsol.
    assert (Z.of_nat (count_empty p) - Z.of_nat 0 = removed - 0); [|lia].
    apply Hcount; try done; [by rewrite Hperm; apply positions_NoDup| |apply Hsol].
    apply Forall_forall. intros [r c] Hin.
    eapply Forall_forall in Hpos as [Hr Hc]; [|done]. cbn [fst snd] in *.
    destruct (solved_cell sol r c Hsol Hr Hc) as (v & Hv & ?).
    exists v. split; [done|lia].
  - intros Hfw n. apply (Hfair3 (Hfair2 (Hfair1 (Hfair0 Hfw)))).
Qed.

(** ** Further properties of the engine *)

Lemma holes_fill_inv p s : wf p → solved s → holes_of p s → fill_inv p.
Proof.
  intros Hwf Hs Hholes. pose proof Hs as (_ & _ & _ & Hvalid).
  assert (∀ r c v, cell p r c = Some v → v ≠ 0 →
            (r < 9)%nat ∧ (c < 9)%nat ∧ cell s r c = Some v) as Hclue.
  { intros r c v Hv Hv0. destruct (cell_lt _ _ _ _ Hwf Hv) as [Hr Hc].
    split_and!; try done. destruct (Hholes r c Hr Hc) as [H0|Heq]; congruence. }
  split_and!; [done| |].
  - intros r c v Hv. destruct (decide (v = 0)) as [->|Hv0]; [lia|].
    destruct (Hclue r c v Hv Hv0) as (Hr & Hc & Hsv).
    destruct (solved_cell s r c Hs Hr Hc) as (v' & Hv' & ?).
    rewrite Hsv in Hv'. injection Hv' as <-. lia.
  - intros r c r' c' v Hr Hc Hr' Hc' Hne Hpeer Hv0 Hv Hv'.
    destruct (Hclue r c v Hv Hv0) as (_ & _ & Hsv).
    destruct (Hclue r' c' v Hv' Hv0) as (_ & _ & Hsv').
    by apply (Hvalid r c r' c' v).
Qed.

Lemma sole_completion p sol :
  wf p → solved sol → holes_of p sol → countSolutions p 2 = Some 1 →
  completion p sol ∧ ∀ s, completion p s → s = sol.
Proof.
  intros Hwf Hsol Hholes Hone.
  assert (completion p sol) as Hcomp
    by (split; [done | by apply holes_of_extends]).
  split; [done|].
  intros s Hs. destruct (decide (s = sol)) as [|Hne]; [done|].
  destruct (countSolutions_two p s sol Hwf Hs Hcomp Hne) as (n & Hn & Hge).
  rewrite Hone in Hn. injection Hn as <-. lia.
Qed.

Lemma shuffle_from_draws {A} i (arr arr' : list A) w w' :
  rng w = MathRandom → shuffle_from i arr w = (arr', w') →
  rng w' = MathRandom ∧ platform w' = platform w ∧
  drawn w' = (drawn w + i)%nat.
Proof.
  revert arr w. induction i as [|i IH]; intros arr w Hrng;
    cbn [shuffle_from].
  - intros [= <- <-]. split_and!; try done; lia.
  - unfold rng_call. rewrite Hrng. unfold SudokuEngine.math_random.
    intros H. apply IH in H as (? & ? & Hd); [|done].
    split_and!; try done. cbn in Hd. lia.
Qed.

Lemma toInt32_mod s1 s2 :
  s1 mod 4294967296 = s2 mod 4294967296 → toInt32 s1 = toInt32 s2.
Proof.
  intros H. unfold toInt32. f_equal.
  rewrite (Z.add_mod s1), (Z.add_mod s2), H by lia. done.
Qed.

Lemma generate_same_source d s1 s2 w :
  mulberry32 s1 = mulberry32 s2 →
  (λ r, (SudokuEngine.puzzle r.1, SudokuEngine.solution r.1,
         SudokuEngine.clues r.1, r.2)) <$> generate d (Some s1) w
  = (λ r, (SudokuEngine.puzzle r.1, SudokuEngine.solution r.1,
           SudokuEngine.clues r.1, r.2)) <$> generate d (Some s2) w.
Proof.
  intros Heq. unfold generate. rewrite Heq.
  destruct (default (30, 37) (DIFFICULTY !! d)) as [lo hi].
  destruct (rng_call _) as [x w1].
  destruct (fillGrid _ _ _) as [[[b sol] w2]|]; [|done].
  destruct (shuffle _ _) as [positions w3].
  by destruct (remove_cells _ _ _ _) as [[p removed]|].
Qed.

(** On a 9×9 grid, where every row the scans read exists, [isValid]
    answers true exactly when no cell of the row, of the column or of the
    3×3 box of the position holds the number, the position itself
    included. *)
Theorem isValid_iff_no_conflict (g : Grid) (r c : nat) (v : Z) :
  wf g → (r < 9)%nat → (c < 9)%nat →
  isValid g r c v = true ↔
  ∀ r' c', (r' < 9)%nat → (c' < 9)%nat →
    r = r' ∨ c = c' ∨ ((r / 3 = r' / 3)%nat ∧ (c / 3 = c' / 3)%nat) →
    cell g r' c' ≠ Some v.
Proof. intros _. apply isValid_true. Qed.

Lemma isValid_iff_no_conflict_witness :
  wf createEmptyGrid ∧ (4 < 9)%nat ∧ (7 < 9)%nat ∧
  (isValid createEmptyGrid 4 7 3 = true ↔
   ∀ r' c', (r' < 9)%nat → (c' < 9)%nat →
     4%nat = r' ∨ 7%nat = c' ∨ ((4 / 3 = r' / 3)%nat ∧ (7 / 3 = c' / 3)%nat) →
     cell createEmptyGrid r' c' ≠ Some 3).
Proof.
  split; [apply wf_createEmptyGrid|]. split; [lia|]. split; [lia|].
  apply (isValid_iff_no_conflict createEmptyGrid 4 7 3);
    [apply wf_createEmptyGrid | lia | lia].
Defined.

(** [shuffle] returns a permutation of the array, whether [rng] is a
    seeded closure or the platform source; with the platform source it
    draws one number for each element but the first. *)
Theorem shuffle_permutes {A} (arr arr' : list A) (w w' : World) :
  sound_source w → shuffle arr w = (arr', w') →
  arr' ≡ₚ arr ∧ sound_source w' ∧
  (rng w = MathRandom → drawn w' = (drawn w + (length arr - 1))%nat).
Proof.
  intros Hw Hsh. unfold shuffle in Hsh.
  destruct (shuffle_from_good sound_source rng_call_sound _ _ _ _ _ Hw Hsh)
    as [Hperm Hw'].
  split_and!; try done.
  intros Hrng. by apply (shuffle_from_draws _ _ _ _ _ Hrng) in Hsh as (_ & _ & ?).
Qed.

Lemma shuffle_permutes_witness :
  sound_source idle_world ∧
  shuffle [1; 2; 3] idle_world = ([2; 3; 1], mkWorld MathRandom (λ _, 0%Q) 2) ∧
  [2; 3; 1] ≡ₚ [1; 2; 3] ∧ sound_source (mkWorld MathRandom (λ _, 0%Q) 2) ∧
  (rng idle_world = MathRandom →
   drawn (mkWorld MathRandom (λ _, 0%Q) 2)
   = (drawn idle_world + (length [1; 2; 3] - 1))%nat).
Proof.
  assert (sound_source idle_world) as Hw by (right; apply fair_idle_world).
  assert (shuffle [1; 2; 3] idle_world
          = ([2; 3; 1], mkWorld MathRandom (λ _, 0%Q) 2)) as Hsh
    by (vm_compute; reflexivity).
  split; [exact Hw|]. split; [exact Hsh|].
  exact (shuffle_permutes [1; 2; 3] [2; 3; 1] idle_world _ Hw Hsh).
Defined.

Lemma randomSeed_bounds (w : World) :
  unit_interval (platform w (drawn w)) →
  0 <= (randomSeed w).1 < 2147483647 ∧
  mulberry32 (randomSeed w).1 = Mulberry32 (randomSeed w).1 ∧
  drawn (randomSeed w).2 = S (drawn w) ∧ rng (randomSeed w).2 = rng w.
Proof.
  intros Hx. unfold randomSeed, SudokuEngine.math_random.
  cbn [fst snd drawn rng].
  assert (0 <= floor_mul (platform w (drawn w)) 2147483647 < 2147483647)
    as Hr by (by apply floor_mul_range).
  split_and!; try done; try lia.
  unfold mulberry32. f_equal. unfold toInt32.
  rewrite Z.mod_small; lia.
Qed.

(** [randomSeed] returns an integer of [0, 2147483647), which
    [mulberry32] takes as its state unchanged; it draws one number from
    the platform source and leaves [rng] alone. *)
Theorem randomSeed_range (w : World) :
  unit_interval (platform w (drawn w)) →
  0 <= (randomSeed w).1 < 2147483647 ∧
  mulberry32 (randomSeed w).1 = Mulberry32 (randomSeed w).1 ∧
  drawn (randomSeed w).2 = S (drawn w) ∧ rng (randomSeed w).2 = rng w.
Proof. apply randomSeed_bounds. Qed.

Lemma randomSeed_range_witness :
  unit_interval (platform idle_world (drawn idle_world)) ∧
  0 <= (randomSeed idle_world).1 < 2147483647 ∧
  mulberry32 (randomSeed idle_world).1 = Mulberry32 (randomSeed idle_world).1 ∧
  drawn (randomSeed idle_world).2 = S (drawn idle_world) ∧
  rng (randomSeed idle_world).2 = rng idle_world.
Proof.
  assert (unit_interval (platform idle_world (drawn idle_world))) as Hx
    by (split; vm_compute; congruence).
  split; [exact Hx|]. exact (randomSeed_range idle_world Hx).
Defined.

(** Without a seed, on a platform source that returns numbers of [0, 1),
    [generate] returns, for each of the five difficulties, a puzzle whose only completion is the solution it
    returns with it; the record carries no seed, and [rng] is the
    platform source afterwards. *)
Theorem generate_unseeded_unique_completion (difficulty : string) (w : World) :
  listed difficulty → fair w →
  ∃ pz w',
    generate difficulty None w = Some (pz, w') ∧
    SudokuEngine.seed pz = None ∧
    countSolutions (SudokuEngine.puzzle pz) 2 = Some 1 ∧
    completion (SudokuEngine.puzzle pz) (SudokuEngine.solution pz) ∧
    (∀ s, completion (SudokuEngine.puzzle pz) s → s = SudokuEngine.solution pz) ∧
    rng w' = MathRandom ∧ fair w'.
Proof.
  intros _ Hfair.
  destruct (generate_general difficulty None w Hfair)
    as (p & sol & removed & w' & -> & Hsol & Hwf & Hholes & Hone & _ & _ & _
        & Hrng & Hfair').
  eexists _, w'. split; [done|].
  cbn [SudokuEngine.puzzle SudokuEngine.solution SudokuEngine.seed].
  destruct (sole_completion p sol Hwf Hsol Hholes Hone) as [Hcomp Huniq].
  split_and!; try done. by apply Hfair'.
Qed.

Lemma generate_unseeded_unique_completion_witness :
  listed "hard" ∧ fair idle_world ∧
  ∃ pz w',
    generate "hard" None idle_world = Some (pz, w') ∧
    SudokuEngine.seed pz = None ∧
    countSolutions (SudokuEngine.puzzle pz) 2 = Some 1 ∧
    completion (SudokuEngine.puzzle pz) (SudokuEngine.solution pz) ∧
    (∀ s, completion (SudokuEngine.puzzle pz) s → s = SudokuEngine.solution pz) ∧
    rng w' = MathRandom ∧ fair w'.
Proof.
  assert (listed "hard") as Hd by (by eexists).
  split; [exact Hd|]. split; [apply fair_idle_world|].
  apply (generate_unseeded_unique_completion "hard" idle_world Hd).
  apply fair_idle_world.
Defined.

(** The clue count [generate] reports is the number of non-empty cells of
    the puzzle grid it returns; at least one cell is empty, and at least
    17 are not, for each of the five difficulties and whatever the
    seed. *)
Theorem generate_clues_are_filled_cells
    (difficulty : string) (seed : option Z) (w : World) :
  listed difficulty → source_for seed w →
  ∃ pz w',
    generate difficulty seed w = Some (pz, w') ∧
    SudokuEngine.clues pz = count_filled (SudokuEngine.puzzle pz) ∧
    17 <= SudokuEngine.clues pz <= 80.
Proof.
  intros _ Hsource.
  destruct (generate_general difficulty seed w Hsource)
    as (p & sol & removed & w' & -> & _ & _ & _ & _ & Hlo & Hhi & Hcount & _).
  eexists _, w'. split; [done|].
  cbn [SudokuEngine.puzzle SudokuEngine.clues]. unfold count_filled.
  destruct (default (30, 37) (DIFFICULTY !! difficulty)) as [lo hi] eqn:Hband.
  apply DIFFICULTY_bounds in Hband. cbn [fst] in Hhi. lia.
Qed.

Lemma generate_clues_are_filled_cells_witness :
  listed "expert" ∧ source_for (Some 7) idle_world ∧
  ∃ pz w',
    generate "expert" (Some 7) idle_world = Some (pz, w') ∧
    SudokuEngine.clues pz = count_filled (SudokuEngine.puzzle pz) ∧
    17 <= SudokuEngine.clues pz <= 80.
Proof.
  assert (listed "expert") as Hd by (by eexists).
  split; [exact Hd|]. split; [exact I|].
  apply (generate_clues_are_filled_cells "expert" (Some 7) idle_world Hd).
  exact I.
Defined.

(** [generate] uses the seed through [seed | 0] only: for each of the
    five difficulties, two seeds that are equal modulo 2^32 give the same
    puzzle grid, solution and clue count. *)
Theorem generate_seed_modulo (difficulty : string) (s1 s2 : Z) (w : World) :
  listed difficulty →
  s1 mod 4294967296 = s2 mod 4294967296 →
  ∃ pz1 pz2 w',
    generate difficulty (Some s1) w = Some (pz1, w') ∧
    generate difficulty (Some s2) w = Some (pz2, w') ∧
    SudokuEngine.puzzle pz1 = SudokuEngine.puzzle pz2 ∧
    SudokuEngine.solution pz1 = SudokuEngine.solution pz2 ∧
    SudokuEngine.clues pz1 = SudokuEngine.clues pz2.
Proof.
  intros _ Hmod.
  assert (mulberry32 s1 = mulberry32 s2) as Heq
    by (unfold mulberry32; f_equal; by apply toInt32_mod).
  pose proof (generate_same_source difficulty s1 s2 w Heq) as Hsame.
  destruct (generate_general difficulty (Some s1) w I)
    as (p1 & sol1 & r1 & w1 & H1 & _).
  destruct (generate_general difficulty (Some s2) w I)
    as (p2 & sol2 & r2 & w2 & H2 & _).
  rewrite H1, H2 in Hsame. cbn in Hsame. injection Hsame as -> -> Hc ->.
  eexists _, _, w2. split; [exact H1|]. split; [exact H2|]. done.
Qed.

Lemma generate_seed_modulo_witness :
  listed "easy" ∧ 5 mod 4294967296 = 4294967301 mod 4294967296 ∧
  ∃ pz1 pz2 w',
    generate "easy" (Some 5) idle_world = Some (pz1, w') ∧
    generate "easy" (Some 4294967301) idle_world = Some (pz2, w') ∧
    SudokuEngine.puzzle pz1 = SudokuEngine.puzzle pz2 ∧
    SudokuEngine.solution pz1 = SudokuEngine.solution pz2 ∧
    SudokuEngine.clues pz1 = SudokuEngine.clues pz2.
Proof.
  assert (listed "easy") as Hd by (by eexists).
  split; [exact Hd|]. split; [reflexivity|].
  apply (generate_seed_modulo "easy" 5 4294967301 idle_world Hd). reflexivity.
Defined.

(** [solve] finds the solution of a generated puzzle again: applied to
    the puzzle grid [generate] returns for one of the five difficulties,
    it returns the solution grid that
    [generate] returned with it. *)
Theorem solve_generated_puzzle (difficulty : string) (seed : option Z) (w : World) :
  listed difficulty → fair w →
  ∃ pz w' w'',
    generate difficulty seed w = Some (pz, w') ∧
    solve (SudokuEngine.puzzle pz) w'
      = Some (Some (SudokuEngine.solution pz), w'').
Proof.
  intros _ Hfair.
  assert (source_for seed w) as Hsource by (by destruct seed).
  destruct (generate_general difficulty seed w Hsource)
    as (p & sol & removed & w' & -> & Hsol & Hwf & Hholes & Hone & _ & _ & _
        & Hrng & Hfair').
  destruct (sole_completion p sol Hwf Hsol Hholes Hone) as [Hcomp Huniq].
  pose proof (holes_fill_inv p sol Hwf Hsol Hholes) as Hinv.
  destruct (fillGrid_good fair rng_call_fair (fuel_for p) p w')
    as (b & g' & w'' & Hfill & _ & Hf & Ht);
    [done | unfold fuel_for; lia | by apply Hfair' |].
  eexists _, w', w''. split; [done|].
  cbn [SudokuEngine.puzzle SudokuEngine.solution].
  unfold solve. rewrite cloneGrid_id, Hfill.
  destruct b.
  - destruct Ht as [Hs Hext]; [done|]. by rewrite (Huniq g' (conj Hs Hext)).
  - destruct Hf as [_ Hnone]; [done|]. by destruct (Hnone sol).
Qed.

Lemma solve_generated_puzzle_witness :
  listed "medium" ∧ fair idle_world ∧
  ∃ pz w' w'',
    generate "medium" (Some 2024) idle_world = Some (pz, w') ∧
    solve (SudokuEngine.puzzle pz) w'
      = Some (Some (SudokuEngine.solution pz), w'').
Proof.
  assert (listed "medium") as Hd by (by eexists).
  split; [exact Hd|]. split; [apply fair_idle_world|].
  apply (solve_generated_puzzle "medium" (Some 2024) idle_world Hd).
  apply fair_idle_world.
Defined.

(** ** The clue count and the target *)

Lemma holes_of_trans p q s : holes_of p q → holes_of q s → holes_of p s.
Proof.
  intros Hpq Hqs r c Hr Hc.
  destruct (Hpq r c Hr Hc) as [?|Heq]; [by left|]. rewrite Heq. by apply Hqs.
Qed.

Lemma holes_of_cleared p r c : wf p → holes_of (set_cell p r c 0) p.
Proof.
  intros Hwf r' c' Hr' Hc'.
  destruct (decide ((r, c) = (r', c'))) as [[= <- <-]|Hne].
  - left. by apply cell_set_cell_eq.
  - right. by apply cell_set_cell_ne.
Qed.

(** Emptying further cells keeps the completions. *)
Lemma completion_more_holes p' p s :
  holes_of p' p → completion p s → completion p' s.
Proof.
  intros Hholes [Hs Hext]. split; [done|].
  intros r c v Hr Hc Hv Hv0. apply Hext; try done.
  destruct (Hholes r c Hr Hc) as [Hz|Heq]; congruence.
Qed.

Lemma needed_more_holes p' p r c :
  wf p' → wf p → holes_of p' p → needed p r c → needed p' r c.
Proof.
  intros Hwf' Hwf Hholes (s1 & s2 & H1 & H2 & Hne).
  assert (holes_of (set_cell p' r c 0) (set_cell p r c 0)) as Hq.
  { intros r' c' Hr' Hc'.
    destruct (decide ((r, c) = (r', c'))) as [[= <- <-]|Hpos].
    - left. by apply cell_set_cell_eq.
    - rewrite !cell_set_cell_ne by done. by apply Hholes. }
  exists s1, s2. split_and!; [| |done]; by eapply completion_more_holes.
Qed.

(** A grid that keeps a completion and on which the counter does not
    answer 1 has two different completions. *)
Lemma not_one_two_completions q sol n :
  fill_inv q → completion q sol → countSolutions q 2 = Some n → n ≠ 1 →
  ∃ s1 s2, completion q s1 ∧ completion q s2 ∧ s1 ≠ s2.
Proof.
  intros Hinv Hsol Hn Hne.
  destruct (countSolutions_exact q 2 Hinv) as
    (n' & sols & Hn' & Hnd & Hall & Hlen & Hle & Hcomplete); [lia|].
  rewrite Hn in Hn'. injection Hn' as <-.
  destruct sols as [|s1 [|s2 sols]]; cbn in Hlen.
  - assert (sol ∈ @nil Grid) as Hin by (apply Hcomplete; [lia|done]).
    by apply elem_of_nil in Hin.
  - lia.
  - apply Forall_cons in Hall as [H1 Hall].
    apply Forall_cons in Hall as [H2 _].
    apply NoDup_cons in Hnd as [Hfresh _].
    exists s1, s2. split_and!; try done.
    intros ->. apply Hfresh. left.
Qed.

(** The removal loop stops short of [cellsToRemove] only after it has
    tried every position: each is then empty, or holds a clue that cannot
    be removed. *)
Lemma remove_cells_exhaust positions cellsToRemove sol p removed p' removed' :
  Forall (λ pos, (pos.1 < 9)%nat ∧ (pos.2 < 9)%nat) positions →
  solved sol → wf p → holes_of p sol →
  remove_cells positions cellsToRemove p removed = Some (p', removed') →
  wf p' ∧ holes_of p' p ∧
  (removed' < cellsToRemove →
   ∀ pos, pos ∈ positions →
     cell p' pos.1 pos.2 = Some 0 ∨ needed p' pos.1 pos.2).
Proof.
  intros Hpos Hsol. revert p removed.
  induction positions as [|[row col] rest IH]; intros p removed Hwf Hholes;
    cbn [remove_cells].
  - intros [= <- <-]. split_and!; [done | by apply holes_of_refl |].
    intros _ pos Hin. by apply elem_of_nil in Hin.
  - apply Forall_cons in Hpos as [[Hr Hc] Hrest]. cbn [fst snd] in Hr, Hc.
    destruct (cellsToRemove <=? removed) eqn:Hstop.
    { intros [= <- <-]. split_and!; [done | by apply holes_of_refl | lia]. }
    destruct (wf_cell p row col Hwf Hr Hc) as [backup Hbackup]. rewrite Hbackup.
    set (q := set_cell p row col 0).
    assert (wf q) as Hwfq by (by apply wf_set_cell).
    assert (holes_of q sol) as Hholesq by (by apply holes_of_set_cell).
    destruct (countSolutions q 2) as [n|] eqn:Hn; [|done].
    destruct (n =? 1) eqn:Hn1; cbn [negb].
    + intros Hrun.
      destruct (IH Hrest q (removed + 1) Hwfq Hholesq Hrun)
        as (Hwf' & Hholes' & Hall).
      assert (holes_of q p) as Hqp by (by apply holes_of_cleared).
      split_and!; [done | by eapply holes_of_trans |].
      intros Hshort pos Hin. apply elem_of_cons in Hin as [->|Hin];
        [|by apply Hall].
      left. cbn [fst snd].
      destruct (Hholes' row col Hr Hc) as [Hz|Heq]; [done|].
      rewrite Heq. by apply cell_set_cell_eq.
    + replace (set_cell q row col backup) with p
        by (symmetry; apply (set_cell_restore p row col backup 0 Hbackup)).
      intros Hrun.
      destruct (IH Hrest p removed Hwf Hholes Hrun) as (Hwf' & Hholes' & Hall).
      split_and!; try done.
      intros Hshort pos Hin. apply elem_of_cons in Hin as [->|Hin];
        [|by apply Hall].
      right. cbn [fst snd].
      apply (needed_more_holes p' p); try done.
      apply (not_one_two_completions q sol n); try done.
      * by apply (holes_fill_inv q sol).
      * split; [done | by apply holes_of_extends].
      * intros ->. done.
Qed.

(** The target lies in the band. *)
Lemma targetClues_band d lo hi seed w :
  DIFFICULTY !! d = Some (lo, hi) → source_for seed w →
  lo <= targetClues d seed w <= hi.
Proof.
  intros Hband Hsource. unfold targetClues. rewrite Hband.
  change (default (30, 37) (Some (lo, hi))) with (lo, hi). cbv beta iota.
  assert (17 <= lo ∧ lo <= hi ∧ hi <= 45) as Hb
    by (apply (DIFFICULTY_bounds d); by rewrite Hband).
  set (w0 := match seed with
             | Some s => set_rng (mulberry32 s) w
             | None => set_rng MathRandom w
             end).
  assert (sound_source w0) as Hw0.
  { unfold w0. destruct seed; [left; apply seeded_set_rng|right].
    intros n. apply Hsource. }
  destruct (rng_call w0) as [x w1] eqn:Hx.
  apply rng_call_sound in Hx as (Hunit & _); [|done].
  destruct (floor_mul_range x (hi - lo + 1) Hunit); [lia|].
  cbn [fst]. lia.
Qed.

(** What [generate] returns, against its target. *)
Lemma generate_target d seed w :
  source_for seed w →
  ∃ p sol removed w',
    generate d seed w
      = Some (mkPuzzle p sol d (81 - removed) seed, w') ∧
    1 <= removed ∧ removed <= 81 - targetClues d seed w ∧
    (removed < 81 - targetClues d seed w →
     ∀ r c, (r < 9)%nat → (c < 9)%nat →
       cell p r c = Some 0 ∨ needed p r c).
Proof.
  intros Hsource.
  destruct (generate_general d seed w Hsource)
    as (p & sol & removed & w' & Hgen & Hsol & Hwf & Hholes & Hone & Hlo & _).
  exists p, sol, removed, w'. split; [done|]. split; [done|].
  revert Hgen. unfold generate, targetClues.
  set (w0 := match seed with
             | Some s => set_rng (mulberry32 s) w
             | None => set_rng MathRandom w
             end).
  destruct (default (30, 37) (DIFFICULTY !! d)) as [lo hi] eqn:Hband.
  apply DIFFICULTY_bounds in Hband.
  destruct (rng_call w0) as [x w1] eqn:Hx. cbn [fst].
  assert (sound_source w0) as Hw0.
  { unfold w0. destruct seed; [left; apply seeded_set_rng|right].
    intros n. apply Hsource. }
  apply rng_call_sound in Hx as (Hunit & Hw1); [|done].
  destruct (floor_mul_range x (hi - lo + 1) Hunit) as [Ht0 Ht1]; [lia|].
  destruct (fillGrid (fuel_for createEmptyGrid) createEmptyGrid w1)
    as [[[b sol'] w2]|] eqn:Hfill; [|done].
  destruct (shuffle positions_row_major w2) as [positions w3] eqn:Hsh.
  destruct (fillGrid_good sound_source rng_call_sound
              (fuel_for createEmptyGrid) createEmptyGrid w1)
    as (b0 & sol0 & w20 & Hfill0 & Hw2 & _);
    [apply fill_inv_createEmptyGrid | unfold fuel_for; lia | done |].
  rewrite Hfill in Hfill0. injection Hfill0 as <- <- <-.
  apply (shuffle_from_good sound_source rng_call_sound) in Hsh
    as [Hperm _]; [|done].
  rewrite cloneGrid_id.
  destruct (remove_cells positions (81 - (floor_mul x (hi - lo + 1) + lo))
              sol' 0) as [[p0 removed0]|] eqn:Hrem; [|done].
  intros Heq. injection Heq as Hp Hs Hrm _. subst p0 sol'.
  assert (removed0 = removed) as -> by lia.
  assert (Forall (λ pos, (pos.1 < 9)%nat ∧ (pos.2 < 9)%nat) positions) as Hpos
    by (rewrite Hperm; apply positions_in_range).
  pose proof (remove_cells_spec positions
                (81 - (floor_mul x (hi - lo + 1) + lo)) sol sol 0 Hpos
                (proj1 Hsol) (holes_of_refl _ (proj1 Hsol))
                (countSolutions_full _ (proj1 Hsol) (proj1 (proj2 (proj2 Hsol)))))
    as (p1 & r1 & Hrem1 & _ & _ & _ & _ & Hmax).
  rewrite Hrem in Hrem1. injection Hrem1 as <- <-.
  split; [lia|].
  intros Hshort r c Hr Hc.
  destruct (remove_cells_exhaust positions _ sol sol 0 p removed
              Hpos Hsol (proj1 Hsol) (holes_of_refl _ (proj1 Hsol)) Hrem)
    as (_ & _ & Hall).
  apply (Hall Hshort (r, c)). rewrite Hperm. by apply elem_of_positions.
Qed.

(** C9, as the code has it. For every difficulty band and every seed,
    [generate] draws a target within the band; the puzzle it returns has
    at least as many clues as the target, hence at least the minimum of
    the band, and at most 80; and it has more clues than the target only
    when the removal loop has tried every cell and found that none of the
    remaining clues can be removed: with any of them emptied the grid
    has two different completions. *)
Theorem clues_at_target_unless_minimal
    (difficulty : string) (minClues maxClues seed : Z) (w : World) :
  DIFFICULTY !! difficulty = Some (minClues, maxClues) →
  ∃ pz w',
    generate difficulty (Some seed) w = Some (pz, w') ∧
    minClues <= targetClues difficulty (Some seed) w <= maxClues ∧
    targetClues difficulty (Some seed) w <= SudokuEngine.clues pz <= 80 ∧
    (targetClues difficulty (Some seed) w < SudokuEngine.clues pz →
     ∀ r c, (r < 9)%nat → (c < 9)%nat →
       cell (SudokuEngine.puzzle pz) r c = Some 0 ∨ needed (SudokuEngine.puzzle pz) r c).
Proof.
  intros Hband.
  destruct (generate_target difficulty (Some seed) w I)
    as (p & sol & removed & w' & -> & Hlo & Hhi & Hall).
  eexists _, w'. split; [done|].
  cbn [SudokuEngine.puzzle SudokuEngine.clues].
  split; [by apply (targetClues_band difficulty)|].
  split; [lia|]. intros Hmore. apply Hall. lia.
Qed.

Lemma clues_at_target_unless_minimal_witness :
  DIFFICULTY !! "evil"%string = Some (17, 21) ∧
  ∃ pz w',
    generate "evil" (Some 1659) idle_world = Some (pz, w') ∧
    17 <= targetClues "evil" (Some 1659) idle_world <= 21 ∧
    targetClues "evil" (Some 1659) idle_world <= SudokuEngine.clues pz <= 80 ∧
    (targetClues "evil" (Some 1659) idle_world < SudokuEngine.clues pz →
     ∀ r c, (r < 9)%nat → (c < 9)%nat →
       cell (SudokuEngine.puzzle pz) r c = Some 0 ∨ needed (SudokuEngine.puzzle pz) r c).
Proof.
  split; [vm_compute; reflexivity|].
  apply (clues_at_target_unless_minimal "evil" 17 21 1659 idle_world).
  vm_compute; reflexivity.
Defined.

(** ** What the events of a session keep *)

Lemma delay_step_refl (fair : Prop) b : delay_step fair b b.
Proof. unfold delay_step. split_and!; [done|lia|done]. Qed.

Lemma delay_step_trans (fair : Prop) b1 b2 b3 :
  delay_step fair b1 b2 → delay_step fair b2 b3 → delay_step fair b1 b3.
Proof.
  intros (Hf1 & Hh1 & Hb1) (Hf2 & Hh2 & Hb2). split_and!.
  - congruence.
  - intros H. specialize (Hh1 H). destruct Hh2 as [? ?]; lia.
  - intros Hfair H. by apply Hb2, Hb1.
Qed.

Ltac stage_frame :=
  unfold delay_step; repeat case_match; simplify_eq/=;
  split_and!; try done; try lia.

Lemma aiDelay_frame b e d b' e' :
  aiDelay b e = (d, b', e') →
  delay_step (fair_env e) b b' ∧ random e' = random e.
Proof.
  unfold aiDelay. intros H.
  next_stage H E0.
  assert (random e0 = random e) as Hr0.
  { clear H. destruct (0 <? aiHints b); simplify_eq/=; done. }
  assert (b0 = true → 0 < aiHints b) as Hhint.
  { clear H. destruct (0 <? aiHints b) eqn:Hpos; simplify_eq/=; [lia|done]. }
  clear E0.
  destruct b0.
  { cbn in H. simplify_eq. specialize (Hhint eq_refl).
    split; [|done]. unfold delay_step. cbn. split_and!; try done; lia. }
  clear Hhint.
  set (b1 := if Qltb _ 0.12 then _ else _) in H.
  assert (delay_step (fair_env e) b b1) as Hb1
    by (clear H; unfold b1; stage_frame).
  clearbody b1. cbn [math_random] in H.
  next_stage H E2.
  assert (delay_step (fair_env e) b1 b0 ∧ random e1 = random e) as [Hb0 Hr1].
  { clear H. stage_frame. }
  clear E2.
  next_stage H E3.
  assert (random e2 = random e) as Hr2.
  { clear H. repeat case_match; simplify_eq/=; done. }
  clear E3.
  next_stage H E4.
  assert (random e3 = random e) as Hr3.
  { clear H. repeat case_match; simplify_eq/=; done. }
  clear E4.
  next_stage H E5.
  assert (delay_step (fair_env e) b0 b2 ∧ random e4 = random e) as [Hb2 Hr4].
  { clear H. stage_frame.
    intros Hfair _.
    match goal with |- context [Qnum (random ?e ?n)] =>
      assert (unit_interval (random e n)) as Hunit
        by (rewrite Hr3; apply Hfair);
      pose proof (floor_mul_range (random e n) 3 Hunit) as Hrange
    end.
    unfold floor_mul in Hrange. cbn in Hrange. lia. }
  clear E5.
  next_stage H E6.
  assert (random e5 = random e) as Hr5.
  { clear H. repeat case_match; simplify_eq/=; done. }
  clear E6.
  cbn in H. simplify_eq. split; [|done].
  eauto using delay_step_trans.
Qed.

Ltac unfold_keeps :=
  unfold keeps, session_inv, clock_ok, hints_ok, outcome_ok, session_step,
    clues_kept, burst_ok, fixed_part, BATTLE_TIME.

Lemma keeps_refl (fair : Prop) b : keeps fair b b.
Proof.
  unfold keeps, session_step, clues_kept. split_and!; try done; lia.
Qed.

Lemma session_step_trans b1 b2 b3 :
  session_step b1 b2 → session_step b2 b3 → session_step b1 b3.
Proof.
  intros (Hf1 & Hc1 & Hp1 & Ha1 & Hs1 & He1 & Hpf1 & Haf1)
         (Hf2 & Hc2 & Hp2 & Ha2 & Hs2 & He2 & Hpf2 & Haf2).
  unfold session_step. split_and!; try lia; try tauto.
  - congruence.
  - intros r c v Hv Hv0. rewrite <- (Hc1 r c v Hv Hv0).
    apply (Hc2 r c v); [|done].
    assert (original b2 = original b1) as -> by
      (unfold fixed_part in Hf1; congruence).
    done.
Qed.

Lemma keeps_trans (fair : Prop) b1 b2 b3 :
  keeps fair b1 b2 → keeps fair b2 b3 → keeps fair b1 b3.
Proof.
  intros (Hi1 & Hs1 & Hb1) (Hi2 & Hs2 & Hb2). unfold keeps.
  split_and!; [|by eapply session_step_trans|tauto].
  intros H. destruct (Hi1 H) as [H2 ?]. destruct (Hi2 H2). split; [done|lia].
Qed.

Lemma keeps_of_delay_step (fair : Prop) b b' : delay_step fair b b' → keeps fair b b'.
Proof.
  intros (Hframe & Hhints & Hburst).
  unfold keeps, session_inv, clock_ok, hints_ok, outcome_ok, session_step,
    clues_kept, burst_ok.
  destruct b, b'. unfold delay_frame, fixed_part in *. cbn in *.
  simplify_eq. split_and!; try done; try lia.
  intros (? & (? & ? & ? & ?) & ?). destruct Hhints; [lia|].
  split_and!; try done; intuition lia.
Qed.

Lemma scheduleAIAction_keeps (fair : Prop) d b e :
  keeps fair b (scheduleAIAction d b e).1 ∧
  random (scheduleAIAction d b e).2 = random e.
Proof.
  split; [|done].
  unfold keeps, session_inv, clock_ok, hints_ok, outcome_ok, session_step,
    clues_kept, burst_ok.
  destruct b. cbn. split_and!; try done; lia.
Qed.

(** Hints are granted at every third mistake. *)
Lemma hint_grant m h :
  0 <= m → 0 <= h <= m / 3 →
  0 <= (if Z.rem (m + 1) 3 =? 0 then h + 1 else h) <= (m + 1) / 3.
Proof.
  intros Hm Hh. rewrite Z.rem_mod_nonneg by lia.
  destruct (Z.eqb_spec ((m + 1) mod 3) 0) as [H0|H0].
  - assert ((m + 1) / 3 = m / 3 + 1); [|lia].
    pose proof (Z.div_mod (m + 1) 3). pose proof (Z.div_mod m 3).
    pose proof (Z.mod_pos_bound m 3). lia.
  - assert (m / 3 <= (m + 1) / 3) by (apply Z.div_le_mono; lia). lia.
Qed.

Lemma scheduleNextAICell_keeps b e :
  keeps (fair_env e) b (scheduleNextAICell b e).1 ∧
  random (scheduleNextAICell b e).2 = random e.
Proof.
  unfold scheduleNextAICell.
  destruct (ended b || aiFinished b); [split; [apply keeps_refl|done]|].
  destruct (aiDelay b e) as [[d b1] e1] eqn:Hdelay.
  apply aiDelay_frame in Hdelay as [Hstep Hr].
  destruct (scheduleAIAction_keeps (fair_env e) d b1 e1) as [Hk Hr'].
  split; [|congruence].
  eapply keeps_trans; [by apply keeps_of_delay_step|done].
Qed.

(** [endBattle] with one of the reasons the module passes; before it
    the clock may stand at -1. *)
Lemma endBattle_keeps (fair : Prop) reason cb b e :
  reason ∈ ["player_finished"; "ai_finished"; "timeout"; "quit"]%string →
  (-1 <= timeRemaining b <= BATTLE_TIME ∧ hints_ok b ∧ outcome_ok b →
   session_inv (endBattle reason cb b e).1 ∧
   timeRemaining (endBattle reason cb b e).1 = timeRemaining b) ∧
  session_step b (endBattle reason cb b e).1 ∧
  (fair → burst_ok b → burst_ok (endBattle reason cb b e).1) ∧
  random (endBattle reason cb b e).2 = random e.
Proof.
  intros Hreason. unfold endBattle.
  destruct (ended b) eqn:Hended.
  { cbn [fst snd]. split_and!; [|apply (keeps_refl True b)|done|done].
    intros (? & ? & ?). unfold session_inv, clock_ok.
    split_and!; try done; [lia|lia|by rewrite Hended]. }
  split_and!; [| | |by destruct (onBattleEnd cb)];
    unfold_keeps; destruct b; cbn in *; subst;
    repeat (apply elem_of_cons in Hreason as [->|Hreason]);
    try (by apply elem_of_nil in Hreason);
    cbn; repeat case_match; cbn; intros; split_and?; try done; try lia;
    intuition (try lia; auto).
Qed.

Lemma keeps_mono (fair fair' : Prop) b b' :
  (fair' → fair) → keeps fair b b' → keeps fair' b b'.
Proof. unfold keeps. tauto. Qed.

Lemma fair_env_random e e' : random e' = random e → fair_env e → fair_env e'.
Proof. unfold fair_env. by intros ->. Qed.

(** A step followed by [scheduleNextAICell]. *)
Lemma keeps_then_schedule e b b1 e1 :
  random e1 = random e → keeps (fair_env e) b b1 →
  keeps (fair_env e) b (scheduleNextAICell b1 e1).1 ∧
  random (scheduleNextAICell b1 e1).2 = random e.
Proof.
  intros Hr Hk. destruct (scheduleNextAICell_keeps b1 e1) as [Hk1 Hr1].
  split; [|congruence].
  eapply keeps_trans; [done|].
  eapply keeps_mono; [|done]. by apply fair_env_random.
Qed.

(** A step followed by [endBattle]; the step may leave the clock at
    -1. *)
Lemma keeps_then_end (fair : Prop) reason cb e b b1 e1 :
  reason ∈ ["player_finished"; "ai_finished"; "timeout"; "quit"]%string →
  random e1 = random e →
  (session_inv b →
   (-1 <= timeRemaining b1 <= BATTLE_TIME ∧ hints_ok b1 ∧ outcome_ok b1) ∧
   timeRemaining b1 <= timeRemaining b) →
  session_step b b1 → (fair → burst_ok b → burst_ok b1) →
  keeps fair b (endBattle reason cb b1 e1).1 ∧
  random (endBattle reason cb b1 e1).2 = random e.
Proof.
  intros Hreason Hr Hinv Hstep Hburst.
  destruct (endBattle_keeps fair reason cb b1 e1 Hreason)
    as (Hinv1 & Hstep1 & Hburst1 & Hr1).
  split; [|congruence]. unfold keeps. split_and!.
  - intros H. destruct (Hinv H) as [Hw ?].
    destruct (Hinv1 Hw) as [? ->]. done.
  - by eapply session_step_trans.
  - intros Hf H. by apply Hburst1, Hburst.
Qed.

Ltac finish_keeps :=
  cbn in *; subst; intros; split_and?; try done; try lia;
  intuition (try done; try lia).

Lemma timerTick_keeps cb b e :
  keeps (fair_env e) b (timerTick cb b e).1 ∧
  random (timerTick cb b e).2 = random e.
Proof.
  unfold timerTick.
  destruct (ended b) eqn:Hended; [split; [apply keeps_refl|done]|].
  set (b1 := set_timeRemaining _ b).
  set (e1 := if onTimerTick cb then _ else e).
  assert (random e1 = random e) as Hr by (unfold e1; by destruct (onTimerTick cb)).
  clearbody e1.
  destruct (timeRemaining b1 <=? 0) eqn:Hzero.
  - apply keeps_then_end; [set_solver|done|..];
      unfold b1; unfold_keeps; destruct b; finish_keeps.
  - split; [|done]. apply Z.leb_gt in Hzero.
    unfold b1 in *. unfold_keeps. destruct b. finish_keeps.
Qed.

Lemma aiAction_keeps cb b e :
  keeps (fair_env e) b (aiAction cb b e).1 ∧
  random (aiAction cb b e).2 = random e.
Proof.
  unfold aiAction.
  destruct (ended b) eqn:Hended; [split; [apply keeps_refl|done]|].
  cbv zeta. cbn [math_random].
  set (e0 := mkEnv _ _ _ _ _).
  assert (random e0 = random e) as He0 by done.
  clearbody e0.
  destruct (Qltb _ _).
  - match goal with |- context [Z.rem ?x 3 =? 0] =>
      pose proof (hint_grant (aiMistakes b) (playerHints b)) as Hgrant;
      destruct (Z.rem x 3 =? 0) eqn:Hrem end.
    + apply keeps_then_schedule; [by destruct (onAIGainsHint cb)|].
      cbn in Hrem. unfold_keeps. destruct b. cbn in *. subst.
      rewrite Hrem in Hgrant. finish_keeps.
    + apply keeps_then_schedule; [done|].
      cbn in Hrem. unfold_keeps. destruct b. cbn in *. subst.
      rewrite Hrem in Hgrant. finish_keeps.
  - set (e1 := if onAIProgress cb then _ else e0).
    assert (random e1 = random e) as He1
      by (unfold e1; by destruct (onAIProgress cb)).
    clearbody e1.
    match goal with |- context [if ?c then _ else scheduleNextAICell _ _] =>
      destruct c end.
    + match goal with |- context [if negb ?c then _ else _] => destruct c end;
        cbn [negb].
      * split; [|done]. unfold_keeps. destruct b. finish_keeps.
      * apply keeps_then_end; [set_solver|done|..];
          unfold_keeps; destruct b; finish_keeps.
    + apply keeps_then_schedule; [done|].
      unfold_keeps. destruct b. finish_keeps.
Qed.

(** A write into a cell that the guard of the operations lets through
    leaves the cells under the clues alone. *)
Lemma write_keeps_clues (original board : Grid) row col originalRow num :
  original !! row = Some originalRow →
  negb (bool_decide (originalRow !! col = Some 0)) = false →
  ∀ r c v, cell original r c = Some v → v ≠ 0 →
    cell (set_cell board row col num) r c = cell board r c.
Proof.
  intros Hrow Hzero r c v Hv Hv0.
  apply negb_false_iff, bool_decide_eq_true in Hzero.
  apply cell_set_cell_ne. intros [= <- <-].
  unfold cell in Hv. rewrite Hrow in Hv. cbn in Hv. congruence.
Qed.

Ltac player_keeps b Hrow Hzero :=
  eexists; split; [reflexivity|];
  pose proof (write_keeps_clues _ (playerBoard b) _ _ _ 0 Hrow Hzero);
  unfold_keeps; destruct b;
  cbn in *;
  repeat match goal with Hs : cell _ _ _ = _ |- _ => rewrite Hs end;
  cbn in *; subst; intros; split_and?; try done; try lia;
  try (by eapply write_keeps_clues);
  intuition (try done; try lia).

Lemma playerPlace_keeps (fair : Prop) row col num b :
  ∃ b', battle_after (playerPlace row col num (Some b)) = Some b' ∧
    keeps fair b b'.
Proof.
  unfold playerPlace.
  destruct (ended b || playerFinished b) eqn:Hguard;
    [exists b; split; [done|apply keeps_refl]|].
  apply orb_false_elim in Hguard as [Hended _].
  destruct (original b !! row) as [originalRow|] eqn:Hrow;
    [|exists b; split; [done|apply keeps_refl]].
  destruct (negb (bool_decide (originalRow !! col = Some 0))) eqn:Hzero;
    [exists b; split; [done|apply keeps_refl]|].
  cbv zeta.
  destruct (bool_decide (Some num = cell (solution b) row col)).
  - match goal with |- context [if allFilled ?x then _ else _] =>
      destruct (allFilled x) end; player_keeps b Hrow Hzero.
  - pose proof (hint_grant (playerMistakes b) (aiHints b)) as Hgrant.
    match goal with |- context [if ?c then set_aiHints _ _ else _] =>
      destruct c eqn:Hrem end; cbn in Hrem; rewrite Hrem in Hgrant;
      player_keeps b Hrow Hzero.
Qed.

Lemma playerUseHint_keeps (fair : Prop) row col b :
  ∃ b', battle_after (playerUseHint row col (Some b)) = Some b' ∧
    keeps fair b b'.
Proof.
  unfold playerUseHint.
  destruct (ended b || playerFinished b) eqn:Hguard;
    [exists b; split; [done|apply keeps_refl]|].
  apply orb_false_elim in Hguard as [Hended _].
  destruct (playerHints b <=? 0) eqn:Hhints;
    [exists b; split; [done|apply keeps_refl]|].
  apply Z.leb_gt in Hhints.
  destruct (original b !! row) as [originalRow|] eqn:Hrow;
    [|exists b; split; [done|apply keeps_refl]].
  destruct (negb (bool_decide (originalRow !! col = Some 0))) eqn:Hzero;
    [exists b; split; [done|apply keeps_refl]|].
  destruct (bool_decide (cell (playerBoard b) row col = cell (solution b) row col));
    [exists b; split; [done|apply keeps_refl]|].
  cbv zeta.
  match goal with |- context [if allFilled ?x then _ else _] =>
    destruct (allFilled x) end;
    destruct (cell (solution b) row col) eqn:Hsol;
    rewrite ?Hsol; player_keeps b Hrow Hzero.
Qed.

Lemma playerErase_keeps (fair : Prop) row col b :
  ∃ b', battle_after (playerErase row col (Some b)) = Some b' ∧
    keeps fair b b'.
Proof.
  unfold playerErase.
  destruct (ended b) eqn:Hended; [exists b; split; [done|apply keeps_refl]|].
  destruct (original b !! row) as [originalRow|] eqn:Hrow;
    [|exists b; split; [done|apply keeps_refl]].
  destruct (negb (bool_decide (originalRow !! col = Some 0))) eqn:Hzero;
    [exists b; split; [done|apply keeps_refl]|].
  cbv zeta.
  match goal with |- context [if ?c then set_playerCellsFilled _ _ else _] =>
    destruct c end; player_keeps b Hrow Hzero.
Qed.

Lemma playerFinish_keeps cb b e :
  ∃ b' e', playerFinish cb (Some b) e = (Some b', e') ∧
    keeps (fair_env e) b b' ∧ random e' = random e.
Proof.
  unfold playerFinish.
  destruct (ended b) eqn:Hended;
    [exists b, e; split_and!; [done|apply keeps_refl|done]|].
  destruct (keeps_then_end (fair_env e) "player_finished" cb e b
              (set_playerFinished true b) e) as [Hk Hr];
    [set_solver|done|..];
    try (unfold_keeps; destruct b; finish_keeps).
  destruct (endBattle _ _ _ _) as [b' e']. by exists b', e'.
Qed.

Lemma quitBattle_keeps cb b e :
  ∃ b' e', quitBattle cb (Some b) e = (Some b', e') ∧
    keeps (fair_env e) b b' ∧ random e' = random e.
Proof.
  unfold quitBattle.
  destruct (ended b) eqn:Hended;
    [exists b, e; split_and!; [done|apply keeps_refl|done]|].
  destruct (keeps_then_end (fair_env e) "quit" cb e b b e) as [Hk Hr];
    [set_solver|done|..];
    try (unfold_keeps; destruct b; finish_keeps).
  destruct (endBattle _ _ _ _) as [b' e']. by exists b', e'.
Qed.

(** Every event keeps the invariant of sessions. *)
Lemma fire_keeps ev t b e :
  ∃ b' e', fire ev t (Some b) e = (Some b', e') ∧
    keeps (fair_env e) b b' ∧ random e' = random e.
Proof.
  destruct ev as [cb|cb|row col num|row col|row col|cb|cb]; unfold fire.
  - destruct (timerTick_keeps cb b (set_now t e)) as [Hk Hr].
    destruct (timerTick _ _ _) as [b' e']. by exists b', e'.
  - destruct (aiAction_keeps cb b (set_now t e)) as [Hk Hr].
    destruct (aiAction _ _ _) as [b' e']. by exists b', e'.
  - destruct (playerPlace_keeps (fair_env e) row col num b) as (b' & -> & Hk).
    by exists b', (set_now t e).
  - destruct (playerUseHint_keeps (fair_env e) row col b) as (b' & -> & Hk).
    by exists b', (set_now t e).
  - destruct (playerErase_keeps (fair_env e) row col b) as (b' & -> & Hk).
    by exists b', (set_now t e).
  - destruct (playerFinish_keeps cb b (set_now t e)) as (b' & e' & -> & Hk & Hr).
    by exists b', e'.
  - destruct (quitBattle_keeps cb b (set_now t e)) as (b' & e' & -> & Hk & Hr).
    by exists b', e'.
Qed.

Lemma run_keeps evs b e :
  ∃ b' e', run evs (Some b) e = (Some b', e') ∧
    keeps (fair_env e) b b' ∧ random e' = random e.
Proof.
  revert b e. induction evs as [|[ev t] evs IH]; intros b e; cbn [run].
  - exists b, e. split_and!; [done|apply keeps_refl|done].
  - destruct (fire_keeps ev t b e) as (b1 & e1 & -> & Hk1 & Hr1).
    destruct (IH b1 e1) as (b' & e' & -> & Hk & Hr).
    exists b', e'. split_and!; [done| |congruence].
    eapply keeps_trans; [done|].
    eapply keeps_mono; [|done]. by apply fair_env_random.
Qed.

(** ** Invariants of a session *)

Lemma newBattle_inv seed difficulty data emptyCells aiName aiAvatar :
  let b := newBattle seed difficulty data emptyCells aiName aiAvatar in
  session_inv b ∧ burst_ok b.
Proof. unfold_keeps. cbn. split_and!; try done; lia. Qed.

Lemma demo_started_inv : session_inv (the_battle demo_started).
Proof.
  destruct (scheduleNextAICell_keeps
              (set_timerIntervalId (Some 1) (set_started true demo_battle))
              (emit (SetInterval 1) (new_timer demo_env).2))
    as [(Hinv & _) _].
  apply Hinv. unfold_keeps. cbn. split_and!; try done; lia.
Qed.

(** Over any sequence of clock ticks, opponent actions and operations of
    the human, the clock never goes up and never below -1, and it is not
    negative while the session runs. *)
Theorem clock_stays_in_range (evs : list (Event * Z)) (b : Battle) (e : Env) :
  session_inv b →
  ∃ b' e', run evs (Some b) e = (Some b', e') ∧
    -1 <= timeRemaining b' <= timeRemaining b ∧
    (ended b' = false → 0 <= timeRemaining b').
Proof.
  intros Hinv.
  destruct (run_keeps evs b e) as (b' & e' & Hrun & (Hk & _) & _).
  destruct (Hk Hinv) as [((? & ?) & _) ?].
  exists b', e'. split_and!; try done; lia.
Qed.

Lemma clock_stays_in_range_witness :
  let b := the_battle demo_started in
  let evs := replicate 120 (Place 0 2 1, 500) ++ [(Tick all_callbacks, 1000)] in
  session_inv b ∧
  ∃ b' e', run evs (Some b) demo_env = (Some b', e') ∧
    -1 <= timeRemaining b' <= timeRemaining b ∧
    (ended b' = false → 0 <= timeRemaining b').
Proof.
  split; [exact demo_started_inv|].
  exact (clock_stays_in_range _ _ demo_env demo_started_inv).
Defined.

(** Over any such sequence, neither side holds a negative number of
    hints, nor more hints than one for every three mistakes the other
    side has made; and the mistake counters never go down. *)
Theorem hints_follow_mistakes (evs : list (Event * Z)) (b : Battle) (e : Env) :
  session_inv b →
  ∃ b' e', run evs (Some b) e = (Some b', e') ∧
    0 <= aiHints b' <= playerMistakes b' / 3 ∧
    0 <= playerHints b' <= aiMistakes b' / 3 ∧
    playerMistakes b <= playerMistakes b' ∧ aiMistakes b <= aiMistakes b'.
Proof.
  intros Hinv.
  destruct (run_keeps evs b e)
    as (b' & e' & Hrun & (Hk & (_ & _ & ? & ? & _) & _) & _).
  destruct (Hk Hinv) as [(_ & (? & ? & ? & ?) & _) _].
  exists b', e'. split_and!; try done; lia.
Qed.

Lemma hints_follow_mistakes_witness :
  let b := the_battle demo_started in
  let evs := [(Place 0 2 1, 500); (AIAction all_callbacks, 900);
              (Place 0 2 1, 1000); (Place 0 2 1, 1500);
              (AIAction all_callbacks, 2000)] in
  session_inv b ∧
  ∃ b' e', run evs (Some b) demo_env = (Some b', e') ∧
    0 <= aiHints b' <= playerMistakes b' / 3 ∧
    0 <= playerHints b' <= aiMistakes b' / 3 ∧
    playerMistakes b <= playerMistakes b' ∧ aiMistakes b <= aiMistakes b'.
Proof.
  split; [exact demo_started_inv|].
  exact (hints_follow_mistakes _ _ demo_env demo_started_inv).
Defined.

(** Over any such sequence, a session has a result exactly when it has
    ended; a win raises the rating by 25 or 15, a loss lowers it by 25 or
    15, a draw leaves it, and before the end the rating change is 0. *)
Theorem result_iff_ended (evs : list (Event * Z)) (b : Battle) (e : Env) :
  session_inv b →
  ∃ b' e', run evs (Some b) e = (Some b', e') ∧
    (ended b' = true ↔ result b' ≠ None) ∧
    match result b' with
    | Some win => eloDelta b' = 25 ∨ eloDelta b' = 15
    | Some lose => eloDelta b' = -25 ∨ eloDelta b' = -15
    | Some draw => eloDelta b' = 0
    | None => eloDelta b' = 0
    end.
Proof.
  intros Hinv.
  destruct (run_keeps evs b e) as (b' & e' & Hrun & (Hk & _) & _).
  destruct (Hk Hinv) as [(_ & _ & Hout) _].
  exists b', e'. split; [done|]. unfold outcome_ok in Hout.
  destruct (ended b'), (result b') as [[]|]; try done;
    destruct Hout; by split_and!.
Qed.

Lemma result_iff_ended_witness :
  let b := the_battle demo_started in
  let evs := [(Place 0 2 9, 500); (Tick all_callbacks, 1000);
              (Quit all_callbacks, 1500); (Tick all_callbacks, 2000)] in
  session_inv b ∧
  ∃ b' e', run evs (Some b) demo_env = (Some b', e') ∧
    (ended b' = true ↔ result b' ≠ None) ∧
    match result b' with
    | Some win => eloDelta b' = 25 ∨ eloDelta b' = 15
    | Some lose => eloDelta b' = -25 ∨ eloDelta b' = -15
    | Some draw => eloDelta b' = 0
    | None => eloDelta b' = 0
    end.
Proof.
  split; [exact demo_started_inv|].
  exact (result_iff_ended _ _ demo_env demo_started_inv).
Defined.

(** No event changes what [startBattle] fixed: seed, difficulty, puzzle,
    solution and original grid, the opponent's name, avatar and speed,
    the number of cells to fill and the opponent's queue, which is never
    consumed.  The cells of the working grid under a clue stay as they
    were, and the flags [started], [ended], [playerFinished] and
    [aiFinished] are never reset. *)
Theorem session_data_fixed (evs : list (Event * Z)) (b : Battle) (e : Env) :
  ∃ b' e', run evs (Some b) e = (Some b', e') ∧
    (seed b', difficulty b', puzzle b', solution b', original b')
    = (seed b, difficulty b, puzzle b, solution b, original b) ∧
    (aiName b', aiAvatar b', aiSpeed b', aiTotalCells b', aiCellsQueue b')
    = (aiName b, aiAvatar b, aiSpeed b, aiTotalCells b, aiCellsQueue b) ∧
    (∀ r c v, cell (original b) r c = Some v → v ≠ 0 →
       cell (playerBoard b') r c = cell (playerBoard b) r c) ∧
    (started b = true → started b' = true) ∧
    (ended b = true → ended b' = true) ∧
    (playerFinished b = true → playerFinished b' = true) ∧
    (aiFinished b = true → aiFinished b' = true).
Proof.
  destruct (run_keeps evs b e)
    as (b' & e' & Hrun & (_ & (Hfix & Hclues & _ & _ & ? & ? & ? & ?) & _) & _).
  exists b', e'. unfold fixed_part in Hfix.
  split_and!; try done; congruence.
Qed.

(** Where [Math.random] returns numbers of [0, 1), the opponent never has
    more than four cells of a burst ahead of it. *)
Theorem burst_at_most_four (evs : list (Event * Z)) (b : Battle) (e : Env) :
  fair_env e → 0 <= aiBurstRemaining b <= 4 →
  ∃ b' e', run evs (Some b) e = (Some b', e') ∧
    0 <= aiBurstRemaining b' <= 4.
Proof.
  intros Hfair Hburst.
  destruct (run_keeps evs b e) as (b' & e' & Hrun & (_ & _ & Hk) & _).
  exists b', e'. split; [done|]. by apply Hk.
Qed.

Lemma burst_at_most_four_witness :
  let b := the_battle demo_started in
  let evs := [(AIAction all_callbacks, 900); (AIAction all_callbacks, 2000);
              (AIAction all_callbacks, 3000)] in
  fair_env demo_env ∧ 0 <= aiBurstRemaining b <= 4 ∧
  ∃ b' e', run evs (Some b) demo_env = (Some b', e') ∧
    0 <= aiBurstRemaining b' <= 4.
Proof.
  assert (fair_env demo_env) as Hfair
    by (intros [|n]; split; vm_compute; congruence).
  assert (0 <= aiBurstRemaining (the_battle demo_started) <= 4) as Hburst
    by (split; vm_compute; congruence).
  split; [exact Hfair|]. split; [exact Hburst|].
  exact (burst_at_most_four _ _ demo_env Hfair Hburst).
Defined.

(** ** Creating a session *)

Lemma math_random_fair w :
  fair w →
  unit_interval (SudokuEngine.math_random w).1 ∧
  fair (SudokuEngine.math_random w).2.
Proof. intros Hfair. split; [apply Hfair|]. intros n. apply Hfair. Qed.

Lemma shuffleArray_from_fair {A} i (arr arr' : list A) w w' :
  fair w → shuffleArray_from i arr w = (arr', w') → arr' ≡ₚ arr ∧ fair w'.
Proof.
  revert arr w. induction i as [|i IH]; intros arr w Hw; cbn [shuffleArray_from].
  - by intros [= <- <-].
  - destruct (math_random_fair w Hw) as [_ Hw1].
    destruct (SudokuEngine.math_random w) as [x w1].
    intros H. destruct (IH _ _ Hw1 H) as [Hperm ?].
    by rewrite swap_Permutation in Hperm.
Qed.

Lemma shuffleArray_fair {A} (arr arr' : list A) w w' :
  fair w → shuffleArray arr w = (arr', w') → arr' ≡ₚ arr ∧ fair w'.
Proof. apply shuffleArray_from_fair. Qed.

Lemma pick_fair arr w :
  fair w → arr ≠ [] → (pick arr w).1 ∈ arr ∧ fair (pick arr w).2.
Proof.
  intros Hw Hne. unfold pick.
  destruct (math_random_fair w Hw) as [Hx Hw1].
  destruct (SudokuEngine.math_random w) as [x w1]. cbn [fst snd] in *.
  split; [|done].
  assert (0 < Z.of_nat (length arr)) as Hlen by (destruct arr; [done|cbn; lia]).
  pose proof (floor_mul_range x _ Hx Hlen) as Hrange.
  destruct (arr !! Z.to_nat (floor_mul x (Z.of_nat (length arr)))) as [s|] eqn:Hs.
  - cbn. by eapply list_elem_of_lookup_2.
  - apply lookup_ge_None in Hs. lia.
Qed.

Lemma NoDup_omap {A B} (f : A → option B) (l : list A) :
  (∀ x y z, f x = Some z → f y = Some z → x = y) →
  NoDup l → NoDup (omap f l).
Proof.
  intros Hinj. induction 1 as [|x l Hx Hnd IH]; cbn; [constructor|].
  destruct (f x) as [z|] eqn:Hz; [|done].
  constructor; [|done]. intros Hin.
  apply list_elem_of_omap in Hin as (y & Hy & Hfy).
  by rewrite (Hinj x y z Hz Hfy) in Hx.
Qed.

Lemma length_omap_filter {A B} (f : A → option B) (P : A → Prop)
    `{!∀ x, Decision (P x)} (l : list A) :
  (∀ x, P x ↔ is_Some (f x)) →
  length (omap f l) = length (filter P l).
Proof.
  intros HP. induction l as [|x l IH]; [done|].
  assert (omap f (x :: l)
          = match f x with Some y => y :: omap f l | None => omap f l end)
    as -> by done.
  rewrite filter_cons.
  destruct (decide (P x)) as [Hx|Hx]; rewrite HP in Hx.
  - destruct Hx as [z ->]. rewrite !length_cons. by rewrite IH.
  - destruct (f x); [by destruct Hx|done].
Qed.

(** The cells [startBattle] collects are the empty cells of the puzzle,
    each once, with the value the solution has there. *)
Lemma emptyCells_spec data q :
  q ∈ emptyCells data ↔
  (row q < 9)%nat ∧ (col q < 9)%nat ∧
  cell (SudokuEngine.puzzle data) (row q) (col q) = Some 0 ∧
  val q = cell (SudokuEngine.solution data) (row q) (col q).
Proof.
  unfold emptyCells. rewrite list_elem_of_omap. split.
  - intros ([r c] & Hin & Hf). apply elem_of_positions in Hin as [Hr Hc].
    cbn [fst snd] in Hf. unfold cell_is in Hf.
    case_bool_decide as Hz; [|done]. injection Hf as <-. by split_and!.
  - intros (Hr & Hc & Hz & Hval). exists (row q, col q).
    split; [by apply elem_of_positions|]. cbn [fst snd]. unfold cell_is.
    rewrite bool_decide_eq_true_2 by done. destruct q. cbn in *. by subst.
Qed.

Lemma emptyCells_NoDup data : NoDup (emptyCells data).
Proof.
  apply NoDup_omap; [|apply positions_NoDup].
  intros [r1 c1] [r2 c2] q H1 H2. cbn [fst snd] in *.
  repeat case_match; simplify_eq. done.
Qed.

Lemma emptyCells_length data :
  length (emptyCells data) = count_empty (SudokuEngine.puzzle data).
Proof.
  unfold emptyCells, count_empty. apply length_omap_filter.
  intros [r c]. cbn [fst snd]. destruct (cell_is _ r c 0); split; try done.
Qed.

Lemma startBattle_general difficulty bronze w :
  fair w →
  ∃ seed data cells aiName aiAvatar w',
    startBattle difficulty bronze w
      = Some (newBattle seed difficulty data cells aiName aiAvatar, w') ∧
    0 <= seed < 2147483647 ∧
    solved (SudokuEngine.solution data) ∧ wf (SudokuEngine.puzzle data) ∧
    holes_of (SudokuEngine.puzzle data) (SudokuEngine.solution data) ∧
    countSolutions (SudokuEngine.puzzle data) 2 = Some 1 ∧
    1 <= Z.of_nat (count_empty (SudokuEngine.puzzle data)) <= 64 ∧
    cells ≡ₚ emptyCells data ∧
    aiName ∈ ("AI Bot" :: AI_NAMES)%string ∧
    (bronze = false → aiName ∈ AI_NAMES ∧ aiAvatar ∈ pfps) ∧
    fair w'.
Proof.
  intros Hw. unfold startBattle.
  assert (unit_interval (platform w (drawn w))) as Hx by apply Hw.
  pose proof (randomSeed_bounds w Hx) as Hseed.
  destruct (randomSeed w) as [seed w0] eqn:Hrs.
  cbn [fst snd] in Hseed. destruct Hseed as (Hseed & _).
  assert (fair w0) as Hw0.
  { unfold randomSeed in Hrs.
    destruct (math_random_fair w Hw) as [_ H].
    destruct (SudokuEngine.math_random w). by injection Hrs as _ <-. }
  destruct (generate_general difficulty (Some seed) w0 I)
    as (p & sol & removed & w1 & -> & Hsol & Hwf & Hholes & Hone & Hlo & Hhi
        & Hcount & _ & Hw1).
  specialize (Hw1 Hw0).
  set (data := mkPuzzle p sol difficulty (81 - removed) (Some seed)).
  destruct (shuffleArray (emptyCells data) w1) as [cells w2] eqn:Hsh.
  apply shuffleArray_fair in Hsh as [Hperm Hw2]; [|done].
  assert (1 <= Z.of_nat (count_empty (SudokuEngine.puzzle data)) <= 64)
    as Hrange.
  { unfold data. cbn [SudokuEngine.puzzle].
    destruct (default (30, 37) (DIFFICULTY !! difficulty)) as [lo hi] eqn:Hband.
    apply DIFFICULTY_bounds in Hband. cbn [fst] in Hhi. lia. }
  change p with (SudokuEngine.puzzle data) in Hwf, Hholes, Hone.
  change sol with (SudokuEngine.solution data) in Hsol, Hholes.
  assert (∀ wa, fair wa →
            ∃ aiName aiAvatar wb,
              (let '(aiName, w) := pick AI_NAMES wa in
               let '(aiAvatar, w) := pick pfps w in (aiName, aiAvatar, w))
              = (aiName, aiAvatar, wb) ∧
              aiName ∈ AI_NAMES ∧ aiAvatar ∈ pfps ∧ fair wb) as Hpick.
  { intros wa Hwa.
    destruct (pick_fair AI_NAMES wa Hwa) as [Hname Hw4]; [done|].
    destruct (pick AI_NAMES wa) as [aiName w4]. cbn [fst snd] in Hname, Hw4.
    destruct (pick_fair pfps w4 Hw4) as [Havatar Hw5]; [done|].
    destruct (pick pfps w4) as [aiAvatar w5]. cbn [fst snd] in Havatar, Hw5.
    by exists aiName, aiAvatar, w5. }
  destruct bronze.
  - destruct (math_random_fair w2 Hw2) as [_ Hw3].
    destruct (SudokuEngine.math_random w2) as [x w3]. cbn [snd] in Hw3.
    destruct (Qltb x 0.5).
    + exists seed, data, cells, "AI Bot"%string, "🤖"%string, w3.
      split; [reflexivity|]. clearbody data.
      split_and!; [lia|lia|exact Hsol|exact Hwf|exact Hholes|exact Hone|
                   lia|lia|exact Hperm|left|discriminate|exact Hw3].
    + destruct (Hpick w3 Hw3) as (aiName & aiAvatar & w5 & -> & ? & ? & ?).
      exists seed, data, cells, aiName, aiAvatar, w5.
      split; [reflexivity|]. clearbody data.
      split_and!; [lia|lia|exact Hsol|exact Hwf|exact Hholes|exact Hone|
                   lia|lia|exact Hperm|by right|by intros _|done].
  - destruct (Hpick w2 Hw2) as (aiName & aiAvatar & w5 & -> & ? & ? & ?).
    exists seed, data, cells, aiName, aiAvatar, w5.
    split; [reflexivity|]. clearbody data.
    split_and!; [lia|lia|exact Hsol|exact Hwf|exact Hholes|exact Hone|
                 lia|lia|exact Hperm|by right|by intros _|done].
Qed.

(** On a platform source that returns numbers of [0, 1), [startBattle]
    returns, for each of the five difficulties, a session on a puzzle whose only completion is the solution
    of the session; the seed is one [randomSeed] can return; working grid
    and original grid are copies of the puzzle; the number of cells the
    opponent has to fill is the number of empty cells, between 1 and 64,
    so that the progress fractions are defined; and the session is
    neither started nor ended. *)
Theorem startBattle_session (difficulty : string) (bronze : bool) (w : World) :
  listed difficulty → fair w →
  ∃ b w', startBattle difficulty bronze w = Some (b, w') ∧
    0 <= seed b < 2147483647 ∧
    completion (puzzle b) (solution b) ∧
    (∀ s, completion (puzzle b) s → s = solution b) ∧
    original b = puzzle b ∧ playerBoard b = puzzle b ∧
    aiTotalCells b = Z.of_nat (count_empty (puzzle b)) ∧
    1 <= aiTotalCells b <= 64 ∧
    session_inv b ∧ started b = false ∧ ended b = false ∧ fair w'.
Proof.
  intros _ Hw.
  destruct (startBattle_general difficulty bronze w Hw)
    as (sd & data & cells & nm & av & w' & -> & Hseed & Hsol & Hwf
        & Hholes & Hone & Hrange & Hperm & _ & _ & Hw').
  eexists _, w'. split; [done|].
  destruct (sole_completion _ _ Hwf Hsol Hholes Hone) as [Hcomp Huniq].
  assert (Z.of_nat (length cells)
          = Z.of_nat (count_empty (SudokuEngine.puzzle data))) as Hlen
    by (by rewrite Hperm, emptyCells_length).
  destruct (newBattle_inv sd difficulty data cells nm av) as [Hinv _].
  cbn [newBattle seed puzzle solution original playerBoard aiTotalCells
       started ended].
  rewrite cloneGrid_id. split_and!; try done; lia.
Qed.

Lemma startBattle_session_witness :
  listed "easy" ∧ fair idle_world ∧
  ∃ b w', startBattle "easy" false idle_world = Some (b, w') ∧
    0 <= seed b < 2147483647 ∧
    completion (puzzle b) (solution b) ∧
    (∀ s, completion (puzzle b) s → s = solution b) ∧
    original b = puzzle b ∧ playerBoard b = puzzle b ∧
    aiTotalCells b = Z.of_nat (count_empty (puzzle b)) ∧
    1 <= aiTotalCells b <= 64 ∧
    session_inv b ∧ started b = false ∧ ended b = false ∧ fair w'.
Proof.
  assert (listed "easy") as Hd by (by eexists).
  split; [exact Hd|]. split; [exact fair_idle_world|].
  exact (startBattle_session "easy" false idle_world Hd fair_idle_world).
Defined.

(** In the session [startBattle] returns for one of the five
    difficulties, on a platform source that returns numbers of [0, 1),
    the queue of the opponent lists every empty cell of the puzzle once,
    with the value the solution has there; the opponent is called
    ["AI Bot"] or by one of the names of [AI_NAMES], and outside the
    bronze league by one of these names, with one of the fifteen
    avatars. *)
Theorem startBattle_queue_and_opponent
    (difficulty : string) (bronze : bool) (w : World) :
  listed difficulty → fair w →
  ∃ b w', startBattle difficulty bronze w = Some (b, w') ∧
    NoDup (aiCellsQueue b) ∧
    (∀ q, q ∈ aiCellsQueue b ↔
       (row q < 9)%nat ∧ (col q < 9)%nat ∧
       cell (puzzle b) (row q) (col q) = Some 0 ∧
       val q = cell (solution b) (row q) (col q)) ∧
    aiName b ∈ ("AI Bot" :: AI_NAMES)%string ∧
    (bronze = false → aiName b ∈ AI_NAMES ∧ aiAvatar b ∈ pfps).
Proof.
  intros _ Hw.
  destruct (startBattle_general difficulty bronze w Hw)
    as (sd & data & cells & nm & av & w' & -> & _ & _ & _
        & _ & _ & _ & Hperm & Hname & Hleague & _).
  eexists _, w'. split; [done|].
  cbn [newBattle puzzle solution aiCellsQueue aiName aiAvatar].
  split_and!; try done.
  - rewrite Hperm. apply emptyCells_NoDup.
  - intros q. rewrite Hperm. apply emptyCells_spec.
Qed.

Lemma startBattle_queue_and_opponent_witness :
  listed "evil" ∧ fair idle_world ∧
  ∃ b w', startBattle "evil" true idle_world = Some (b, w') ∧
    NoDup (aiCellsQueue b) ∧
    (∀ q, q ∈ aiCellsQueue b ↔
       (row q < 9)%nat ∧ (col q < 9)%nat ∧
       cell (puzzle b) (row q) (col q) = Some 0 ∧
       val q = cell (solution b) (row q) (col q)) ∧
    aiName b ∈ ("AI Bot" :: AI_NAMES)%string ∧
    (true = false → aiName b ∈ AI_NAMES ∧ aiAvatar b ∈ pfps).
Proof.
  assert (listed "evil") as Hd by (by eexists).
  split; [exact Hd|]. split; [exact fair_idle_world|].
  exact (startBattle_queue_and_opponent "evil" true idle_world Hd
           fair_idle_world).
Defined.

(** ** Single operations of a session *)







Lemma Qltb_mono r c c' : (c <= c')%Q → Qltb r c' = false → Qltb r c = false.
Proof.
  unfold Qltb. rewrite !negb_false_iff, !Qle_bool_iff. intros. lra.
Qed.

(** When the opponent fills its last cell (a draw of at least 0.15 is a
    solve at every difficulty), it has finished; the session ends as a
    loss with 25 rating points taken, unless the human had completed the
    grid before: then the session goes on, with no further action of the
    opponent scheduled. *)
Theorem opponent_fills_last_cell (cb : Callbacks) (b : Battle) (e : Env) :
  ended b = false →
  Qltb (random e (consumed e)) 0.15 = false →
  aiTotalCells b <= aiCellsFilled b + 1 →
  ∃ b' e', aiAction cb b e = (b', e') ∧
    aiFinished b' = true ∧ aiCellsFilled b' = aiCellsFilled b + 1 ∧
    if playerFinished b
    then ended b' = false ∧ result b' = result b ∧
         aiIntervalId b' = aiIntervalId b ∧
         effects e' = effects e ++
           (if onAIProgress cb
            then [OnAIProgress (aiCellsFilled b + 1) (aiTotalCells b)]
            else [])
    else ended b' = true ∧ result b' = Some lose ∧ eloDelta b' = -25.
Proof.
  intros Hended Hdraw Hlast. unfold aiAction. rewrite Hended.
  cbv zeta. cbn [math_random].
  assert (∀ c, (c <= 0.15)%Q → Qltb (random e (consumed e)) c = false) as Hc
    by (intros c Hle; by apply (Qltb_mono _ c 0.15)).
  rewrite Hc by (repeat case_match; unfold Qle; cbn; lia).
  cbn [aiTotalCells aiCellsFilled set_aiConsecutiveSolves set_aiCellsFilled].
  destruct (Z.leb_spec (aiTotalCells b) (aiCellsFilled b + 1)) as [_|?]; [|lia].
  cbn [playerFinished set_aiFinished set_aiConsecutiveSolves set_aiCellsFilled].
  destruct (playerFinished b) eqn:Hfin; cbn [negb].
  - eexists _, _. split; [reflexivity|]. cbn.
    split_and!; try done. by destruct (onAIProgress cb); [|rewrite app_nil_r].
  - unfold endBattle. cbn. rewrite Hended, Hfin. cbn.
    eexists _, _. split; [reflexivity|]. by cbn.
Qed.

Lemma opponent_fills_last_cell_witness :
  let b := set_aiCellsFilled 35 (the_battle demo_started) in
  let e := mkEnv (λ _, 0.5%Q) 0 0 5 [] in
  ended b = false ∧
  Qltb (random e (consumed e)) 0.15 = false ∧
  aiTotalCells b <= aiCellsFilled b + 1 ∧
  ∃ b' e', aiAction all_callbacks b e = (b', e') ∧
    aiFinished b' = true ∧ aiCellsFilled b' = aiCellsFilled b + 1 ∧
    if playerFinished b
    then ended b' = false ∧ result b' = result b ∧
         aiIntervalId b' = aiIntervalId b ∧
         effects e' = effects e ++
           (if onAIProgress all_callbacks
            then [OnAIProgress (aiCellsFilled b + 1) (aiTotalCells b)]
            else [])
    else ended b' = true ∧ result b' = Some lose ∧ eloDelta b' = -25.
Proof.
  set (b := set_aiCellsFilled 35 (the_battle demo_started)).
  set (e := mkEnv (λ _, 0.5%Q) 0 0 5 []).
  assert (ended b = false) as H1 by (vm_compute; reflexivity).
  assert (Qltb (random e (consumed e)) 0.15 = false) as H2
    by (vm_compute; reflexivity).
  assert (aiTotalCells b <= aiCellsFilled b + 1) as H3
    by (vm_compute; congruence).
  exact (conj H1 (conj H2 (conj H3
           (opponent_fills_last_cell all_callbacks b e H1 H2 H3)))).
Defined.

(** [beginBattle] takes effect once: a second call, with whatever
    callbacks, changes nothing and sets no timer. *)
Theorem beginBattle_once (cb cb' : Callbacks) (battle : option Battle) (e : Env) :
  beginBattle cb' (beginBattle cb battle e).1 (beginBattle cb battle e).2
  = beginBattle cb battle e.
Proof.
  unfold beginBattle at 2 3 4.
  destruct battle as [b|]; [|done].
  destruct (started b) eqn:Hstarted; cbn [fst snd].
  { unfold beginBattle. by rewrite Hstarted. }
  cbn [new_timer fst snd].
  match goal with |- context [scheduleNextAICell ?b1 ?e1] =>
    destruct (scheduleNextAICell_keeps b1 e1)
      as [(_ & (_ & _ & _ & _ & Hs & _) & _) _];
    destruct (scheduleNextAICell b1 e1) as [b' e'] end.
  cbn [fst snd] in *. unfold beginBattle. by rewrite Hs.
Qed.

(** ** The clock display *)

Lemma pad_two_digits n :
  0 <= n < 100 → padStart2 (pretty n) = digit (n / 10) +:+ digit (n mod 10).
Proof.
  intros Hn.
  assert (Forall (λ n, padStart2 (pretty n)
                       = digit (n / 10) +:+ digit (n mod 10)) (seqZ 0 100))
    as Hall by (apply (bool_decide_unpack _); vm_compute; exact I).
  rewrite Forall_forall in Hall. apply Hall, elem_of_seqZ. lia.
Qed.

Lemma pad_negative n :
  -60 < n < 0 → padStart2 (pretty n) = pretty n.
Proof.
  intros Hn.
  assert (Forall (λ n, padStart2 (pretty n) = pretty n) (seqZ (-59) 59))
    as Hall by (apply (bool_decide_unpack _); vm_compute; exact I).
  rewrite Forall_forall in Hall. apply Hall, elem_of_seqZ. lia.
Qed.

(** Below a hundred minutes [formatTime] shows two digits of minutes, a
    colon and two digits of seconds. *)
Theorem formatTime_mm_ss (m s : Z) :
  0 <= m < 100 → 0 <= s < 60 →
  formatTime (60 * m + s)
  = digit (m / 10) +:+ digit (m mod 10) +:+ ":" +:+
    digit (s / 10) +:+ digit (s mod 10).
Proof.
  intros Hm Hs. unfold formatTime.
  assert ((60 * m + s) / 60 = m) as ->
    by (symmetry; apply (Z.div_unique _ _ _ s); lia).
  assert (Z.rem (60 * m + s) 60 = s) as ->.
  { rewrite Z.rem_mod_nonneg by lia. symmetry.
    apply (Z.mod_unique _ _ m); lia. }
  by rewrite !pad_two_digits by lia.
Qed.

Lemma formatTime_mm_ss_witness :
  0 <= 9 < 100 ∧ 0 <= 5 < 60 ∧
  formatTime (60 * 9 + 5)
  = digit (9 / 10) +:+ digit (9 mod 10) +:+ ":" +:+
    digit (5 / 10) +:+ digit (5 mod 10).
Proof.
  split; [lia|]. split; [lia|].
  apply (formatTime_mm_ss 9 5); lia.
Defined.

(** A negative time within a minute of zero is shown without padding,
    as minute -1 and the negative seconds: the clock of a session that
    timed out at -1 reads ["-1:-1"]. *)
Theorem formatTime_negative (t : Z) :
  -60 < t < 0 → formatTime t = "-1:" +:+ pretty t.
Proof.
  intros Ht. unfold formatTime.
  assert (t / 60 = -1) as -> by (symmetry; apply (Z.div_unique _ _ _ (t + 60)); lia).
  assert (Z.rem t 60 = t) as -> by (apply Z.rem_small_iff; lia).
  assert (padStart2 (pretty (-1)) = "-1"%string) as ->
    by (vm_compute; reflexivity).
  by rewrite pad_negative by lia.
Qed.

Lemma formatTime_negative_witness :
  -60 < -1 < 0 ∧ formatTime (-1) = "-1:" +:+ pretty (-1) ∧
  "-1:" +:+ pretty (-1) = "-1:-1"%string.
Proof.
  split; [lia|].
  split; [apply (formatTime_negative (-1)); lia|vm_compute; reflexivity].
Defined.

(** * Properties of the single-player game *)

Import Game.
Local Open Scope game_scope.

(** ** The accesses *)

Lemma read_wf (grid : State → Grid) row col s :
  wf (grid s) → (row < 9)%nat →
  read grid row col s = Done (cell (grid s) row col) s.
Proof.
  intros Hwf Hrow. destruct (wf_row _ row Hwf Hrow) as (r & Hr & _).
  unfold read, bind, get, cell. by rewrite Hr.
Qed.

Lemma isOriginalCell_cases row col s :
  (original s !! row = None ∧ isOriginalCell row col s = Throws s) ∨
  (isOriginalCell row col s = Done true s) ∨
  (cell (original s) row col = Some 0 ∧ isOriginalCell row col s = Done false s).
Proof.
  unfold isOriginalCell, read, bind, get, ret, cell.
  destruct (original s !! row) as [r|]; [|by left]. right. cbn.
  case_bool_decide; [by right|by left].
Qed.

Lemma wf_notes_row n r :
  wf_notes n → (r < 9)%nat → ∃ rw, n !! r = Some rw ∧ length rw = 9%nat.
Proof.
  intros [Hlen Hrows] Hr.
  destruct (lookup_lt_is_Some_2 n r) as [rw Hrw]; [lia|].
  exists rw. split; [done|]. by eapply Forall_lookup_1 in Hrows.
Qed.

Lemma note_at_wf n r c :
  wf_notes n → (r < 9)%nat → (c < 9)%nat → is_Some (note_at n r c).
Proof.
  intros Hwf Hr Hc. destruct (wf_notes_row n r Hwf Hr) as (rw & Hrw & Hlen).
  unfold note_at. rewrite Hrw. cbn. apply lookup_lt_is_Some_2. lia.
Qed.

Lemma note_at_lt n r c x :
  wf_notes n → note_at n r c = Some x → (r < 9)%nat ∧ (c < 9)%nat.
Proof.
  intros [Hlen Hrows] Hx. unfold note_at in Hx.
  destruct (n !! r) as [rw|] eqn:Hrw; [|done]. cbn in Hx.
  pose proof (lookup_lt_Some _ _ _ Hrw). pose proof (lookup_lt_Some _ _ _ Hx).
  eapply Forall_lookup_1 in Hrows; [|done]. cbn in Hrows. lia.
Qed.

Lemma wf_notes_set n r c (x : gset Z) :
  wf_notes n → wf_notes (alter (<[c := x]>) r n).
Proof.
  intros [Hlen Hrows]. split; [by rewrite length_alter|].
  apply Forall_alter; [done|]. intros rw _ Hrw. by rewrite length_insert.
Qed.

Lemma note_at_set_eq n r c (x : gset Z) :
  is_Some (note_at n r c) → note_at (alter (<[c := x]>) r n) r c = Some x.
Proof.
  unfold note_at. intros [y Hy].
  destruct (n !! r) as [rw|] eqn:Hrw; [|done]. cbn in Hy.
  rewrite list_lookup_alter_eq, Hrw. cbn.
  apply list_lookup_insert_eq. by eapply lookup_lt_Some.
Qed.

Lemma note_at_set_ne n r c (x : gset Z) r' c' :
  (r, c) ≠ (r', c') →
  note_at (alter (<[c := x]>) r n) r' c' = note_at n r' c'.
Proof.
  intros Hne. unfold note_at.
  destruct (decide (r = r')) as [<-|Hr].
  - rewrite list_lookup_alter_eq. destruct (n !! r) as [rw|]; [|done]. cbn.
    apply list_lookup_insert_ne. congruence.
  - by rewrite list_lookup_alter_ne.
Qed.

(** The notes after [delete(num)] on the sets at the positions [ps], in
    order. *)
Lemma for_each_delete num ps s :
  wf_notes (notes s) →
  Forall (λ pos, (pos.1 < 9)%nat ∧ (pos.2 < 9)%nat) ps →
  ∃ n, for_each (delete_note num) ps s = Done () (set_notes n s) ∧
    wf_notes n ∧
    ∀ r c x, note_at (notes s) r c = Some x →
      note_at n r c
      = Some (if bool_decide ((r, c) ∈ ps)
              then x ∖ from_option singleton ∅ num else x).
Proof.
  revert s. induction ps as [|[r0 c0] ps IH]; intros s Hwf Hps.
  - exists (notes s). cbn. split_and!; [by destruct s|done|].
    intros r c x Hx. by rewrite bool_decide_eq_false_2 by apply not_elem_of_nil.
  - apply Forall_cons in Hps as [[Hr0 Hc0] Hps]. cbn [fst snd] in Hr0, Hc0.
    destruct (note_at_wf _ r0 c0 Hwf Hr0 Hc0) as [x0 Hx0].
    cbn [for_each]. unfold bind at 1, delete_note at 1, bind at 1, note at 1.
    unfold bind at 1, get at 1. cbn [fst snd].
    unfold note_at in Hx0. rewrite Hx0. unfold ret at 1, set_note, modify.
    set (n1 := alter _ r0 (notes s)).
    destruct (IH (set_notes n1 s)) as (n & Hn & Hwfn & Hat);
      [by apply wf_notes_set|done|].
    exists n. split_and!; [by rewrite Hn; destruct s|done|].
    intros r c x Hx.
    destruct (decide ((r0, c0) = (r, c))) as [[= <- <-]|Hne].
    + assert (x = x0) as -> by (unfold note_at in Hx; congruence).
      rewrite (Hat r0 c0 (x0 ∖ from_option singleton ∅ num)).
      * rewrite (bool_decide_eq_true_2 ((r0, c0) ∈ (r0, c0) :: ps)) by left.
        f_equal. destruct (bool_decide ((r0, c0) ∈ ps)); [|done].
        apply set_eq. intros z. rewrite !elem_of_difference. tauto.
      * destruct s. apply note_at_set_eq. by exists x0.
    + rewrite (Hat r c x).
      * rewrite (bool_decide_ext ((r, c) ∈ (r0, c0) :: ps) ((r, c) ∈ ps));
          [done|]. rewrite elem_of_cons. split; [|by right].
        intros [Heq|?]; [|done]. by destruct Hne.
      * destruct s. cbn. unfold n1. by rewrite note_at_set_ne.
Qed.

Lemma related_in_range row col :
  (row < 9)%nat → (col < 9)%nat →
  Forall (λ pos, (pos.1 < 9)%nat ∧ (pos.2 < 9)%nat) (related row col).
Proof.
  intros Hr Hc. apply Forall_forall. intros [r c] Hin. cbn [fst snd].
  unfold related in Hin. rewrite !elem_of_app in Hin.
  pose proof (Nat.div_mod_eq row 3). pose proof (Nat.div_mod_eq col 3).
  destruct Hin as [Hin|[Hin|Hin]].
  - apply list_elem_of_fmap in Hin as (c' & [= -> ->] & Hc').
    apply elem_of_seq in Hc'. lia.
  - apply list_elem_of_fmap in Hin as (r' & [= -> ->] & Hr').
    apply elem_of_seq in Hr'. lia.
  - apply list_elem_of_bind in Hin as (r' & Hin & Hr').
    apply list_elem_of_fmap in Hin as (c' & [= -> ->] & Hc').
    apply elem_of_seq in Hr', Hc'. lia.
Qed.

(** The positions [clearRelatedNotes] visits are those of the row, the
    column and the box. *)
Lemma elem_of_related row col r c :
  (r < 9)%nat → (c < 9)%nat →
  (r, c) ∈ related row col ↔ peer row col r c.
Proof.
  intros Hr Hc. unfold related, peer. rewrite !elem_of_app. split.
  - intros [Hin|[Hin|Hin]].
    + apply list_elem_of_fmap in Hin as (c' & [= -> ->] & _). by left.
    + apply list_elem_of_fmap in Hin as (r' & [= -> ->] & _). right. by left.
    + apply list_elem_of_bind in Hin as (r' & Hin & Hr').
      apply list_elem_of_fmap in Hin as (c' & [= -> ->] & Hc').
      apply elem_of_seq in Hr', Hc'. right. right.
      split; by apply box_range.
  - intros [->|[->|[Hbr Hbc]]].
    + left. apply list_elem_of_fmap. exists c. split; [done|].
      apply elem_of_seq. lia.
    + right. left. apply list_elem_of_fmap. exists r. split; [done|].
      apply elem_of_seq. lia.
    + right. right. apply list_elem_of_bind. exists r. split.
      * apply list_elem_of_fmap. exists c. split; [done|].
        apply elem_of_seq. apply box_range in Hbc. lia.
      * apply elem_of_seq. apply box_range in Hbr. lia.
Qed.

(** ** Running the operations *)

Lemma run_get {A} (f : State → M A) s : bind get f s = f s s.
Proof. done. Qed.

Lemma run_ret {A B} (a : A) (f : A → M B) s : bind (ret a) f s = f a s.
Proof. done. Qed.

Lemma run_modify {A} (g : State → State) (f : unit → M A) s :
  bind (modify g) f s = f () (g s).
Proof. done. Qed.

Lemma run_Done {A B} (m : M A) (f : A → M B) s a s' :
  m s = Done a s' → bind m f s = f a s'.
Proof. unfold bind. by intros ->. Qed.

Lemma run_Throws {A B} (m : M A) (f : A → M B) s s' :
  m s = Throws s' → bind m f s = Throws s'.
Proof. unfold bind. by intros ->. Qed.

Lemma run_bind {A B C} (m : M A) (f : A → M B) (g : B → M C) s :
  bind (bind m f) g s = bind m (λ a, bind (f a) g) s.
Proof. unfold bind. by destruct (m s). Qed.

Lemma run_if {A B} (c : bool) (m1 m2 : M A) (f : A → M B) s :
  bind (if c then m1 else m2) f s = if c then bind m1 f s else bind m2 f s.
Proof. by destruct c. Qed.

(** Run the binds, reads of the state and assignments at the head of the
    computation in [H]. *)
Ltac mrun H :=
  repeat first
    [ rewrite run_bind in H | rewrite run_modify in H
    | rewrite run_get in H | rewrite run_ret in H ].

Lemma checkWin_from_spec ps s :
  wf (puzzle s) → wf (solution s) →
  Forall (λ pos, (pos.1 < 9)%nat ∧ (pos.2 < 9)%nat) ps →
  ∃ b, checkWin_from ps s = Done b s ∧
    (b = true ↔
     Forall (λ pos, cell (puzzle s) pos.1 pos.2 = cell (solution s) pos.1 pos.2)
       ps).
Proof.
  intros Hp Hs. induction 1 as [|[r c] ps [Hr Hc] Hps IH]; cbn [checkWin_from].
  - exists true. split; [done|]. split; [constructor|done].
  - cbn [fst snd] in Hr, Hc.
    rewrite (run_Done _ _ _ _ _ (read_wf puzzle r c s Hp Hr)).
    rewrite (run_Done _ _ _ _ _ (read_wf solution r c s Hs Hr)).
    case_bool_decide as Heq; cbn [negb].
    + destruct IH as (b & -> & Hb). exists b. split; [done|].
      rewrite Hb, Forall_cons. cbn [fst snd]. tauto.
    + exists false. split; [done|]. split; [done|].
      intros [? _]%Forall_cons. done.
Qed.

Lemma checkWin_spec s :
  wf (puzzle s) → wf (solution s) →
  ∃ b, checkWin s = Done b s ∧ (b = true ↔ all_match s).
Proof.
  intros Hp Hs.
  destruct (checkWin_from_spec positions_row_major s Hp Hs positions_in_range)
    as (b & Hb & Hiff).
  exists b. split; [done|]. rewrite Hiff, Forall_forall. unfold all_match.
  split.
  - intros H r c Hr Hc. apply (H (r, c)). by apply elem_of_positions.
  - intros H [r c] [Hr Hc]%elem_of_positions. by apply H.
Qed.

(** [stopTimer] changes at most the handle of the timer. *)
Lemma stopTimer_spec s :
  ∃ t, stopTimer s = Done () (set_timerInterval t s).
Proof.
  unfold stopTimer. rewrite run_get.
  destruct (timerInterval s) as [h|] eqn:Ht.
  - destruct (h =? 0).
    + exists (Some h). unfold ret. f_equal. destruct s. cbn in *. by subst.
    + by exists None.
  - exists None. unfold ret. f_equal. destruct s. cbn in *. by subst.
Qed.

(** ** What the moves do *)

Lemma clear_note_spec row col s :
  wf_notes (notes s) → (row < 9)%nat → (col < 9)%nat →
  clear_note row col s
  = Done () (set_notes (alter (<[col := ∅]>) row (notes s)) s).
Proof.
  intros Hwf Hr Hc. destruct (note_at_wf _ row col Hwf Hr Hc) as [x Hx].
  unfold clear_note, note. rewrite run_bind, run_get.
  unfold note_at in Hx. by rewrite Hx.
Qed.

Lemma write_spec row col v s :
  wf (puzzle s) → (row < 9)%nat →
  write row col v s = Done () (set_puzzle (store (puzzle s) row col v) s).
Proof.
  intros Hwf Hr. destruct (wf_row _ row Hwf Hr) as (r & Hrow & _).
  unfold write. rewrite run_get. by rewrite Hrow.
Qed.

Lemma clearRelatedNotes_spec row col num s :
  wf_notes (notes s) → (row < 9)%nat → (col < 9)%nat →
  ∃ n, clearRelatedNotes row col num s = Done () (set_notes n s) ∧
    wf_notes n ∧
    ∀ r c x, note_at (notes s) r c = Some x →
      note_at n r c
      = Some (if bool_decide ((r, c) ∈ related row col)
              then x ∖ from_option singleton ∅ num else x).
Proof.
  intros Hwf Hr Hc. apply for_each_delete; [done|]. by apply related_in_range.
Qed.

Lemma all_match_ext s s' :
  puzzle s' = puzzle s → solution s' = solution s →
  all_match s ↔ all_match s'.
Proof. unfold all_match. by intros -> ->. Qed.

(** The state [placeNumber] leaves when it places the number. *)
Lemma placeNumber_places num autoNotes s row col :
  wf_state s → selectedCell s = Some (row, col) → gameOver s = false →
  notesMode s = false → cell (original s) row col = Some 0 →
  ∃ o cv s',
    cell (puzzle s) row col = Some o ∧ cell (solution s) row col = Some cv ∧
    placeNumber num autoNotes s
      = Done (Placed (bool_decide (num = cv)) (gameOver s') (won s')) s' ∧
    puzzle s' = set_cell (puzzle s) row col num ∧
    history s' = history s ++ [mkAction row col (Some o) (Some num)] ∧
    redoStack s' = [] ∧ hintsUsed s' = hintsUsed s ∧
    setting s' = setting s ∧
    wf_notes (notes s') ∧ note_at (notes s') row col = Some ∅ ∧
    (num = cv → autoNotes = true →
     ∀ r c x, (r, c) ≠ (row, col) → note_at (notes s) r c = Some x →
       note_at (notes s') r c
       = Some (if bool_decide (peer row col r c) then x ∖ {[num]} else x)) ∧
    (num = cv →
     mistakes s' = mistakes s ∧
     ((all_match s' ∧ gameOver s' = true ∧ won s' = true) ∨
      (¬ all_match s' ∧ gameOver s' = false ∧ won s' = won s))) ∧
    (num ≠ cv →
     mistakes s' = mistakes s + 1 ∧
     ((MAX_MISTAKES <= mistakes s' ∧ gameOver s' = true ∧ won s' = false) ∨
      (mistakes s' < MAX_MISTAKES ∧ gameOver s' = false ∧ won s' = won s))).
Proof.
  intros (Hwp & Hws & Hwo & Hwn) Hsel Hover Hmode Horig.
  destruct (cell_lt _ _ _ _ Hwo Horig) as [Hr Hc].
  destruct (wf_cell _ row col Hwp Hr Hc) as [o Ho].
  destruct (wf_cell _ row col Hws Hr Hc) as [cv Hcv].
  exists o, cv.
  remember (placeNumber num autoNotes s) as out eqn:Hout.
  unfold placeNumber in Hout. rewrite run_get, Hsel, Hover in Hout.
  destruct (isOriginalCell_cases row col s) as [[Hnone _]|[Htrue|[_ Hfalse]]].
  { destruct (wf_row _ row Hwo Hr) as (? & ? & _). congruence. }
  { unfold isOriginalCell in Htrue.
    rewrite (run_Done _ _ _ _ _ (read_wf original row col s Hwo Hr)) in Htrue.
    rewrite Horig in Htrue. done. }
  rewrite (run_Done _ _ _ _ _ Hfalse), Hmode in Hout.
  rewrite (run_Done _ _ _ _ _ (read_wf puzzle row col s Hwp Hr)), Ho in Hout.
  unfold pushHistory in Hout. rewrite run_modify in Hout.
  set (s1 := set_redoStack [] _) in Hout.
  assert (wf (puzzle s1) ∧ wf (solution s1) ∧ wf_notes (notes s1)
          ∧ solution s1 = solution s) as (Hwp1 & Hws1 & Hwn1 & Hsol1)
    by done.
  rewrite (run_Done _ _ _ _ _ (read_wf solution row col s1 Hws1 Hr)) in Hout.
  rewrite Hsol1, Hcv in Hout.
  rewrite (run_Done _ _ _ _ _ (clear_note_spec row col s1 Hwn1 Hr Hc)) in Hout.
  set (s2 := set_notes _ s1) in Hout.
  assert (wf (puzzle s2) ∧ puzzle s2 = puzzle s) as (Hwp2 & Hp2) by done.
  rewrite (run_Done _ _ _ _ _ (write_spec row col (Some num) s2 Hwp2 Hr)) in Hout.
  rewrite Hp2 in Hout. cbn [store] in Hout.
  set (s3 := set_puzzle _ s2) in Hout.
  assert (wf_notes (notes s3) ∧
          note_at (notes s3) row col = Some ∅ ∧
          ∀ r c, (r, c) ≠ (row, col) →
            note_at (notes s3) r c = note_at (notes s) r c)
    as (Hwn3 & Hcleared & Hothers).
  { change (notes s3) with (alter (<[col := ∅]>) row (notes s)). split_and!.
    - by apply wf_notes_set.
    - apply note_at_set_eq. by apply note_at_wf.
    - intros r c Hne. by apply note_at_set_ne. }
  assert (cell (puzzle s3) row col = Some num) as Hnum
    by (by apply cell_set_cell_eq).
  assert (∀ sa : State,
            puzzle sa = puzzle s3 → solution sa = solution s →
            wf (puzzle sa) ∧ wf (solution sa)) as Hwfa.
  { intros sa -> ->. split; [|done]. by apply wf_set_cell. }
  destruct (decide (num = cv)) as [->|Hwrong].
  - rewrite (bool_decide_eq_true_2 (Some cv = Some cv)) in Hout by done.
    cbn [negb] in Hout.
    rewrite (bool_decide_eq_true_2 (cv = cv)) by done.
    assert (∃ n, (if autoNotes then clearRelatedNotes row col (Some cv)
                  else ret ()) s3 = Done () (set_notes n s3) ∧
              wf_notes n ∧ note_at n row col = Some ∅ ∧
              (autoNotes = true →
               ∀ r c x, (r, c) ≠ (row, col) →
                 note_at (notes s) r c = Some x →
                 note_at n r c
                 = Some (if bool_decide (peer row col r c)
                         then x ∖ {[cv]} else x)))
      as (n & Hclear & Hwfn & Hn0 & Hpeers).
    { destruct autoNotes.
      - destruct (clearRelatedNotes_spec row col (Some cv) s3 Hwn3 Hr Hc)
          as (n & Hn & Hwfn & Hat).
        exists n. split_and!; [done|done| |].
        + rewrite (Hat _ _ _ Hcleared). f_equal.
          destruct (bool_decide _); [|done].
          apply set_eq. intros z. rewrite elem_of_difference.
          split; [by intros [? _]|]. by intros ?%elem_of_empty.
        + intros _ r c x Hne Hx.
          destruct (note_at_lt _ _ _ _ Hwn Hx) as [Hr' Hc'].
          rewrite <- Hothers in Hx by done.
          rewrite (Hat _ _ _ Hx). f_equal.
          by rewrite (bool_decide_ext _ _ (elem_of_related row col r c Hr' Hc')).
      - exists (notes s3). split_and!; [|done|done|done].
        unfold ret. f_equal. }
    rewrite (run_Done _ _ _ _ _ Hclear) in Hout. mrun Hout.
    set (s4 := set_notes n s3) in Hout.
    assert (gameOver s4 = false) as Hover4 by done.
    rewrite Hover4 in Hout. cbn [negb] in Hout.
    destruct (Hwfa s4) as [Hwp4 Hws4]; [done|done|].
    destruct (checkWin_spec s4 Hwp4 Hws4) as (b & Hcheck & Hb).
    rewrite run_bind, (run_Done _ _ _ _ _ Hcheck) in Hout.
    assert (puzzle s4 = set_cell (puzzle s) row col cv ∧
            solution s4 = solution s ∧ won s4 = won s ∧
            mistakes s4 = mistakes s) as (Hp4 & Hs4 & Hw4 & Hm4)
      by (by split_and!).
    destruct b.
    + unfold win in Hout. mrun Hout.
      destruct (stopTimer_spec (set_won true (set_gameOver true s4)))
        as [t Ht].
      rewrite (run_Done _ _ _ _ _ Ht) in Hout. mrun Hout.
      eexists. split_and!; [done|done|exact Hout|done..| |done].
      intros _. split; [done|]. left. split; [|done].
      destruct Hb as [Hb _]. by apply (all_match_ext s4); [..|apply Hb].
    + mrun Hout.
      eexists. split_and!; [done|done|exact Hout|done..| |done].
      intros _. split; [done|]. right. split; [|by split].
      intros Hall. destruct Hb as [_ Hb]. discriminate (Hb Hall).
  - rewrite (bool_decide_eq_false_2 (Some num = Some cv)) in Hout by congruence.
    cbn [negb] in Hout.
    rewrite (bool_decide_eq_false_2 (num = cv)) by done.
    mrun Hout.
    set (s4 := set_mistakes _ s3) in Hout.
    assert (mistakes s4 = mistakes s + 1 ∧ won s4 = won s) as [Hm4 Hw4]
      by done.
    rewrite Hm4 in Hout.
    destruct (Z.leb_spec MAX_MISTAKES (mistakes s + 1)) as [Hlost|Hgo].
    + mrun Hout.
      destruct (stopTimer_spec (set_won false (set_gameOver true s4)))
        as [t Ht].
      rewrite (run_Done _ _ _ _ _ Ht) in Hout. mrun Hout.
      cbn [gameOver set_timerInterval set_won set_gameOver negb] in Hout.
      mrun Hout.
      eexists. split_and!; [done|done|exact Hout|done..|].
      intros _. split; [done|]. left. by split_and!.
    + mrun Hout.
      assert (gameOver s4 = false) as Hover4 by done.
      rewrite Hover4 in Hout. cbn [negb] in Hout.
      destruct (Hwfa s4) as [Hwp4 Hws4]; [done|done|].
      destruct (checkWin_spec s4 Hwp4 Hws4) as (b & Hcheck & Hb).
      rewrite run_bind, (run_Done _ _ _ _ _ Hcheck) in Hout.
      destruct b.
      { destruct Hb as [Hb _]. specialize (Hb eq_refl row col Hr Hc).
        assert (puzzle s4 = puzzle s3 ∧ solution s4 = solution s) as [Hp4 Hs4]
          by done.
        rewrite Hp4, Hs4, Hnum, Hcv in Hb. congruence. }
      mrun Hout.
      eexists. split_and!; [done|done|exact Hout|done..|].
      intros _. split; [done|]. right. by split_and!.
Qed.

(** The guard [isOriginalCell] lets only cells through that are no
    clues. *)
Lemma isOriginalCell_false row col s :
  wf (original s) → cell (original s) row col = Some 0 →
  isOriginalCell row col s = Done false s.
Proof.
  intros Hwo Horig. destruct (cell_lt _ _ _ _ Hwo Horig) as [Hr Hc].
  unfold isOriginalCell.
  rewrite (run_Done _ _ _ _ _ (read_wf original row col s Hwo Hr)), Horig.
  done.
Qed.

(** In notes mode [placeNumber] changes the notes only. *)
Lemma placeNumber_notes num autoNotes s row col :
  wf_state s → selectedCell s = Some (row, col) → gameOver s = false →
  notesMode s = true → cell (original s) row col = Some 0 →
  ∃ r s',
    placeNumber num autoNotes s = Done r s' ∧
    (puzzle s', history s', redoStack s', mistakes s', hintsUsed s',
     gameOver s', won s')
    = (puzzle s, history s, redoStack s, mistakes s, hintsUsed s,
       gameOver s, won s) ∧
    setting s' = setting s ∧ wf_notes (notes s').
Proof.
  intros (Hwp & Hws & Hwo & Hwn) Hsel Hover Hmode Horig.
  destruct (cell_lt _ _ _ _ Hwo Horig) as [Hr Hc].
  remember (placeNumber num autoNotes s) as out eqn:Hout.
  unfold placeNumber in Hout. rewrite run_get, Hsel, Hover in Hout.
  rewrite (run_Done _ _ _ _ _ (isOriginalCell_false row col s Hwo Horig)),
    Hmode in Hout.
  unfold toggleNote in Hout.
  rewrite (run_Done _ _ _ _ _ (read_wf puzzle row col s Hwp Hr)) in Hout.
  destruct (negb _); [by eexists _, _|].
  destruct (note_at_wf _ row col Hwn Hr Hc) as [x Hx].
  unfold note in Hout. rewrite run_bind, run_get in Hout.
  unfold note_at in Hx. rewrite Hx, run_ret in Hout.
  destruct (bool_decide (num ∈ x)); unfold set_note in Hout; mrun Hout;
    (eexists _, _; split_and!; [exact Hout|done|done|by apply wf_notes_set]).
Qed.

(** The state [eraseCell] leaves when it erases. *)
Lemma eraseCell_erases s row col :
  wf_state s → selectedCell s = Some (row, col) → gameOver s = false →
  cell (original s) row col = Some 0 →
  ∃ o s',
    cell (puzzle s) row col = Some o ∧
    eraseCell s = Done () s' ∧
    puzzle s' = set_cell (puzzle s) row col 0 ∧
    history s' = history s ++ [mkAction row col (Some o) (Some 0)] ∧
    redoStack s' = [] ∧
    (mistakes s', hintsUsed s', gameOver s', won s')
    = (mistakes s, hintsUsed s, gameOver s, won s) ∧
    setting s' = setting s ∧ wf_notes (notes s').
Proof.
  intros (Hwp & Hws & Hwo & Hwn) Hsel Hover Horig.
  destruct (cell_lt _ _ _ _ Hwo Horig) as [Hr Hc].
  destruct (wf_cell _ row col Hwp Hr Hc) as [o Ho]. exists o.
  remember (eraseCell s) as out eqn:Hout.
  unfold eraseCell in Hout. rewrite run_get, Hsel, Hover in Hout.
  rewrite (run_Done _ _ _ _ _ (isOriginalCell_false row col s Hwo Horig))
    in Hout.
  rewrite (run_Done _ _ _ _ _ (read_wf puzzle row col s Hwp Hr)), Ho in Hout.
  unfold pushHistory in Hout. rewrite run_modify in Hout.
  set (s1 := set_redoStack [] _) in Hout.
  assert (wf (puzzle s1)) as Hwp1 by done.
  rewrite (run_Done _ _ _ _ _ (write_spec row col (Some 0) s1 Hwp1 Hr)) in Hout.
  set (s2 := set_puzzle _ s1) in Hout.
  assert (wf_notes (notes s2)) as Hwn2 by done.
  rewrite (clear_note_spec row col s2 Hwn2 Hr Hc) in Hout.
  eexists. split_and!; [done|exact Hout|done..|].
  by apply wf_notes_set.
Qed.

(** The state [useHint] leaves when it gives a hint. *)
Lemma useHint_hints s row col :
  wf_state s → selectedCell s = Some (row, col) → gameOver s = false →
  hintsUsed s < MAX_HINTS → cell (original s) row col = Some 0 →
  cell (puzzle s) row col ≠ cell (solution s) row col →
  ∃ o cv s',
    cell (puzzle s) row col = Some o ∧ cell (solution s) row col = Some cv ∧
    useHint s
      = Done (Some (mkHintResult (Some cv) (MAX_HINTS - hintsUsed s'))) s' ∧
    puzzle s' = set_cell (puzzle s) row col cv ∧
    history s' = history s ++ [mkAction row col (Some o) (Some cv)] ∧
    redoStack s' = [] ∧
    hintsUsed s' = hintsUsed s + 1 ∧ mistakes s' = mistakes s ∧
    setting s' = setting s ∧ wf_notes (notes s') ∧
    ((all_match s' ∧ gameOver s' = true ∧ won s' = true) ∨
     (¬ all_match s' ∧ gameOver s' = false ∧ won s' = won s)).
Proof.
  intros (Hwp & Hws & Hwo & Hwn) Hsel Hover Hhints Horig Hdiff.
  destruct (cell_lt _ _ _ _ Hwo Horig) as [Hr Hc].
  destruct (wf_cell _ row col Hwp Hr Hc) as [o Ho].
  destruct (wf_cell _ row col Hws Hr Hc) as [cv Hcv].
  exists o, cv.
  remember (useHint s) as out eqn:Hout.
  unfold useHint in Hout. rewrite run_get, Hsel, Hover in Hout.
  destruct (Z.leb_spec MAX_HINTS (hintsUsed s)) as [?|_]; [lia|].
  rewrite (run_Done _ _ _ _ _ (isOriginalCell_false row col s Hwo Horig))
    in Hout.
  rewrite (run_Done _ _ _ _ _ (read_wf puzzle row col s Hwp Hr)) in Hout.
  rewrite (run_Done _ _ _ _ _ (read_wf solution row col s Hws Hr)) in Hout.
  rewrite bool_decide_eq_false_2 in Hout by done.
  rewrite run_modify in Hout.
  set (s1 := set_hintsUsed _ s) in Hout.
  assert (wf (puzzle s1) ∧ wf (solution s1)) as [Hwp1 Hws1] by done.
  rewrite (run_Done _ _ _ _ _ (read_wf solution row col s1 Hws1 Hr)) in Hout.
  rewrite (run_Done _ _ _ _ _ (read_wf puzzle row col s1 Hwp1 Hr)) in Hout.
  change (cell (solution s1) row col) with (cell (solution s) row col) in Hout.
  change (cell (puzzle s1) row col) with (cell (puzzle s) row col) in Hout.
  rewrite Ho, Hcv in Hout.
  unfold pushHistory in Hout. rewrite run_modify in Hout.
  set (s2 := set_redoStack [] _) in Hout.
  assert (wf (puzzle s2)) as Hwp2 by done.
  rewrite (run_Done _ _ _ _ _ (write_spec row col (Some cv) s2 Hwp2 Hr)) in Hout.
  cbn [store] in Hout.
  set (s3 := set_puzzle _ s2) in Hout.
  assert (wf_notes (notes s3)) as Hwn3 by done.
  rewrite (run_Done _ _ _ _ _ (clear_note_spec row col s3 Hwn3 Hr Hc)) in Hout.
  set (s4 := set_notes _ s3) in Hout.
  assert (wf_notes (notes s4)) as Hwn4 by (by apply wf_notes_set).
  destruct (clearRelatedNotes_spec row col (Some cv) s4 Hwn4 Hr Hc)
    as (n & Hclear & Hwfn & _).
  rewrite (run_Done _ _ _ _ _ Hclear) in Hout.
  set (s5 := set_notes n s4) in Hout.
  assert (wf (puzzle s5) ∧ wf (solution s5)) as [Hwp5 Hws5]
    by (split; [by apply wf_set_cell|done]).
  destruct (checkWin_spec s5 Hwp5 Hws5) as (b & Hcheck & Hb).
  rewrite (run_Done _ _ _ _ _ Hcheck) in Hout.
  destruct b.
  - unfold win in Hout. mrun Hout.
    destruct (stopTimer_spec (set_won true (set_gameOver true s5))) as [t Ht].
    rewrite (run_Done _ _ _ _ _ Ht) in Hout. mrun Hout.
    eexists. split_and!; [done|done|exact Hout|done..|].
    left. split; [|done].
    destruct Hb as [Hb _]. by apply (all_match_ext s5); [..|apply Hb].
  - mrun Hout.
    eexists. split_and!; [done|done|exact Hout|done..|].
    right. split; [|by split].
    intros Hall. destruct Hb as [_ Hb]. discriminate (Hb Hall).
Qed.

(** [undo] and [redo] on stacks that are not empty. *)
Lemma undo_spec s h a :
  wf (puzzle s) → (row a < 9)%nat → gameOver s = false →
  history s = h ++ [a] →
  ∃ s', undo s = Done (Some a) s' ∧
    puzzle s' = store (puzzle s) (row a) (col a) (oldVal a) ∧
    history s' = h ∧ redoStack s' = redoStack s ++ [a] ∧
    (mistakes s', hintsUsed s', gameOver s', won s', notes s',
     timerInterval s')
    = (mistakes s, hintsUsed s, gameOver s, won s, notes s,
       timerInterval s) ∧
    setting s' = setting s.
Proof.
  intros Hwp Hr Hover Hh.
  remember (undo s) as out eqn:Hout.
  unfold undo in Hout. rewrite run_get, Hover, Hh, last_snoc in Hout.
  mrun Hout. rewrite removelast_last in Hout.
  set (s1 := set_redoStack _ _) in Hout.
  assert (wf (puzzle s1)) as Hwp1 by done.
  rewrite (run_Done _ _ _ _ _ (write_spec _ _ _ s1 Hwp1 Hr)) in Hout.
  mrun Hout. eexists. split_and!; [exact Hout|done..].
Qed.

Lemma redo_spec s h a :
  wf (puzzle s) → (row a < 9)%nat → gameOver s = false →
  redoStack s = h ++ [a] →
  ∃ s', redo s = Done (Some a) s' ∧
    puzzle s' = store (puzzle s) (row a) (col a) (newVal a) ∧
    redoStack s' = h ∧ history s' = history s ++ [a] ∧
    (mistakes s', hintsUsed s', gameOver s', won s', notes s',
     timerInterval s')
    = (mistakes s, hintsUsed s, gameOver s, won s, notes s,
       timerInterval s) ∧
    setting s' = setting s.
Proof.
  intros Hwp Hr Hover Hh.
  remember (redo s) as out eqn:Hout.
  unfold redo in Hout. rewrite run_get, Hover, Hh, last_snoc in Hout.
  mrun Hout. rewrite removelast_last in Hout.
  set (s1 := set_history _ _) in Hout.
  assert (wf (puzzle s1)) as Hwp1 by done.
  rewrite (run_Done _ _ _ _ _ (write_spec _ _ _ s1 Hwp1 Hr)) in Hout.
  mrun Hout. eexists. split_and!; [exact Hout|done..].
Qed.

(** ** Invariants of a game *)

Lemma log_from_snoc g0 log g a :
  log_from g0 log g → cell g (row a) (col a) = oldVal a →
  log_from g0 (log ++ [a]) (apply_action g a).
Proof.
  revert g0. induction log as [|a0 log IH]; intros g0; cbn.
  - by intros ->.
  - intros [? ?] ?. split; [done|]. by apply IH.
Qed.

Lemma log_from_snoc_inv g0 log g a :
  log_from g0 (log ++ [a]) g →
  ∃ g1, log_from g0 log g1 ∧ cell g1 (row a) (col a) = oldVal a ∧
    g = apply_action g1 a.
Proof.
  revert g0. induction log as [|a0 log IH]; intros g0; cbn.
  - intros [? ->]. by exists g0.
  - intros [? Hlog]. destruct (IH _ Hlog) as (g1 & ? & ? & ?).
    by exists g1.
Qed.

Lemma log_from_wf g0 log g :
  wf g0 → log_from g0 log g → wf g.
Proof.
  revert g0. induction log as [|a log IH]; intros g0 Hwf; cbn.
  - by intros ->.
  - intros [_ Hlog]. apply (IH (apply_action g0 a)); [|done].
    unfold apply_action, store. destruct (newVal a); [|done].
    by apply wf_set_cell.
Qed.

(** A log that keeps off the clues leaves the cells under them alone. *)
Lemma log_from_clues original g0 log g r c v :
  Forall (free_cell original) log → log_from g0 log g →
  cell original r c = Some v → v ≠ 0 → cell g r c = cell g0 r c.
Proof.
  intros Hfree Hlog Hv Hv0. revert g0 Hlog.
  induction Hfree as [|a log (_ & _ & Ha & _) _ IH]; intros g0; cbn.
  - by intros ->.
  - intros [_ Hlog]. rewrite (IH _ Hlog). unfold apply_action, store.
    destruct (newVal a); [|done]. apply cell_set_cell_ne.
    intros [= <- <-]. congruence.
Qed.

Lemma log_from_replay g0 log g : log_from g0 log g → g = replay g0 log.
Proof.
  revert g0. induction log as [|a log IH]; intros g0; cbn; [done|].
  intros [_ Hlog]. by apply IH.
Qed.

Lemma undo_restores g r c o v :
  cell g r c = Some o → store (store g r c (Some v)) r c (Some o) = g.
Proof. intros H. cbn. by apply set_cell_restore. Qed.

(** The states the moves lead to keep the invariant. *)
Lemma game_inv_move s s' a :
  game_inv s →
  free_cell (original s) a → cell (puzzle s) (row a) (col a) = oldVal a →
  puzzle s' = apply_action (puzzle s) a →
  history s' = history s ++ [a] → redoStack s' = [] →
  setting s' = setting s → wf_notes (notes s') →
  verdict_ok s' →
  game_inv s'.
Proof.
  intros ((Hwp & Hws & Hwo & Hwn) & (Hlog & _ & Hfree) & _)
    Ha Hold Hp Hh Hr Hset Hnotes Hverdict.
  assert (solution s' = solution s ∧ original s' = original s) as [Hs Ho]
    by (unfold setting in Hset; by simplify_eq).
  unfold game_inv, wf_state, log_ok.
  split_and!; [| | |exact Hnotes| | | |exact Hverdict].
  - rewrite Hp. unfold apply_action, store.
    destruct (newVal a); [by apply wf_set_cell|done].
  - by rewrite Hs.
  - by rewrite Ho.
  - rewrite Ho, Hh, Hp. by apply log_from_snoc.
  - exists (puzzle s'). by rewrite Hr.
  - rewrite Ho, Hh, Hr, app_nil_r. apply Forall_app in Hfree as [Hfree _].
    apply Forall_app. split; [done|]. by apply Forall_singleton.
Qed.

(** The states that differ in the notes, the selection, the modes and
    the timer keep the invariant. *)
Lemma game_inv_frame s s' :
  game_inv s →
  (puzzle s', history s', redoStack s', mistakes s', hintsUsed s',
   gameOver s', won s')
  = (puzzle s, history s, redoStack s, mistakes s, hintsUsed s,
     gameOver s, won s) →
  solution s' = solution s → original s' = original s →
  wf_notes (notes s') → game_inv s'.
Proof.
  intros ((Hwp & Hws & Hwo & Hwn) & Hlog & Hverdict) Heq Hs Ho Hnotes.
  injection Heq as Hp Hh Hr Hm Hhu Hgo Hw.
  unfold game_inv, wf_state, log_ok, verdict_ok, all_match in *.
  by rewrite Hp, Hh, Hr, Hm, Hhu, Hgo, Hw, Hs, Ho.
Qed.

Lemma verdict_running s :
  verdict_ok s → gameOver s = false →
  0 <= mistakes s < MAX_MISTAKES ∧ 0 <= hintsUsed s <= MAX_HINTS ∧
  won s = false.
Proof.
  unfold verdict_ok. intros (? & ? & Hv) Hover. rewrite Hover in Hv.
  destruct Hv. split_and!; try done; lia.
Qed.

Lemma free_cell_intro original row col o v :
  wf original → cell original row col = Some 0 →
  free_cell original (mkAction row col (Some o) (Some v)).
Proof.
  intros Hwf Horig. destruct (cell_lt _ _ _ _ Hwf Horig).
  unfold free_cell. by split_and!.
Qed.

Lemma placeNumber_inv num autoNotes s :
  game_inv s → game_inv (state_after (placeNumber num autoNotes s)).
Proof.
  intros Hinv. pose proof Hinv as (Hwf & Hlog & Hverdict).
  destruct (selectedCell s) as [[row col]|] eqn:Hsel;
    [|by unfold placeNumber; rewrite run_get, Hsel].
  destruct (gameOver s) eqn:Hover;
    [by unfold placeNumber; rewrite run_get, Hsel, Hover|].
  destruct (isOriginalCell_cases row col s) as [[_ Hc]|[Hc|[Horig Hc]]];
    [by unfold placeNumber;
       rewrite run_get, Hsel, Hover, (run_Throws _ _ _ _ Hc)
    |by unfold placeNumber;
       rewrite run_get, Hsel, Hover, (run_Done _ _ _ _ _ Hc)|].
  destruct (verdict_running s Hverdict Hover) as (Hm & Hh & Hwon).
  destruct (notesMode s) eqn:Hmode.
  - destruct (placeNumber_notes num autoNotes s row col Hwf Hsel Hover Hmode Horig)
      as (r & s' & -> & Hcore & Hset & Hn).
    apply (game_inv_frame s); try done;
      unfold setting in Hset; by simplify_eq.
  - destruct (placeNumber_places num autoNotes s row col Hwf Hsel Hover Hmode Horig)
      as (o & cv & s' & Ho & Hcv & -> & Hp & Hhist & Hr & Hhints & Hset & Hn
          & _ & _ & Hcorrect & Hwrong).
    apply (game_inv_move s s' (mkAction row col (Some o) (Some num)));
      try done.
    { apply free_cell_intro; [apply Hwf|done]. }
    unfold verdict_ok. rewrite Hhints.
    destruct (decide (num = cv)) as [Heq|Hne].
    + destruct (Hcorrect Heq) as [-> [(? & -> & ->)|(? & -> & ->)]];
        split_and!; try done; lia.
    + destruct (Hwrong Hne) as [Hm' [(? & -> & ->)|(? & -> & ->)]];
        split_and!; try done; unfold MAX_MISTAKES in *; lia.
Qed.

Lemma eraseCell_inv s : game_inv s → game_inv (state_after (eraseCell s)).
Proof.
  intros Hinv. pose proof Hinv as (Hwf & Hlog & Hverdict).
  destruct (selectedCell s) as [[row col]|] eqn:Hsel;
    [|by unfold eraseCell; rewrite run_get, Hsel].
  destruct (gameOver s) eqn:Hover;
    [by unfold eraseCell; rewrite run_get, Hsel, Hover|].
  destruct (isOriginalCell_cases row col s) as [[_ Hc]|[Hc|[Horig Hc]]];
    [by unfold eraseCell;
       rewrite run_get, Hsel, Hover, (run_Throws _ _ _ _ Hc)
    |by unfold eraseCell;
       rewrite run_get, Hsel, Hover, (run_Done _ _ _ _ _ Hc)|].
  destruct (eraseCell_erases s row col Hwf Hsel Hover Horig)
    as (o & s' & Ho & -> & Hp & Hhist & Hr & Hcore & Hset & Hn).
  apply (game_inv_move s s' (mkAction row col (Some o) (Some 0))); try done.
  { apply free_cell_intro; [apply Hwf|done]. }
  destruct (verdict_running s Hverdict Hover) as (Hm & Hh & Hwon).
  injection Hcore as Hm' Hhu' Hgo' Hw'.
  unfold verdict_ok. rewrite Hm', Hhu', Hgo', Hw', Hover.
  split_and!; try done; lia.
Qed.

Lemma useHint_inv s : game_inv s → game_inv (state_after (useHint s)).
Proof.
  intros Hinv. pose proof Hinv as (Hwf & Hlog & Hverdict).
  destruct (selectedCell s) as [[row col]|] eqn:Hsel;
    [|by unfold useHint; rewrite run_get, Hsel].
  destruct (gameOver s) eqn:Hover;
    [by unfold useHint; rewrite run_get, Hsel, Hover|].
  destruct (Z.leb_spec MAX_HINTS (hintsUsed s)) as [Hmax|Hmax].
  { unfold useHint. rewrite run_get, Hsel, Hover.
    by destruct (Z.leb_spec MAX_HINTS (hintsUsed s)); [|lia]. }
  destruct (isOriginalCell_cases row col s) as [[_ Hc]|[Hc|[Horig Hc]]].
  - unfold useHint. rewrite run_get, Hsel, Hover.
    destruct (Z.leb_spec MAX_HINTS (hintsUsed s)); [lia|].
    by rewrite (run_Throws _ _ _ _ Hc).
  - unfold useHint. rewrite run_get, Hsel, Hover.
    destruct (Z.leb_spec MAX_HINTS (hintsUsed s)); [lia|].
    by rewrite (run_Done _ _ _ _ _ Hc).
  - destruct (decide (cell (puzzle s) row col = cell (solution s) row col))
      as [Heq|Hdiff].
    { destruct (cell_lt _ _ _ _ (proj1 (proj2 (proj2 Hwf))) Horig) as [Hrow _].
      unfold useHint. rewrite run_get, Hsel, Hover.
      destruct (Z.leb_spec MAX_HINTS (hintsUsed s)); [lia|].
      rewrite (run_Done _ _ _ _ _ Hc).
      rewrite (run_Done _ _ _ _ _ (read_wf puzzle row col s (proj1 Hwf) Hrow)).
      rewrite (run_Done _ _ _ _ _
                 (read_wf solution row col s (proj1 (proj2 Hwf)) Hrow)).
      by rewrite bool_decide_eq_true_2. }
    destruct (verdict_running s Hverdict Hover) as (Hm & Hh & Hwon).
    destruct (useHint_hints s row col Hwf Hsel Hover Hmax Horig Hdiff)
      as (o & cv & s' & Ho & Hcv & -> & Hp & Hhist & Hr & Hhints & Hmist
          & Hset & Hn & Hres).
    apply (game_inv_move s s' (mkAction row col (Some o) (Some cv)));
      try done.
    { apply free_cell_intro; [apply Hwf|done]. }
    unfold verdict_ok. rewrite Hhints, Hmist.
    destruct Hres as [(? & -> & ->)|(? & -> & ->)];
      split_and!; try done; unfold MAX_HINTS in *; lia.
Qed.

Lemma last_None_nil {A} (l : list A) : last l = None → l = [].
Proof.
  destruct l as [|x l] using rev_ind; [done|]. by rewrite last_snoc.
Qed.

Lemma last_Some_snoc {A} (l : list A) a : last l = Some a → ∃ h, l = h ++ [a].
Proof.
  destruct l as [|x l _] using rev_ind; [done|].
  rewrite last_snoc. intros [= ->]. by exists l.
Qed.

Lemma undo_inv s : game_inv s → game_inv (state_after (undo s)).
Proof.
  intros Hinv. pose proof Hinv as (Hwf & (Hlog & [g Hredo] & Hfree) & Hverdict).
  destruct (gameOver s) eqn:Hover;
    [by unfold undo; rewrite run_get, Hover|].
  destruct (last (history s)) as [a|] eqn:Hlast;
    [|by unfold undo; rewrite run_get, Hover, Hlast].
  apply last_Some_snoc in Hlast as [h Hh].
  rewrite Hh in Hlog, Hfree.
  apply log_from_snoc_inv in Hlog as (g1 & Hlog1 & Hold & Hp).
  assert (free_cell (original s) a) as Ha.
  { rewrite Forall_app, Forall_app, Forall_singleton in Hfree. tauto. }
  pose proof Ha as (Hr & Hc & Horig & [o Ho] & [v Hv]).
  destruct (undo_spec s h a (proj1 Hwf) Hr Hover Hh)
    as (s' & -> & Hp' & Hh' & Hr' & Hcore & Hset).
  cbn [state_after].
  assert (solution s' = solution s ∧ original s' = original s) as [Hs' Ho']
    by (unfold setting in Hset; by simplify_eq).
  assert (puzzle s' = g1) as Hg1.
  { rewrite Hp', Hp, Ho. unfold apply_action. rewrite Hv.
    apply undo_restores. congruence. }
  injection Hcore as Hm' Hhu' Hgo' Hw' Hn' _.
  destruct Hwf as (Hwp & Hws & Hwo & Hwn).
  destruct (verdict_running s Hverdict Hover) as (? & ? & ?).
  unfold game_inv, wf_state, log_ok, verdict_ok.
  rewrite Hg1, Hs', Ho', Hh', Hr', Hn', Hm', Hhu', Hgo', Hw', Hover.
  split_and!; try done; try lia.
  - by apply (log_from_wf (original s) h).
  - exists g. rewrite rev_unit. cbn. by rewrite <- Hp.
  - rewrite !Forall_app in *. rewrite Forall_singleton in *. tauto.
Qed.

Lemma redo_inv s : game_inv s → game_inv (state_after (redo s)).
Proof.
  intros Hinv. pose proof Hinv as (Hwf & (Hlog & [g Hredo] & Hfree) & Hverdict).
  destruct (gameOver s) eqn:Hover;
    [by unfold redo; rewrite run_get, Hover|].
  destruct (last (redoStack s)) as [a|] eqn:Hlast;
    [|by unfold redo; rewrite run_get, Hover, Hlast].
  apply last_Some_snoc in Hlast as [h Hh].
  rewrite Hh in Hredo, Hfree. rewrite rev_unit in Hredo.
  destruct Hredo as [Hold Hredo].
  assert (free_cell (original s) a) as Ha.
  { rewrite !Forall_app, Forall_singleton in Hfree. tauto. }
  pose proof Ha as (Hr & Hc & Horig & [o Ho] & [v Hv]).
  destruct (redo_spec s h a (proj1 Hwf) Hr Hover Hh)
    as (s' & -> & Hp' & Hr' & Hh' & Hcore & Hset).
  cbn [state_after].
  assert (solution s' = solution s ∧ original s' = original s) as [Hs' Ho']
    by (unfold setting in Hset; by simplify_eq).
  injection Hcore as Hm' Hhu' Hgo' Hw' Hn' _.
  destruct Hwf as (Hwp & Hws & Hwo & Hwn).
  destruct (verdict_running s Hverdict Hover) as (? & ? & ?).
  unfold game_inv, wf_state, log_ok, verdict_ok.
  rewrite Hp', Hs', Ho', Hh', Hr', Hn', Hm', Hhu', Hgo', Hw', Hover.
  split_and!; try done; try lia.
  - rewrite Hv. by apply wf_set_cell.
  - by apply log_from_snoc.
  - by exists g.
  - rewrite !Forall_app in *. rewrite Forall_singleton in *. tauto.
Qed.

Lemma step_inv op s : game_inv s → game_inv (step op s).
Proof.
  intros Hinv. destruct op; unfold step.
  - apply (game_inv_frame s); try done. apply Hinv.
  - by apply placeNumber_inv.
  - by apply eraseCell_inv.
  - by apply useHint_inv.
  - by apply undo_inv.
  - by apply redo_inv.
  - apply (game_inv_frame s); try done. apply Hinv.
  - apply (game_inv_frame s); try done. apply Hinv.
  - unfold timerTick. rewrite run_get.
    destruct (negb (paused s) && negb (gameOver s)); [|done].
    apply (game_inv_frame s); try done. apply Hinv.
Qed.

Lemma run_inv ops s : game_inv s → game_inv (run ops s).
Proof.
  revert s. induction ops as [|op ops IH]; intros s Hinv; [done|].
  change (run (op :: ops) s) with (run ops (step op s)).
  apply IH. by apply step_inv.
Qed.

(** No step changes the solution or the original grid. *)
Lemma step_fixed op s :
  game_inv s →
  solution (step op s) = solution s ∧ original (step op s) = original s.
Proof.
  intros Hinv. pose proof Hinv as (Hwf & Hlog & Hverdict).
  assert (∀ s', setting s' = setting s →
            solution s' = solution s ∧ original s' = original s) as Hset
    by (intros s' H; unfold setting in H; by simplify_eq).
  destruct op; unfold step; try done.
  - destruct (selectedCell s) as [[row col]|] eqn:Hsel;
      [|by unfold placeNumber; rewrite run_get, Hsel].
    destruct (gameOver s) eqn:Hover;
      [by unfold placeNumber; rewrite run_get, Hsel, Hover|].
    destruct (isOriginalCell_cases row col s) as [[_ Hc]|[Hc|[Horig Hc]]];
      [by unfold placeNumber;
         rewrite run_get, Hsel, Hover, (run_Throws _ _ _ _ Hc)
      |by unfold placeNumber;
         rewrite run_get, Hsel, Hover, (run_Done _ _ _ _ _ Hc)|].
    destruct (notesMode s) eqn:Hmode.
    + destruct (placeNumber_notes num autoNotes s row col Hwf Hsel Hover Hmode
                  Horig) as (r & s' & -> & _ & ? & _).
      by apply Hset.
    + destruct (placeNumber_places num autoNotes s row col Hwf Hsel Hover Hmode
                  Horig) as (o & cv & s' & _ & _ & -> & _ & _ & _ & _ & ? & _).
      by apply Hset.
  - pose proof (eraseCell_inv s Hinv) as _.
    destruct (selectedCell s) as [[row col]|] eqn:Hsel;
      [|by unfold eraseCell; rewrite run_get, Hsel].
    destruct (gameOver s) eqn:Hover;
      [by unfold eraseCell; rewrite run_get, Hsel, Hover|].
    destruct (isOriginalCell_cases row col s) as [[_ Hc]|[Hc|[Horig Hc]]];
      [by unfold eraseCell;
         rewrite run_get, Hsel, Hover, (run_Throws _ _ _ _ Hc)
      |by unfold eraseCell;
         rewrite run_get, Hsel, Hover, (run_Done _ _ _ _ _ Hc)|].
    destruct (eraseCell_erases s row col Hwf Hsel Hover Horig)
      as (o & s' & _ & -> & _ & _ & _ & _ & ? & _).
    by apply Hset.
  - destruct (selectedCell s) as [[row col]|] eqn:Hsel;
      [|by unfold useHint; rewrite run_get, Hsel].
    destruct (gameOver s) eqn:Hover;
      [by unfold useHint; rewrite run_get, Hsel, Hover|].
    unfold useHint at 1 2. rewrite !run_get, Hsel, Hover.
    destruct (Z.leb_spec MAX_HINTS (hintsUsed s)) as [Hmax|Hmax]; [done|].
    destruct (isOriginalCell_cases row col s) as [[_ Hc]|[Hc|[Horig Hc]]];
      [by rewrite !(run_Throws _ _ _ _ Hc)
      |by rewrite !(run_Done _ _ _ _ _ Hc)|].
    destruct (decide (cell (puzzle s) row col = cell (solution s) row col))
      as [Heq|Hdiff].
    { destruct (cell_lt _ _ _ _ (proj1 (proj2 (proj2 Hwf))) Horig) as [Hrow _].
      rewrite !(run_Done _ _ _ _ _ Hc).
      rewrite !(run_Done _ _ _ _ _ (read_wf puzzle row col s (proj1 Hwf) Hrow)).
      rewrite !(run_Done _ _ _ _ _
                  (read_wf solution row col s (proj1 (proj2 Hwf)) Hrow)).
      by rewrite bool_decide_eq_true_2. }
    destruct (useHint_hints s row col Hwf Hsel Hover Hmax Horig Hdiff)
      as (o & cv & s' & _ & _ & Heq & _ & _ & _ & _ & _ & ? & _).
    unfold useHint in Heq. rewrite run_get, Hsel, Hover in Heq.
    destruct (Z.leb_spec MAX_HINTS (hintsUsed s)) in Heq; [lia|].
    rewrite Heq. by apply Hset.
  - destruct Hlog as (_ & _ & Hfree).
    destruct (gameOver s) eqn:Hover;
      [by unfold undo; rewrite run_get, Hover|].
    destruct (last (history s)) as [a|] eqn:Hlast;
      [|by unfold undo; rewrite run_get, Hover, Hlast].
    apply last_Some_snoc in Hlast as [h Hh]. rewrite Hh in Hfree.
    assert (free_cell (original s) a) as (Hr & _)
      by (rewrite !Forall_app, Forall_singleton in Hfree; tauto).
    destruct (undo_spec s h a (proj1 Hwf) Hr Hover Hh)
      as (s' & -> & _ & _ & _ & _ & ?).
    by apply Hset.
  - destruct Hlog as (_ & _ & Hfree).
    destruct (gameOver s) eqn:Hover;
      [by unfold redo; rewrite run_get, Hover|].
    destruct (last (redoStack s)) as [a|] eqn:Hlast;
      [|by unfold redo; rewrite run_get, Hover, Hlast].
    apply last_Some_snoc in Hlast as [h Hh]. rewrite Hh in Hfree.
    assert (free_cell (original s) a) as (Hr & _)
      by (rewrite !Forall_app, Forall_singleton in Hfree; tauto).
    destruct (redo_spec s h a (proj1 Hwf) Hr Hover Hh)
      as (s' & -> & _ & _ & _ & _ & ?).
    by apply Hset.
  - unfold timerTick. rewrite !run_get.
    by destruct (negb (paused s) && negb (gameOver s)).
Qed.

Lemma run_fixed ops s :
  game_inv s →
  solution (run ops s) = solution s ∧ original (run ops s) = original s.
Proof.
  revert s. induction ops as [|op ops IH]; intros s Hinv; [done|].
  change (run (op :: ops) s) with (run ops (step op s)).
  destruct (IH (step op s) (step_inv op s Hinv)) as [-> ->].
  by apply step_fixed.
Qed.

(** Once the game is over, no step changes the board, the notes, the
    stacks, the counters, the timer or the verdict. *)
Lemma step_settled op s :
  gameOver s = true → settled (step op s) = settled s.
Proof.
  intros Hover. destruct op; unfold step; try done.
  - unfold placeNumber. rewrite run_get, Hover. by destruct (selectedCell s) as [[]|].
  - unfold eraseCell. rewrite run_get, Hover. by destruct (selectedCell s) as [[]|].
  - unfold useHint. rewrite run_get, Hover. by destruct (selectedCell s) as [[]|].
  - unfold undo. by rewrite run_get, Hover.
  - unfold redo. by rewrite run_get, Hover.
  - unfold timerTick. rewrite run_get, Hover. by rewrite andb_false_r.
Qed.

(** ** The game as a whole *)

Lemma startTimer_fresh handle s :
  timerInterval s = None →
  startTimer handle s = Done () (set_timerInterval (Some handle) s).
Proof.
  intros Hnone. unfold startTimer, stopTimer.
  by rewrite run_bind, run_get, Hnone, run_ret.
Qed.

Lemma newState_inv difficulty seed data handle :
  wf (SudokuEngine.puzzle data) → wf (SudokuEngine.solution data) →
  game_inv (state_after (startTimer handle (newState difficulty seed data))).
Proof.
  intros Hwp Hws. rewrite startTimer_fresh by done. cbn [state_after].
  unfold game_inv, wf_state, log_ok, verdict_ok, MAX_MISTAKES, MAX_HINTS.
  cbn. rewrite cloneGrid_id.
  split_and!; try done; try lia.
  - split; [done|]. by repeat constructor.
  - by exists (SudokuEngine.puzzle data).
Qed.

Lemma count_empty_pos g :
  (0 < count_empty g)%nat →
  ∃ r c, (r < 9)%nat ∧ (c < 9)%nat ∧ cell g r c = Some 0.
Proof.
  unfold count_empty. intros Hpos.
  destruct (filter _ positions_row_major) as [|[r c] l] eqn:E; [cbn in Hpos; lia|].
  assert ((r, c) ∈ filter (λ p, cell_is g p.1 p.2 0 = true) positions_row_major)
    as Hin by (rewrite E; left).
  apply list_elem_of_filter in Hin as [Hz Hin]. cbn in Hz.
  apply elem_of_positions in Hin as [Hr Hc].
  apply bool_decide_eq_true in Hz. by exists r, c.
Qed.

(** For each of the five difficulties, [newGame] starts a game on a
    puzzle whose only completion is the solution of the game; the board
    is the original grid, nothing is logged, no mistake or hint is
    counted, and the game is not over: at least one cell is empty, so the
    board is not the solution yet. *)
Theorem newGame_starts_open_game
    (difficulty : string) (seed : option Z) (handle : Z) (w : World) :
  listed difficulty → source_for seed w →
  ∃ s w', newGame difficulty seed handle w = Some (s, w') ∧
    completion (puzzle s) (solution s) ∧
    (∀ g, completion (puzzle s) g → g = solution s) ∧
    original s = puzzle s ∧ history s = [] ∧ redoStack s = [] ∧
    mistakes s = 0 ∧ hintsUsed s = 0 ∧ Game.seed s = seed ∧
    gameOver s = false ∧ ¬ all_match s ∧ game_inv s.
Proof.
  intros _ Hsource. unfold newGame.
  destruct (generate_general difficulty seed w Hsource)
    as (p & sol & removed & w' & -> & Hsol & Hwf & Hholes & Hone & Hlo & _
        & Hcount & _).
  eexists _, w'. split; [done|].
  destruct (sole_completion p sol Hwf Hsol Hholes Hone) as [Hcomp Huniq].
  pose proof (newState_inv difficulty seed
                (mkPuzzle p sol difficulty (81 - removed) seed) handle
                Hwf (proj1 Hsol)) as Hinv.
  rewrite startTimer_fresh in * by done. cbn [state_after] in *.
  cbn [newState set_timerInterval puzzle solution original history redoStack
       mistakes hintsUsed Game.seed gameOver SudokuEngine.puzzle
       SudokuEngine.solution SudokuEngine.seed].
  rewrite cloneGrid_id. split_and!; try done.
  - destruct seed as [z|]; [|done]. by destruct (z =? 0).
  - intros Hall. destruct (count_empty_pos p) as (r & c & Hr & Hc & Hz); [lia|].
    specialize (Hall r c Hr Hc). cbn in Hall. rewrite Hz in Hall.
    destruct Hsol as (_ & _ & Hfull & _). by apply (Hfull r c).
Qed.

Lemma newGame_starts_open_game_witness :
  listed "easy" ∧ source_for (Some 12345) idle_world ∧
  ∃ s w', newGame "easy" (Some 12345) 1 idle_world = Some (s, w') ∧
    completion (puzzle s) (solution s) ∧
    (∀ g, completion (puzzle s) g → g = solution s) ∧
    original s = puzzle s ∧ history s = [] ∧ redoStack s = [] ∧
    mistakes s = 0 ∧ hintsUsed s = 0 ∧ Game.seed s = Some 12345 ∧
    gameOver s = false ∧ ¬ all_match s ∧ game_inv s.
Proof.
  assert (listed "easy") as Hd by (by eexists).
  split; [exact Hd|]. split; [exact I|].
  exact (newGame_starts_open_game "easy" (Some 12345) 1 idle_world Hd I).
Defined.

Lemma demo_game_inv : game_inv demo_game.
Proof.
  apply newState_inv; (split; [reflexivity|by repeat constructor]).
Qed.

(** Over any sequence of moves, the board is the original grid with the
    changes of the undo stack replayed, oldest first; solution and
    original grid stay, and every cell under a clue holds the clue. *)
Theorem board_replays_history (ops : list Op) (s : State) :
  game_inv s →
  puzzle (run ops s) = replay (original s) (history (run ops s)) ∧
  solution (run ops s) = solution s ∧ original (run ops s) = original s ∧
  ∀ r c v, cell (original s) r c = Some v → v ≠ 0 →
    cell (puzzle (run ops s)) r c = Some v.
Proof.
  intros Hinv. destruct (run_fixed ops s Hinv) as [Hs Ho].
  destruct (run_inv ops s Hinv) as (_ & (Hlog & _ & Hfree) & _).
  rewrite Ho in Hlog, Hfree. split_and!; try done.
  - by apply log_from_replay.
  - intros r c v Hv Hv0. apply Forall_app in Hfree as [Hfree _].
    by rewrite (log_from_clues _ _ _ _ r c v Hfree Hlog Hv Hv0).
Qed.

Lemma board_replays_history_witness :
  let ops := [Select 0 2; Place 9 true; Select 0 3; Place 5 true; Undo;
              Select 0 0; Place 3 true; Erase; Hint; Redo] in
  game_inv demo_game ∧
  puzzle (run ops demo_game)
  = replay (original demo_game) (history (run ops demo_game)) ∧
  solution (run ops demo_game) = solution demo_game ∧
  original (run ops demo_game) = original demo_game ∧
  ∀ r c v, cell (original demo_game) r c = Some v → v ≠ 0 →
    cell (puzzle (run ops demo_game)) r c = Some v.
Proof.
  split; [exact demo_game_inv|].
  exact (board_replays_history _ demo_game demo_game_inv).
Defined.

(** Over any sequence of moves there are at most three mistakes and three
    hints; a game is won exactly when it is over with fewer than three
    mistakes, and then the board is the solution; it is lost exactly when
    the mistakes are three. *)
Theorem verdict_follows_counters (ops : list Op) (s : State) :
  game_inv s →
  0 <= mistakes (run ops s) <= 3 ∧ 0 <= hintsUsed (run ops s) <= 3 ∧
  (won (run ops s) = true ↔
   gameOver (run ops s) = true ∧ mistakes (run ops s) < 3) ∧
  (won (run ops s) = true → all_match (run ops s)) ∧
  (gameOver (run ops s) = true ∧ won (run ops s) = false ↔
   mistakes (run ops s) = 3).
Proof.
  intros Hinv. destruct (run_inv ops s Hinv) as (_ & _ & Hm & Hh & Hv).
  unfold MAX_MISTAKES, MAX_HINTS in *.
  destruct (gameOver (run ops s)), (won (run ops s));
    split_and!; try done; try lia; try tauto;
    try (split; [intros [? ?]|intros ?]; try done; lia);
    try (split; [intros ?|intros [? ?]]; try done; lia).
Qed.

Lemma verdict_follows_counters_witness :
  let ops := [Select 0 2; Place 1 true; Place 2 true; Hint; Place 3 true;
              Undo; Place 9 true] in
  game_inv demo_game ∧
  0 <= mistakes (run ops demo_game) <= 3 ∧
  0 <= hintsUsed (run ops demo_game) <= 3 ∧
  (won (run ops demo_game) = true ↔
   gameOver (run ops demo_game) = true ∧ mistakes (run ops demo_game) < 3) ∧
  (won (run ops demo_game) = true → all_match (run ops demo_game)) ∧
  (gameOver (run ops demo_game) = true ∧ won (run ops demo_game) = false ↔
   mistakes (run ops demo_game) = 3).
Proof.
  split; [exact demo_game_inv|].
  exact (verdict_follows_counters _ demo_game demo_game_inv).
Defined.

(** Once a game is over, no move and no tick of the timer changes the
    board, the notes, the two stacks, the counters, the time or the
    verdict: a lost game cannot be undone. *)
Theorem finished_game_is_settled (ops : list Op) (s : State) :
  gameOver s = true → settled (run ops s) = settled s.
Proof.
  revert s. induction ops as [|op ops IH]; intros s Hover; [done|].
  change (run (op :: ops) s) with (run ops (step op s)).
  pose proof (step_settled op s Hover) as Hstep.
  rewrite IH; [done|].
  unfold settled in Hstep. injection Hstep as _ _ _ _ _ _ _ _ _ Hgo _.
  by rewrite Hgo.
Qed.

Lemma finished_game_is_settled_witness :
  let ops := [Undo; Select 0 3; Place 8 true; Erase; Hint; Redo; Tick] in
  gameOver demo_game_lost = true ∧
  settled (run ops demo_game_lost) = settled demo_game_lost.
Proof.
  assert (gameOver demo_game_lost = true) as Hover by (vm_compute; reflexivity).
  split; [exact Hover|].
  exact (finished_game_is_settled _ demo_game_lost Hover).
Defined.

(** ** Undo, redo and notes *)

Lemma State_ext s s' :
  settled s' = settled s → setting s' = setting s →
  timerInterval s' = timerInterval s → s' = s.
Proof.
  destruct s, s'. unfold settled, setting. cbn. intros H1 H2 H3.
  by simplify_eq.
Qed.

(** In a running game with a change to undo, [undo] returns the last
    change and [redo] after it returns the same change and leads back to
    the very state before the undo; with a change to redo, [redo] and
    then [undo] lead back likewise. *)
Theorem undo_and_redo_are_inverse (s : State) :
  game_inv s → gameOver s = false →
  (∀ a, last (history s) = Some a →
     ∃ s1, undo s = Done (Some a) s1 ∧ redo s1 = Done (Some a) s) ∧
  (∀ a, last (redoStack s) = Some a →
     ∃ s1, redo s = Done (Some a) s1 ∧ undo s1 = Done (Some a) s).
Proof.
  intros ((Hwp & Hws & Hwo & Hwn) & (Hlog & [g Hredo] & Hfree) & _) Hrun.
  apply Forall_app in Hfree as [Hfh Hfr]. split.
  - intros a Hlast. apply last_Some_snoc in Hlast as [h Hh].
    rewrite Hh in Hfh, Hlog.
    pose proof Hfh as Hfa. apply Forall_app in Hfa as [_ Hfa].
    apply Forall_singleton in Hfa as (Hr & Hc & _ & [o Ho] & [v Hv]).
    apply log_from_snoc_inv in Hlog as (g1 & Hlog & Hold & Hp).
    destruct (undo_spec s h a Hwp Hr Hrun Hh)
      as (s1 & Hundo & Hp1 & Hh1 & Hr1 & Hk1 & Hset1).
    assert (wf (puzzle s1)) as Hwp1
        by (rewrite Hp1, Ho; cbn; by apply wf_set_cell).
    injection Hk1 as Hm1 Hu1 Hg1 Hw1 Hn1 Ht1.
    assert (gameOver s1 = false) as Hrun1 by congruence.
    destruct (redo_spec s1 (redoStack s) a Hwp1 Hr Hrun1 Hr1)
      as (s2 & Hredo2 & Hp2 & Hr2 & Hh2 & Hk2 & Hset2).
    injection Hk2 as Hm2 Hu2 Hg2 Hw2 Hn2 Ht2.
    exists s1. split; [done|]. rewrite Hredo2. f_equal.
    assert (puzzle s2 = puzzle s) as Hpuz.
    { rewrite Hp2, Hp1, Hp, Ho, Hv. unfold apply_action. rewrite Hv. cbn.
      rewrite set_cell_set_cell, set_cell_set_cell. done. }
    unfold setting in Hset1, Hset2.
    injection Hset1 as Ha1 Hb1 Hc1 Hd1 He1 Hf1 Hg1' Hh1' Hi1.
    injection Hset2 as Ha2 Hb2 Hc2 Hd2 He2 Hf2 Hg2' Hh2' Hi2.
    apply State_ext; unfold settled, setting; congruence.
  - intros a Hlast. apply last_Some_snoc in Hlast as [h Hh].
    rewrite Hh in Hfr, Hredo. rewrite rev_unit in Hredo.
    destruct Hredo as [Hold _].
    pose proof Hfr as Hfa. apply Forall_app in Hfa as [_ Hfa].
    apply Forall_singleton in Hfa as (Hr & Hc & _ & [o Ho] & [v Hv]).
    destruct (redo_spec s h a Hwp Hr Hrun Hh)
      as (s1 & Hredo1 & Hp1 & Hr1 & Hh1 & Hk1 & Hset1).
    assert (wf (puzzle s1)) as Hwp1
        by (rewrite Hp1, Hv; cbn; by apply wf_set_cell).
    injection Hk1 as Hm1 Hu1 Hg1 Hw1 Hn1 Ht1.
    assert (gameOver s1 = false) as Hrun1 by congruence.
    destruct (undo_spec s1 (history s) a Hwp1 Hr Hrun1 Hh1)
      as (s2 & Hundo2 & Hp2 & Hh2 & Hr2 & Hk2 & Hset2).
    injection Hk2 as Hm2 Hu2 Hg2 Hw2 Hn2 Ht2.
    exists s1. split; [done|]. rewrite Hundo2. f_equal.
    assert (puzzle s2 = puzzle s) as Hpuz.
    { rewrite Hp2, Hp1, Ho, Hv. cbn. apply set_cell_restore. congruence. }
    unfold setting in Hset1, Hset2.
    injection Hset1 as Ha1 Hb1 Hc1 Hd1 He1 Hf1 Hg1' Hh1' Hi1.
    injection Hset2 as Ha2 Hb2 Hc2 Hd2 He2 Hf2 Hg2' Hh2' Hi2.
    apply State_ext; unfold settled, setting; congruence.
Qed.

Lemma undo_and_redo_are_inverse_witness :
  let s := run [Select 0 2; Place 9 true; Select 0 3; Place 5 true; Undo]
               demo_game in
  let a1 := mkAction 0 2 (Some 0) (Some 9) in
  let a2 := mkAction 0 3 (Some 0) (Some 5) in
  game_inv s ∧ gameOver s = false ∧
  (∃ s1, undo s = Done (Some a1) s1 ∧ redo s1 = Done (Some a1) s) ∧
  (∃ s1, redo s = Done (Some a2) s1 ∧ undo s1 = Done (Some a2) s).
Proof.
  intros s a1 a2.
  assert (game_inv s) as Hinv by apply run_inv, demo_game_inv.
  assert (gameOver s = false) as Hrun by (vm_compute; reflexivity).
  destruct (undo_and_redo_are_inverse s Hinv Hrun) as [Hundo Hredo].
  split_and!; [done|done|apply Hundo|apply Hredo]; vm_compute; reflexivity.
Defined.

(** A wrong number that is not the third mistake and is undone at once
    leaves the board and the undo stack as they were before it, but the
    mistake stays counted and the notes of the cell stay cleared. *)
Theorem undone_mistake_still_counts
    (num : Z) (autoNotes : bool) (s : State) (row col : nat) :
  game_inv s → gameOver s = false → notesMode s = false →
  selectedCell s = Some (row, col) → cell (original s) row col = Some 0 →
  cell (solution s) row col ≠ Some num → mistakes s < MAX_MISTAKES - 1 →
  ∃ o s1 s2,
    cell (puzzle s) row col = Some o ∧
    placeNumber num autoNotes s = Done (Placed false false false) s1 ∧
    undo s1 = Done (Some (mkAction row col (Some o) (Some num))) s2 ∧
    puzzle s2 = puzzle s ∧ history s2 = history s ∧
    mistakes s2 = mistakes s + 1 ∧ note_at (notes s2) row col = Some ∅.
Proof.
  intros (Hwf & _ & Hverdict) Hrun Hmode Hsel Horig Hwrong Hfew.
  destruct (verdict_running s Hverdict Hrun) as (_ & _ & Hwon).
  destruct (placeNumber_places num autoNotes s row col Hwf Hsel Hrun Hmode Horig)
    as (o & cv & s1 & Ho & Hcv & Hplace & Hp & Hhist & _ & _ & _ & _ & Hnote
        & _ & _ & Hwrong').
  assert (num ≠ cv) as Hne by congruence.
  destruct (Hwrong' Hne) as [Hm [(? & _)|(_ & Hover1 & Hwon1)]]; [lia|].
  rewrite Hover1, Hwon1, Hwon, bool_decide_eq_false_2 in Hplace by done.
  destruct (cell_lt _ _ _ _ (proj1 (proj2 (proj2 Hwf))) Horig) as [Hr Hc].
  assert (wf (puzzle s1)) as Hwf1
      by (rewrite Hp; apply wf_set_cell, Hwf).
  destruct (undo_spec s1 (history s) (mkAction row col (Some o) (Some num))
              Hwf1 Hr Hover1 Hhist)
    as (s2 & Hundo & Hp2 & Hh2 & _ & Hk & _).
  injection Hk as Hm2 _ _ _ Hn2 _.
  exists o, s1, s2. split_and!; try done.
  - rewrite Hp2, Hp. cbn. by apply set_cell_restore.
  - congruence.
  - by rewrite Hn2.
Qed.

Lemma undone_mistake_still_counts_witness :
  let s := run [ToggleNotes; Select 0 2; Place 4 true; Place 9 true;
                ToggleNotes] demo_game in
  (game_inv s ∧ gameOver s = false ∧ notesMode s = false ∧
   selectedCell s = Some (0, 2)%nat ∧ cell (original s) 0 2 = Some 0 ∧
   cell (solution s) 0 2 ≠ Some 4 ∧ mistakes s < MAX_MISTAKES - 1 ∧
   note_at (notes s) 0 2 = Some {[4; 9]}) ∧
  ∃ o s1 s2,
    cell (puzzle s) 0 2 = Some o ∧
    placeNumber 4 true s = Done (Placed false false false) s1 ∧
    undo s1 = Done (Some (mkAction 0 2 (Some o) (Some 4))) s2 ∧
    puzzle s2 = puzzle s ∧ history s2 = history s ∧
    mistakes s2 = mistakes s + 1 ∧ note_at (notes s2) 0 2 = Some ∅.
Proof.
  intros s.
  assert (game_inv s) as Hinv by apply run_inv, demo_game_inv.
  assert (gameOver s = false) as Hrun by (vm_compute; reflexivity).
  assert (notesMode s = false) as Hmode by (vm_compute; reflexivity).
  assert (selectedCell s = Some (0, 2)%nat) as Hsel
      by (vm_compute; reflexivity).
  assert (cell (original s) 0 2 = Some 0) as Horig
      by (vm_compute; reflexivity).
  assert (cell (solution s) 0 2 ≠ Some 4) as Hwrong by (vm_compute; congruence).
  assert (mistakes s < MAX_MISTAKES - 1) as Hfew by (vm_compute; reflexivity).
  split.
  - split_and!; try done; by vm_compute.
  - exact (undone_mistake_still_counts 4 true s 0 2
             Hinv Hrun Hmode Hsel Horig Hwrong Hfew).
Defined.

(** A correct number placed with automatic notes on empties the notes of
    its cell, takes the number out of the notes of every other cell of
    its row, column and box, and leaves the notes of all other cells. *)
Theorem correct_number_prunes_notes
    (num : Z) (s : State) (row col : nat) :
  wf_state s → gameOver s = false → notesMode s = false →
  selectedCell s = Some (row, col) → cell (original s) row col = Some 0 →
  cell (solution s) row col = Some num →
  ∃ over won' s',
    placeNumber num true s = Done (Placed true over won') s' ∧
    ∀ r c x, note_at (notes s) r c = Some x →
      note_at (notes s') r c
      = Some (if bool_decide ((r, c) = (row, col)) then ∅
              else if bool_decide (peer row col r c) then x ∖ {[num]}
                   else x).
Proof.
  intros Hwf Hrun Hmode Hsel Horig Hsol.
  destruct (placeNumber_places num true s row col Hwf Hsel Hrun Hmode Horig)
    as (o & cv & s' & Ho & Hcv & Hplace & _ & _ & _ & _ & _ & _ & Hnote
        & Hpeers & _ & _).
  assert (num = cv) as Heq by congruence.
  rewrite bool_decide_eq_true_2 in Hplace by done.
  exists (gameOver s'), (won s'), s'. split; [done|].
  intros r c x Hx. case_bool_decide as Hpos.
  - by simplify_eq.
  - by apply Hpeers.
Qed.

Lemma correct_number_prunes_notes_witness :
  let s := run [ToggleNotes; Select 0 2; Place 4 true; Select 0 3;
                Place 9 true; Place 8 true; Select 1 0; Place 9 true;
                Select 0 2; ToggleNotes] demo_game in
  (wf_state s ∧ gameOver s = false ∧ notesMode s = false ∧
   selectedCell s = Some (0, 2)%nat ∧ cell (original s) 0 2 = Some 0 ∧
   cell (solution s) 0 2 = Some 9 ∧
   note_at (notes s) 0 3 = Some {[8; 9]} ∧
   note_at (notes s) 1 0 = Some {[9]}) ∧
  ∃ over won' s',
    placeNumber 9 true s = Done (Placed true over won') s' ∧
    ∀ r c x, note_at (notes s) r c = Some x →
      note_at (notes s') r c
      = Some (if bool_decide ((r, c) = (0, 2)%nat) then ∅
              else if bool_decide (peer 0 2 r c) then x ∖ {[9]}
                   else x).
Proof.
  intros s.
  assert (game_inv s) as [Hwf _] by apply run_inv, demo_game_inv.
  assert (gameOver s = false) as Hrun by (vm_compute; reflexivity).
  assert (notesMode s = false) as Hmode by (vm_compute; reflexivity).
  assert (selectedCell s = Some (0, 2)%nat) as Hsel
      by (vm_compute; reflexivity).
  assert (cell (original s) 0 2 = Some 0) as Horig
      by (vm_compute; reflexivity).
  assert (cell (solution s) 0 2 = Some 9) as Hsol by (vm_compute; reflexivity).
  split.
  - split_and!; try done; by vm_compute.
  - exact (correct_number_prunes_notes 9 s 0 2
             Hwf Hrun Hmode Hsel Horig Hsol).
Defined.
